(** * tokeninfo-api: the multi-source token metadata resolver

    A shallow embedding of the address-resolution core of the service
    (the file with [handleBatch], [fetchFromDefiLlama],
    [fetchFromCoinGeckoBySymbol], [fetchOnChainNameSymbol],
    [formatTokenOutput], [resolveChainSlug] and [normalizeAddress]), and of
    the two routes that call it.

    Modelling conventions.
    - JavaScript strings are sequences of 8-bit characters; [toLowerCase]
      and [toUpperCase] change the ASCII letters only, and the regular
      expression class [\s] is the six ASCII white-space characters.  On
      strings of ASCII characters ([ascii_only]) these are JavaScript's
      own.  JavaScript maps the case of other letters too, and not always
      letter by letter (the upper case of the sharp s is two letters), so
      the laws that undo a case mapping (lower-casing an upper-cased
      string gives the lower-cased string, and the like) are stated and
      used for [ascii_only] strings only; what is used of every string is
      that lower-casing twice is lower-casing once and that a case mapping
      keeps an empty string empty and a non-empty one non-empty.
    - Values parsed from a response body are [json]; [undefined] is the
      [None] of [jsval].  JSON numbers are integers here: the program only
      tests them for truthiness.
    - The LRU cache, the clock, the HTTP client and the ethers library are
      not code of the repository.  The cache is modelled after the
      documented behaviour of [lru-cache] with the options of the source
      ([max: 5000], [ttl: 1h]); the network and ethers are an environment
      [env] every definition is parameterised by.
    - An [async] function is a state transformer on [world] that also
      returns the list of events it caused, in order. *)

From Stdlib Require Import String Ascii List Bool Arith NArith ZArith Lia.
From Stdlib Require Import Permutation FinFun.
Import ListNotations.
Local Open Scope list_scope.
Local Open Scope string_scope.


Local Set Warnings "-register-all".

(* ------------------------------------------------------------------ *)
(** ** JavaScript strings *)

Module Js.

Definition lower_ascii (c : ascii) : ascii :=
  let n := nat_of_ascii c in
  if Nat.leb 65 n && Nat.leb n 90 then ascii_of_nat (n + 32) else c.

Definition upper_ascii (c : ascii) : ascii :=
  let n := nat_of_ascii c in
  if Nat.leb 97 n && Nat.leb n 122 then ascii_of_nat (n - 32) else c.

Fixpoint map_string (f : ascii -> ascii) (s : string) : string :=
  match s with
  | EmptyString => EmptyString
  | String c r => String (f c) (map_string f r)
  end.

(** [s.toLowerCase()] and [s.toUpperCase()] *)
Definition toLowerCase (s : string) : string := map_string lower_ascii s.
Definition toUpperCase (s : string) : string := map_string upper_ascii s.

(** the class [\s]: tab, line feed, vertical tab, form feed, carriage
    return, space *)
Definition is_space (c : ascii) : bool :=
  let n := nat_of_ascii c in
  (Nat.leb 9 n && Nat.leb n 13) || Nat.eqb n 32.

(** [s.replace(/\s+/g, "-")]: every maximal run of white space becomes one
    hyphen.  [in_run] tells that the previous character was white space. *)
Fixpoint hyphenate (in_run : bool) (s : string) : string :=
  match s with
  | EmptyString => EmptyString
  | String c r =>
      if is_space c
      then (if in_run then hyphenate true r else String "-" (hyphenate true r))
      else String c (hyphenate false r)
  end.

Definition replace_spaces (s : string) : string := hyphenate false s.

(** [l.join(sep)] *)
Fixpoint join (sep : string) (l : list string) : string :=
  match l with
  | [] => ""
  | [x] => x
  | x :: r => x ++ sep ++ join sep r
  end.

(** a string without the character [c] *)
Fixpoint free_of (c : ascii) (s : string) : bool :=
  match s with
  | EmptyString => true
  | String d r => negb (Ascii.eqb c d) && free_of c r
  end.

(* ---------------------------------------------------------------- *)
(** ** JavaScript values *)

Inductive json : Type :=
| JNull
| JBool (b : bool)
| JNum (n : Z)
| JStr (s : string)
| JArr (l : list json)
| JObj (l : list (string * json)).

(** [None] is [undefined] *)
Definition jsval : Type := option json.

Definition null : jsval := Some JNull.
Definition str (s : string) : jsval := Some (JStr s).

(** a string or [null], as a value *)
Definition of_opt (o : option string) : jsval :=
  match o with Some s => str s | None => null end.

Definition truthy (v : jsval) : bool :=
  match v with
  | None => false
  | Some JNull => false
  | Some (JBool b) => b
  | Some (JNum n) => negb (Z.eqb n 0)
  | Some (JStr s) => negb (String.eqb s "")
  | Some (JArr _) => true
  | Some (JObj _) => true
  end.

(** [a || b] *)
Definition or_else (a b : jsval) : jsval := if truthy a then a else b.

Definition nullish (v : jsval) : bool :=
  match v with None | Some JNull => true | _ => false end.

Inductive exn : Type := TypeError | FetchError | SyntaxError | EthersError.

Inductive outcome (A : Type) : Type :=
| Ret (a : A)
| Throw (e : exn).
Arguments Ret {A} a.
Arguments Throw {A} e.

(** the own property [p] of an object built by [JSON.parse]: of two members
    with the same name the later one wins *)
Fixpoint own_prop (members : list (string * json)) (p : string) : jsval :=
  match members with
  | [] => None
  | (k, v) :: r =>
      match own_prop r p with
      | Some x => Some x
      | None => if String.eqb k p then Some v else None
      end
  end.

(** [x.p] and [x[p]], for a property name [p] that is neither an array
    index, nor [length], nor defined on a built-in prototype.  The names the
    program reads this way are [coins], [name], [symbol], [logo],
    [logo_url], [id], [large], [thumb], [image] and the bulk key
    [slug:address], which contains a colon.  Reading a property of [null] or
    [undefined] is a TypeError; a primitive or an array has none of these
    properties. *)
Definition get_prop (x : jsval) (p : string) : outcome jsval :=
  match x with
  | None => Throw TypeError
  | Some JNull => Throw TypeError
  | Some (JObj members) => Ret (own_prop members p)
  | Some _ => Ret None
  end.

(** [x?.p] and [x?.[p]] *)
Definition get_prop_opt (x : jsval) (p : string) : jsval :=
  match x with
  | Some (JObj members) => own_prop members p
  | _ => None
  end.

(** the method call [x.toLowerCase()]: a TypeError unless [x] is a string
    (no other value parsed from JSON has a callable [toLowerCase]) *)
Definition call_toLowerCase (x : jsval) : outcome string :=
  match x with
  | Some (JStr s) => Ret (toLowerCase s)
  | _ => Throw TypeError
  end.

(** [x?.toLowerCase()] *)
Definition opt_toLowerCase (x : jsval) : outcome (option string) :=
  if nullish x then Ret None
  else match call_toLowerCase x with
       | Ret s => Ret (Some s)
       | Throw e => Throw e
       end.

End Js.
Export Js.

(* ------------------------------------------------------------------ *)
(** ** Chain resolution *)

(** own properties of the object literal [CHAIN_MAP] *)
Definition CHAIN_MAP : list (string * string) :=
  [ ("1", "ethereum"); ("ethereum", "ethereum");
    ("137", "polygon"); ("polygon", "polygon");
    ("56", "bsc"); ("bsc", "bsc");
    ("42161", "arbitrum"); ("arbitrum", "arbitrum");
    ("10", "optimism"); ("optimism", "optimism");
    ("43114", "avalanche"); ("avax", "avalanche");
    ("8453", "base"); ("base", "base");
    ("250", "fantom"); ("fantom", "fantom") ].

Fixpoint assoc (k : string) (l : list (string * string)) : option string :=
  match l with
  | [] => None
  | (k', v) :: r => if String.eqb k k' then Some v else assoc k r
  end.

(** What [resolveChainSlug] can return.  [CHAIN_MAP] is an object literal,
    so [CHAIN_MAP[key]] also finds the properties inherited from
    [Object.prototype]; [key] is lower case, and the only inherited names
    without an upper-case letter are [constructor] and [__proto__]. *)
Inductive slug : Type :=
| SlugStr (s : string)
| SlugObjectConstructor      (* the function [Object] *)
| SlugObjectPrototype.       (* the object [Object.prototype] *)

(** [CHAIN_MAP[key]] when it is truthy *)
Definition chain_map_get (key : string) : option slug :=
  match assoc key CHAIN_MAP with
  | Some s => Some (SlugStr s)
  | None =>
      if String.eqb key "constructor" then Some SlugObjectConstructor
      else if String.eqb key "__proto__" then Some SlugObjectPrototype
      else None
  end.

(** [chainInput] is a string or absent *)
Definition resolveChainSlug (chainInput : option string) : slug :=
  match chainInput with
  | None => SlugStr "ethereum"
  | Some c =>
      if String.eqb c "" then SlugStr "ethereum"
      else
        let key := toLowerCase c in
        match chain_map_get key with
        | Some v => v
        | None => SlugStr key
        end
  end.

(** the text a template literal [`${chainSlug}`] puts for the slug *)
Definition slug_text (c : slug) : string :=
  match c with
  | SlugStr s => s
  | SlugObjectConstructor => "function Object() { [native code] }"
  | SlugObjectPrototype => "[object Object]"
  end.

(* ------------------------------------------------------------------ *)
(** ** The cache: [new LRUCache({ max: 5000, ttl: 1000 * 60 * 60 })] *)

Module Lru.

Definition MAX : nat := 5000.
Definition TTL : N := 3600000.

(** an entry: key, value and the time it was set; the list is kept from
    the most recently used entry to the least recently used one *)
Record entry : Type := mkEntry { ekey : string; evalue : json; estart : N }.

Definition store : Type := list entry.

Definition is_stale (t : N) (e : entry) : bool := (TTL <? t - estart e)%N.

Fixpoint find (k : string) (c : store) : option entry :=
  match c with
  | [] => None
  | e :: r => if String.eqb (ekey e) k then Some e else find k r
  end.

Definition remove (k : string) (c : store) : store :=
  filter (fun e => negb (String.eqb (ekey e) k)) c.

(** [cache.has(key)]: a stale entry counts as absent; recency is untouched *)
Definition has (t : N) (k : string) (c : store) : bool :=
  match find k c with
  | Some e => negb (is_stale t e)
  | None => false
  end.

(** [cache.get(key)]: a stale entry is deleted and [undefined] returned; a
    live one becomes the most recently used *)
Definition get (t : N) (k : string) (c : store) : jsval * store :=
  match find k c with
  | Some e =>
      if is_stale t e then (None, remove k c)
      else (Some (evalue e), e :: remove k c)
  | None => (None, c)
  end.

(** [cache.set(key, value)]: the entry becomes the most recently used, its
    age starts again, and the least recently used entries beyond [max] are
    evicted *)
Definition set (t : N) (k : string) (v : json) (c : store) : store :=
  firstn MAX (mkEntry k v t :: remove k c).

End Lru.

(* ------------------------------------------------------------------ *)
(** ** The environment and the state *)

(** what [fetch(url)] followed by [res.json()] does: the request rejects,
    or a response arrives whose body parses ([Some]) or does not ([None]) *)
Inductive http_response : Type :=
| Rejects
| Response (ok : bool) (body : option json).

(** what the two contract reads do: [Unavailable] when building or calling
    the contract throws synchronously, else each read gives a string or
    rejects ([None]) *)
Inductive contract_reads : Type :=
| Unavailable
| Reads (name symbol : option string).

(** The environment.  [fetch] and [contract] take the number of upstream
    lookups made so far, so that the same request can be answered
    differently at different times; [latency] is the time such a lookup
    takes; [getAddress] is [ethers.getAddress], [None] when it throws. *)
Record env : Type := mkEnv {
  getAddress : string -> option string;
  fetch : nat -> string -> http_response;
  contract : nat -> string -> contract_reads;
  latency : nat -> N
}.

Record world : Type := mkWorld {
  cache : Lru.store;
  now : N;
  calls : nat
}.

Inductive source : Type := Llama | OnChain | CoinGecko.

(** [Call..]: an adapter was invoked.  [Fetched s key stored]: the adapter
    of source [s] was not served from the cache for [key] and went
    upstream; [stored] tells whether it then wrote a result to the cache. *)
Inductive event : Type :=
| CallLlama (chainSlug : slug) (addresses : list string)
| CallOnChain (address : string)
| CallCoinGecko (symbol : jsval)
| Fetched (s : source) (key : string) (stored : bool).

Definition M (A : Type) : Type := world -> outcome A * world * list event.

Definition ret {A} (a : A) : M A := fun w => (Ret a, w, []).

Definition bind {A B} (m : M A) (k : A -> M B) : M B :=
  fun w =>
    match m w with
    | (Ret a, w1, ev1) =>
        match k a w1 with
        | (r, w2, ev2) => (r, w2, ev1 ++ ev2)%list
        end
    | (Throw e, w1, ev1) => (Throw e, w1, ev1)
    end.

Definition lift {A} (o : outcome A) : M A := fun w => (o, w, []).

(** [try { x = await m } catch { }] with the value [x] has otherwise *)
Definition try_catch {A} (m : M A) (otherwise : exn -> A) : M A :=
  fun w =>
    match m w with
    | (Ret a, w1, ev) => (Ret a, w1, ev)
    | (Throw e, w1, ev) => (Ret (otherwise e), w1, ev)
    end.

Definition obind {A B} (o : outcome A) (k : A -> outcome B) : outcome B :=
  match o with
  | Ret a => k a
  | Throw e => Throw e
  end.

Notation "x <- c1 ;; c2" := (bind c1 (fun x => c2))
  (at level 61, c1 at next level, right associativity).
Notation "x <~ c1 ;; c2" := (obind c1 (fun x => c2))
  (at level 61, c1 at next level, right associativity).

Definition with_cache (w : world) (c : Lru.store) : world :=
  mkWorld c (now w) (calls w).

(** the state once the upstream lookup number [calls w] has completed *)
Definition tick (E : env) (w : world) : world :=
  mkWorld (cache w) (now w + latency E (calls w))%N (S (calls w)).

(** [if (cache.has(key)) return cache.get(key)] when the key is there *)
Definition from_cache (w : world) (key : string) : option (jsval * world) :=
  if Lru.has (now w) key (cache w)
  then let (v, c) := Lru.get (now w) key (cache w) in Some (v, with_cache w c)
  else None.

Definition cache_set (w : world) (key : string) (v : json) : world :=
  with_cache w (Lru.set (now w) key v (cache w)).

(** an object literal; a member whose value is [undefined] reads like a
    missing member and is left out *)
Fixpoint defined_members (members : list (string * jsval))
  : list (string * json) :=
  match members with
  | [] => []
  | (k, Some v) :: r => (k, v) :: defined_members r
  | (_, None) :: r => defined_members r
  end.

Definition object (members : list (string * jsval)) : json :=
  JObj (defined_members members).

(* ------------------------------------------------------------------ *)
(** ** The program *)

Section Program.

Variable E : env.

(** [normalizeAddress] *)
Definition normalizeAddress (addr : string) : string :=
  match getAddress E addr with
  | Some checksummed => checksummed
  | None => toLowerCase addr
  end.

(** [{ coins: {} }] *)
Definition empty_coins : json := JObj [("coins", JObj [])].

Definition llama_key (chainSlug : slug) (addresses : list string) : string :=
  "llama:" ++ slug_text chainSlug ++ ":" ++ join "," addresses.

Definition llama_url (chainSlug : slug) (addresses : list string) : string :=
  "https://coins.llama.fi/prices/current/"
  ++ join "," (map (fun a => slug_text chainSlug ++ ":" ++ a) addresses).

(** [fetchFromDefiLlama]: no [try] of its own; a rejected request or an
    unparseable body is thrown to the caller *)
Definition fetchFromDefiLlama (chainSlug : slug) (addresses : list string)
  : M jsval :=
  fun w =>
    let key := llama_key chainSlug addresses in
    let call := CallLlama chainSlug addresses in
    match from_cache w key with
    | Some (v, w') => (Ret v, w', [call])
    | None =>
        let w1 := tick E w in
        match fetch E (calls w) (llama_url chainSlug addresses) with
        | Rejects =>
            (Throw FetchError, w1, [call; Fetched Llama key false])
        | Response false _ =>
            (Ret (Some empty_coins), w1, [call; Fetched Llama key false])
        | Response true None =>
            (Throw SyntaxError, w1, [call; Fetched Llama key false])
        | Response true (Some json) =>
            (Ret (Some json), cache_set w1 key json,
             [call; Fetched Llama key true])
        end
    end.

(** the callback of [find]:
    [c => c.symbol?.toLowerCase() === symbol.toLowerCase()] *)
Definition symbol_matches (symbol : string) (c : json) : outcome bool :=
  s <~ get_prop (Some c) "symbol" ;;
  l <~ opt_toLowerCase s ;;
  Ret (match l with
       | Some x => String.eqb x (toLowerCase symbol)
       | None => false
       end).

(** [l.find(p)] *)
Fixpoint array_find (p : json -> outcome bool) (l : list json)
  : outcome jsval :=
  match l with
  | [] => Ret None
  | c :: r =>
      match p c with
      | Throw e => Throw e
      | Ret true => Ret (Some c)
      | Ret false => array_find p r
      end
  end.

(** Lines 79-90 of [fetchFromCoinGeckoBySymbol]: the record built from the
    parsed body, [None] where the source returns [null].  When [data.coins]
    is truthy but not an array, either [data.coins.length > 0] fails and
    [null] is returned, or [data.coins.find] is not a function and the
    TypeError is caught by the adapter, which returns [null] as well. *)
Definition coingecko_result (symbol : string) (data : json)
  : outcome (option json) :=
  coins <~ get_prop (Some data) "coins" ;;
  match coins with
  | Some (JArr (first :: rest)) =>
      found <~ array_find (symbol_matches symbol) (first :: rest) ;;
      let m := or_else found (Some first) in
      id <~ get_prop m "id" ;;
      sym <~ get_prop m "symbol" ;;
      lsym <~ opt_toLowerCase sym ;;
      name <~ get_prop m "name" ;;
      large <~ get_prop m "large" ;;
      thumb <~ get_prop m "thumb" ;;
      Ret (Some (object [ ("id", id);
                          ("symbol", option_map JStr lsym);
                          ("name", name);
                          ("image", or_else large (or_else thumb null)) ]))
  | _ => Ret None
  end.

Definition coingecko_key (symbol : string) : string :=
  "cg:" ++ toLowerCase symbol.

Definition coingecko_url (symbol : string) : string :=
  "https://api.coingecko.com/api/v3/search?query=" ++ symbol.

(** [fetchFromCoinGeckoBySymbol]: the whole body is inside [try]; every
    failure gives [null].  A [symbol] that is not a string makes
    [symbol.toLowerCase()] fail before anything else happens. *)
Definition fetchFromCoinGeckoBySymbol (symbol : jsval) : M jsval :=
  fun w =>
    let call := CallCoinGecko symbol in
    match symbol with
    | Some (JStr sym) =>
        let key := coingecko_key sym in
        match from_cache w key with
        | Some (v, w') => (Ret v, w', [call])
        | None =>
            let w1 := tick E w in
            let failed := (Ret null, w1, [call; Fetched CoinGecko key false]) in
            match fetch E (calls w) (coingecko_url sym) with
            | Rejects => failed
            | Response false _ => failed
            | Response true None => failed
            | Response true (Some data) =>
                match coingecko_result sym data with
                | Ret (Some result) =>
                    (Ret (Some result), cache_set w1 key result,
                     [call; Fetched CoinGecko key true])
                | Ret None => failed
                | Throw _ => failed
                end
            end
        end
    | _ => (Ret null, w, [call])
    end.

Definition onchain_key (address : string) : string :=
  "onchain:" ++ toLowerCase address.

Definition onchain_record (name symbol : option string) : json :=
  JObj [("name", match name with Some n => JStr n | None => JNull end);
        ("symbol", match symbol with Some s => JStr s | None => JNull end)].

(** [fetchOnChainNameSymbol]: each read has its own [.catch(() => null)],
    so both promises settle as fulfilled and the record is stored even when
    both reads failed; only the outer [catch] returns without storing *)
Definition fetchOnChainNameSymbol (address : string) : M jsval :=
  fun w =>
    let key := onchain_key address in
    let call := CallOnChain address in
    match from_cache w key with
    | Some (v, w') => (Ret v, w', [call])
    | None =>
        let w1 := tick E w in
        match contract E (calls w) address with
        | Unavailable =>
            (Ret (Some (onchain_record None None)), w1,
             [call; Fetched OnChain key false])
        | Reads name symbol =>
            let result := onchain_record name symbol in
            (Ret (Some result), cache_set w1 key result,
             [call; Fetched OnChain key true])
        end
    end.

(** the record [formatTokenOutput] returns *)
Record TokenRecord : Type := mkToken {
  id : string;
  symbol : jsval;
  name : jsval;
  image : jsval;
  contractAddress : string
}.

(** [formatTokenOutput] *)
Definition formatTokenOutput (rawName rawSymbol imageUrl : jsval)
  (contractAddress : string) : outcome TokenRecord :=
  symbol <~ (if truthy rawSymbol
             then (s <~ call_toLowerCase rawSymbol ;; Ret (str s))
             else Ret null) ;;
  let name :=
    or_else rawName
      (if truthy symbol
       then match symbol with
            | Some (JStr s) => str (toUpperCase s)
            | _ => null
            end
       else null) in
  id <~ (if truthy name
         then (n <~ call_toLowerCase name ;; Ret (replace_spaces n))
         else call_toLowerCase (or_else symbol (str contractAddress))) ;;
  Ret (mkToken id symbol name (or_else imageUrl null)
         (normalizeAddress contractAddress)).

(** lines 164-167: the fields seeded from the bulk record *)
Definition seed (chainSlug : slug) (llamaData : jsval) (addr : string)
  : outcome (jsval * jsval * jsval) :=
  coins <~ get_prop llamaData "coins" ;;
  let tokenInfo :=
    or_else (get_prop_opt coins (slug_text chainSlug ++ ":" ++ addr))
            (Some (JObj [])) in
  tname <~ get_prop tokenInfo "name" ;;
  tsymbol <~ get_prop tokenInfo "symbol" ;;
  logo <~ get_prop tokenInfo "logo" ;;
  logo_url <~ get_prop tokenInfo "logo_url" ;;
  Ret (or_else tname (or_else tsymbol null),
       or_else tsymbol null,
       or_else logo (or_else logo_url null)).

(** [if (!current && from.p) current = from.p] *)
Definition fill (current from : jsval) (p : string) : outcome jsval :=
  if truthy current then Ret current
  else (v <~ get_prop from p ;; Ret (if truthy v then v else current)).

(** lines 169-173: the on-chain step *)
Definition onchain_step (addr : string) (name symbol : jsval)
  : M (jsval * jsval) :=
  if negb (truthy name) || negb (truthy symbol)
  then
    onchain <- fetchOnChainNameSymbol addr ;;
    name' <- lift (fill name onchain "name") ;;
    symbol' <- lift (fill symbol onchain "symbol") ;;
    ret (name', symbol')
  else ret (name, symbol).

(** lines 176-180: the symbol-search step *)
Definition coingecko_step (name symbol image : jsval) : M (jsval * jsval) :=
  if negb (truthy image) && truthy symbol
  then
    cgData <- fetchFromCoinGeckoBySymbol symbol ;;
    image' <- lift (if truthy cgData
                    then (v <~ get_prop cgData "image" ;;
                          Ret (if truthy v then v else image))
                    else Ret image) ;;
    let found := get_prop_opt cgData "name" in
    let name' := if negb (truthy name) && truthy found then found else name in
    ret (name', image')
  else ret (name, image).

(** the body of the loop of [handleBatch], lines 164-182 *)
Definition resolve_address (chainSlug : slug) (llamaData : jsval)
  (addr : string) : M TokenRecord :=
  seeded <- lift (seed chainSlug llamaData addr) ;;
  let '(name0, symbol0, image0) := seeded in
  filled <- onchain_step addr name0 symbol0 ;;
  let '(name1, symbol1) := filled in
  found <- coingecko_step name1 symbol1 image0 ;;
  let '(name2, image2) := found in
  lift (formatTokenOutput name2 symbol1 image2 addr).

(** the loop of [handleBatch]; [results] is the array built so far *)
Fixpoint resolve_all (chainSlug : slug) (llamaData : jsval)
  (addrs : list string) (results : list TokenRecord)
  : M (list TokenRecord) :=
  match addrs with
  | [] => ret results
  | addr :: rest =>
      r <- resolve_address chainSlug llamaData addr ;;
      resolve_all chainSlug llamaData rest (results ++ [r])%list
  end.

(** [handleBatch]; the bulk lookup is the only statement inside [try], and
    [llamaData] keeps its initial value [{ coins: {} }] when it throws *)
Definition handleBatch (addresses : list string) (chainInput : option string)
  : M (list TokenRecord) :=
  let chainSlug := resolveChainSlug chainInput in
  let normalized := map toLowerCase addresses in
  llamaData <- try_catch (fetchFromDefiLlama chainSlug normalized)
                         (fun _ => Some empty_coins) ;;
  resolve_all chainSlug llamaData normalized [].

End Program.

(* ------------------------------------------------------------------ *)
(** ** The routes *)

(** [s.split(",")]: never empty; the empty string gives one empty piece *)
Fixpoint split_commas (s : string) : list string :=
  match s with
  | EmptyString => [""]
  | String c r =>
      match split_commas r with
      | [] => [String c ""]
      | piece :: pieces =>
          if Ascii.eqb c ","
          then "" :: piece :: pieces
          else String c piece :: pieces
      end
  end.

Fixpoint trim_start (s : string) : string :=
  match s with
  | EmptyString => EmptyString
  | String c r => if is_space c then trim_start r else s
  end.

Fixpoint trim_end (s : string) : string :=
  match s with
  | EmptyString => EmptyString
  | String c r =>
      let r' := trim_end r in
      if is_space c && String.eqb r' "" then "" else String c r'
  end.

(** [s.trim()], with the white space of [is_space] *)
Definition trim (s : string) : string := trim_end (trim_start s).

(** [String(addresses).split(",").map(a => a.trim()).filter(Boolean)] *)
Definition parse_addresses (addresses : string) : list string :=
  filter (fun a => negb (String.eqb a "")) (map trim (split_commas addresses)).

(** what a route sends: [res.json(body)], [res.status(400).json({ error })]
    or, from the [catch], [res.status(500).json({ error: err.message })] *)
Inductive reply (A : Type) : Type :=
| Ok (body : A)
| BadRequest (error : string)
| ServerError (err : exn).
Arguments Ok {A} body.
Arguments BadRequest {A} error.
Arguments ServerError {A} err.

Definition Route (A : Type) : Type :=
  world -> reply A * world * list event.

(** the [try]/[catch] of a route around a computation *)
Definition respond {A B} (m : M A) (body : A -> B) : Route B :=
  fun w =>
    match m w with
    | (Ret out, w', evs) => (Ok (body out), w', evs)
    | (Throw err, w', evs) => (ServerError err, w', evs)
    end.

(** [const { chain = "ethereum", ... } = req.query]: the default applies
    to a parameter that is absent *)
Definition chain_or_default (chain : option string) : option string :=
  match chain with
  | Some c => Some c
  | None => Some "ethereum"
  end.

(** A value of [req.query]: a string for a parameter given once; the query
    parser of Express builds an array for a parameter that is repeated or
    written with [[]], and an object for one written with [[key]]. *)
Inductive query_value : Type :=
| QString (s : string)
| QArray (items : list query_value)
| QObject (members : list (string * query_value)).

Section Routes.

Variable E : env.

(** [GET /api/tokeninfo]; the body is [out[0]], [None] standing for
    [undefined].  The address is passed on as it is: an array or an object
    is truthy, and [handleBatch] then throws at [a.toLowerCase()], which is
    not a function (line 153), before any adapter is called; the [catch]
    of the route answers 500.  The [chain] parameter is a string given
    once, or absent. *)
Definition tokeninfo (chain : option string) (address : option query_value)
  : Route (option TokenRecord) :=
  match address with
  | None => fun w => (BadRequest "Missing address", w, [])
  | Some (QString a) =>
      if String.eqb a ""
      then fun w => (BadRequest "Missing address", w, [])
      else respond (handleBatch E [a] (chain_or_default chain))
                   (fun out => nth_error out 0)
  | Some (QArray _) => fun w => (ServerError TypeError, w, [])
  | Some (QObject _) => fun w => (ServerError TypeError, w, [])
  end.

(** [GET /api/tokeninfo/batch]; both parameters are strings given once,
    or absent *)
Definition tokeninfo_batch (chain addresses : option string)
  : Route (list TokenRecord) :=
  match addresses with
  | None => fun w => (BadRequest "Missing addresses", w, [])
  | Some a =>
      if String.eqb a ""
      then fun w => (BadRequest "Missing addresses", w, [])
      else respond (handleBatch E (parse_addresses a) (chain_or_default chain))
                   (fun out => out)
  end.

End Routes.

(* ------------------------------------------------------------------ *)
(** ** Sample environments *)

Module Sample.

Definition usdc : string := "0xa0b86991c6218b36c1d19d4a2e9eb0ce3606eb48".
Definition usdc_checksummed : string :=
  "0xA0b86991c6218b36c1d19D4a2e9Eb0cE3606eB48".
Definition dai : string := "0x6b175474e89094c44da98b954eedeac495271d0f".

(** a stand-in for [ethers.getAddress] that knows one address *)
Definition checksum (a : string) : option string :=
  if String.eqb a usdc then Some usdc_checksummed
  else if String.eqb a usdc_checksummed then Some usdc_checksummed
  else None.

(** every upstream is down: requests reject and both contract reads fail *)
Definition down : env :=
  mkEnv checksum (fun _ _ => Rejects) (fun _ _ => Reads None None)
        (fun _ => 0%N).

(** the HTTP upstreams answer with a non-success status *)
Definition unavailable : env :=
  mkEnv checksum (fun _ _ => Response false None)
        (fun _ _ => Reads None None) (fun _ => 0%N).

(** the HTTP upstreams answer [200] with the body [null] *)
Definition null_body : env :=
  mkEnv checksum (fun _ _ => Response true (Some JNull))
        (fun _ _ => Reads None None) (fun _ => 0%N).

(** the contract reads succeed; the HTTP upstreams are down *)
Definition onchain_only : env :=
  mkEnv checksum (fun _ _ => Rejects)
        (fun _ _ => Reads (Some "Wrapped Ether") (Some "WETH"))
        (fun _ => 0%N).

(** every upstream answers: the bulk source knows no token, the contract
    reads succeed and the search finds the coin *)
Definition healthy : env :=
  mkEnv checksum
        (fun _ url =>
           if String.prefix "https://coins.llama.fi/" url
           then Response true (Some (JObj [("coins", JObj [])]))
           else Response true
                  (Some (JObj [("coins",
                     JArr [JObj [("id", JStr "usd-coin");
                                 ("name", JStr "USDC");
                                 ("symbol", JStr "USDC");
                                 ("large", JStr "https://img.example/usdc.png")]])])))
        (fun _ _ => Reads (Some "USD Coin") (Some "USDC"))
        (fun _ => 120%N).


Definition start : world := mkWorld [] 0%N 0.

Fixpoint ones (n : nat) : string :=
  match n with
  | 0 => ""
  | S m => String "1" (ones m)
  end.

(** as many other addresses as the cache has room for *)
Definition crowd : list string :=
  map (fun n => "0x" ++ ones n) (seq 1 Lru.MAX).

End Sample.

(* ------------------------------------------------------------------ *)
(** ** Vocabulary of the statements *)

(** an address as the batch route produces it: not empty, no comma *)
Definition plain (a : string) : Prop := a <> "" /\ free_of "," a = true.

(** a field that is known: a string that is not empty *)
Definition present (o : option string) : bool :=
  match o with
  | Some s => negb (String.eqb s "")
  | None => false
  end.

Definition text_of (o : option string) : string :=
  match o with
  | Some s => s
  | None => ""
  end.


(** the id the formatter derives: without a name, the name defaults to
    the upper case of the lower-cased symbol before the id is computed, so
    the symbol goes through the same slugification as a name *)
Definition derived_id (name symbol : option string) (address : string)
  : string :=
  if present name then replace_spaces (toLowerCase (text_of name))
  else if present symbol
       then replace_spaces
              (toLowerCase (toUpperCase (toLowerCase (text_of symbol))))
  else toLowerCase address.

(** a character of the ASCII range *)
Definition ascii_char (c : ascii) : bool :=
  match c with
  | Ascii _ _ _ _ _ _ _ b7 => negb b7
  end.

(** a string of ASCII characters *)
Fixpoint ascii_only (s : string) : bool :=
  match s with
  | EmptyString => true
  | String c r => ascii_char c && ascii_only r
  end.

(** a response from which nothing can be read *)
Definition failed_response (r : http_response) : bool :=
  match r with
  | Rejects => true
  | Response false _ => true
  | Response true None => true
  | Response true (Some _) => false
  end.

Definition all_entries (Q : Lru.entry -> Prop) (c : Lru.store) : Prop :=
  forall e, In e c -> Q e.

(** an on-chain key holds an on-chain record *)
Definition onchain_entry_ok (e : Lru.entry) : Prop :=
  String.prefix "onchain:" (Lru.ekey e) = true ->
  exists n s, Lru.evalue e = onchain_record n s.

(** a cache in which the on-chain keys hold on-chain records *)
Definition onchain_entries_ok (c : Lru.store) : Prop :=
  all_entries onchain_entry_ok c.

(** a string or [null] *)
Definition textual (v : jsval) : Prop := v = null \/ exists s, v = str s.

(** a string whenever it is truthy *)
Definition stringy (v : jsval) : Prop :=
  truthy v = true -> exists s, v = str s.

(** a bulk payload of the expected shape: not [null], and the name and
    symbol of every token record are strings when they are there *)
Definition llama_ok (v : jsval) : Prop :=
  nullish v = false
  /\ forall key,
       stringy (get_prop_opt (get_prop_opt (get_prop_opt v "coins") key)
                             "name")
       /\ stringy (get_prop_opt (get_prop_opt (get_prop_opt v "coins") key)
                                "symbol").

(** a search result whose name is a string when it is there *)
Definition search_hit_ok (v : jsval) : Prop :=
  stringy (get_prop_opt v "name").

(** a search payload in which the names of the coins are strings *)
Definition search_body_ok (data : json) : Prop :=
  match get_prop_opt (Some data) "coins" with
  | Some (JArr l) =>
      forall c, In c l -> stringy (get_prop_opt (Some c) "name")
  | _ => True
  end.

(** upstreams whose payloads have the expected shapes *)
Definition env_ok (E : env) : Prop :=
  (forall i c l body,
      fetch E i (llama_url c l) = Response true (Some body) ->
      llama_ok (Some body))
  /\ (forall i sym body,
        fetch E i (coingecko_url sym) = Response true (Some body) ->
        search_body_ok body).

Definition entry_ok (e : Lru.entry) : Prop :=
  onchain_entry_ok e
  /\ (String.prefix "llama:" (Lru.ekey e) = true ->
      llama_ok (Some (Lru.evalue e)))
  /\ (String.prefix "cg:" (Lru.ekey e) = true ->
      search_hit_ok (Some (Lru.evalue e))).

(** a cache whose entries have the shapes the adapters store *)
Definition cache_ok (c : Lru.store) : Prop := all_entries entry_ok c.

(** a computation that returns, with [post] of its value, from every state
    whose cache is well shaped, and leaves the cache well shaped *)
Definition total {A} (m : M A) (post : A -> Prop) : Prop :=
  forall w, cache_ok (cache w) ->
    exists a w' evs,
      m w = (Ret a, w', evs) /\ cache_ok (cache w') /\ post a.

(** the same state [gap] milliseconds later *)
Definition later (w : world) (gap : N) : world :=
  mkWorld (cache w) (now w + gap)%N (calls w).

(** an upstream lookup that stored its result *)
Definition is_stored (e : event) : bool :=
  match e with
  | Fetched _ _ stored => stored
  | _ => true
  end.

Definition is_call (e : event) : bool :=
  match e with
  | Fetched _ _ _ => false
  | _ => true
  end.

(** the keys the adapters went upstream for *)
Definition fetched_keys (evs : list event) : list string :=
  flat_map (fun e => match e with Fetched _ k _ => [k] | _ => [] end) evs.

(** no entry of the cache is older than the time to live at time [D] *)
Definition fresh_until (D : N) (c : Lru.store) : Prop :=
  forall e, In e c -> (D - Lru.estart e <= Lru.TTL)%N.

(** every entry that [c] finds, [c'] finds too *)
Definition extends (c c' : Lru.store) : Prop :=
  forall k e, Lru.find k c = Some e -> Lru.find k c' = Some e.

(** The shape the three adapters share: return the cached value when the
    key is there; otherwise go upstream, and either store and return what
    came back ([inr]) or return without storing ([inl]). *)
Definition through_cache (E : env) (key : string) (call : event)
  (s : source) (upstream : nat -> outcome jsval + json) : M jsval :=
  fun w =>
    match from_cache w key with
    | Some (v, w') => (Ret v, w', [call])
    | None =>
        let w1 := tick E w in
        match upstream (calls w) with
        | inl r => (r, w1, [call; Fetched s key false])
        | inr j => (Ret (Some j), cache_set w1 key j,
                    [call; Fetched s key true])
        end
    end.

(** A computation whose second run can be served from the cache: time
    does not go back, and when every upstream lookup of a run stored its
    result, no entry expired before [D] and the capacity was not exceeded,
    the cache has only grown, every key was fetched once, and the same
    computation started at time [D] from a cache holding those entries
    gives the same outcome without going upstream. *)
Definition replayable {A} (m : M A) : Prop :=
  forall w r w' evs, m w = (r, w', evs) ->
    (now w <= now w')%N
    /\ forall D,
        Forall (fun e => is_stored e = true) evs ->
        fresh_until D (cache w) ->
        (D - now w <= Lru.TTL)%N ->
        (now w' <= D)%N ->
        length (cache w) + length (fetched_keys evs) <= Lru.MAX ->
        fresh_until D (cache w')
        /\ extends (cache w) (cache w')
        /\ length (cache w') <= length (cache w) + length (fetched_keys evs)
        /\ NoDup (fetched_keys evs)
        /\ (forall k, In k (fetched_keys evs) ->
              Lru.find k (cache w) = None /\ Lru.find k (cache w') <> None)
        /\ forall wb, now wb = D -> extends (cache w') (cache wb) ->
             exists wb',
               m wb = (r, wb', filter is_call evs)
               /\ now wb' = D
               /\ calls wb' = calls wb
               /\ extends (cache wb) (cache wb').

(** a property of the cache that a computation keeps *)
Definition preserves (P : Lru.store -> Prop) {A} (m : M A) : Prop :=
  forall w r w' evs, m w = (r, w', evs) -> P (cache w) -> P (cache w').

(** one on-chain lookup after the other *)
Fixpoint lookup_each (E : env) (addresses : list string) : M unit :=
  match addresses with
  | [] => ret tt
  | a :: rest => _ <- fetchOnChainNameSymbol E a ;; lookup_each E rest
  end.

(** a string without white space at either end *)
Definition trimmed (a : string) : Prop := trim a = a.

(** the first character, if any, is not white space *)
Definition starts_clean (s : string) : bool :=
  match s with
  | EmptyString => true
  | String c _ => negb (is_space c)
  end.

(** a string without any white space *)
Fixpoint spaceless (s : string) : bool :=
  match s with
  | EmptyString => true
  | String c r => negb (is_space c) && spaceless r
  end.

Definition is_string (v : jsval) : bool :=
  match v with
  | Some (JStr _) => true
  | _ => false
  end.

(** a truthy value that is not a string *)
Definition unusable (v : jsval) : bool := truthy v && negb (is_string v).


Definition is_onchain_call (e : event) : bool :=
  match e with CallOnChain _ => true | _ => false end.

Definition is_search_call (e : event) : bool :=
  match e with CallCoinGecko _ => true | _ => false end.

Definition count (p : event -> bool) (evs : list event) : nat :=
  length (filter p evs).


(** a cache as [lru-cache] keeps it: one entry per key, at most [max]
    entries *)
Definition cache_wf (c : Lru.store) : Prop :=
  NoDup (map Lru.ekey c) /\ length c <= Lru.MAX.

(** the three kinds of keys the adapters build *)
Definition known_prefix (k : string) : bool :=
  String.prefix "llama:" k || String.prefix "onchain:" k
  || String.prefix "cg:" k.

(** a cache that holds nothing but entries of the three adapters *)
Definition namespaced (c : Lru.store) : Prop :=
  all_entries (fun e => known_prefix (Lru.ekey e) = true) c.

(** a computation that neither creates nor alters an entry under a key it
    does not own: what the cache finds afterwards under another key, it
    found before *)
Definition writes_only (own : string -> Prop) {A} (m : M A) : Prop :=
  forall w r w' evs, m w = (r, w', evs) ->
    forall k e,
      Lru.find k (cache w') = Some e ->
      Lru.find k (cache w) = Some e \/ own k.

(** every entry of [s] is older than the time to live at time [t] *)
Definition expired (t : N) (s : Lru.store) : Prop :=
  forall e, In e s -> Lru.is_stale t e = true.

(** [w'] is [w] with expired entries behind the entries of [w], as far as
    the capacity allows *)
Definition shadows (w w' : world) : Prop :=
  now w' = now w /\ calls w' = calls w
  /\ length (cache w) <= Lru.MAX
  /\ exists s, expired (now w) s
               /\ cache w' = firstn Lru.MAX (cache w ++ s)%list.

(** a computation on which expired entries have no influence *)
Definition oblivious {A} (m : M A) : Prop :=
  forall w1 w2 r w1' evs,
    shadows w1 w2 -> m w1 = (r, w1', evs) ->
    exists w2', m w2 = (r, w2', evs) /\ shadows w1' w2'.

(** a computation that throws nothing but TypeError *)
Definition only_type_errors {A} (m : M A) : Prop :=
  forall w e w' evs, m w = (Throw e, w', evs) -> e = TypeError.

(** of an outcome: the same *)
Definition type_error_only {A} (o : outcome A) : Prop :=
  forall e, o = Throw e -> e = TypeError.

(** an outage: no HTTP request gives a body, no contract read a name or a
    symbol *)
Definition outage (E : env) : Prop :=
  (forall i url, failed_response (fetch E i url) = true)
  /\ (forall i a,
        match contract E i a with
        | Unavailable => True
        | Reads n s => present n = false /\ present s = false
        end).

(** a cache that only holds on-chain records without name and symbol *)
Definition holds_nothing (c : Lru.store) : Prop :=
  all_entries
    (fun e => String.prefix "onchain:" (Lru.ekey e) = true
              /\ exists n s, Lru.evalue e = onchain_record n s
                             /\ present n = false /\ present s = false) c.

(** the record of an address nothing is known about *)
Definition unknown_token (E : env) (address : string) : TokenRecord :=
  mkToken (toLowerCase address) null null null
          (normalizeAddress E (toLowerCase address)).

(* ================================================================== *)
(** * Properties *)

(** ** Strings *)

Lemma lower_upper_ascii (c : ascii) :
  ascii_char c = true -> lower_ascii (upper_ascii c) = lower_ascii c.
Proof.
  destruct c as [[] [] [] [] [] [] [] []]; intros H;
    try discriminate H; reflexivity.
Qed.

Lemma lower_lower_ascii (c : ascii) :
  lower_ascii (lower_ascii c) = lower_ascii c.
Proof. destruct c as [[] [] [] [] [] [] [] []]; reflexivity. Qed.

(** lower-casing undoes upper-casing, on ASCII strings *)
Lemma toLowerCase_toUpperCase (s : string) :
  ascii_only s = true -> toLowerCase (toUpperCase s) = toLowerCase s.
Proof.
  unfold toLowerCase, toUpperCase.
  induction s as [|c r IH]; cbn [ascii_only map_string]; [reflexivity|].
  intros H. apply andb_prop in H as [Hc Hr].
  now rewrite (lower_upper_ascii c Hc), (IH Hr).
Qed.

Lemma toLowerCase_idem (s : string) :
  toLowerCase (toLowerCase s) = toLowerCase s.
Proof.
  unfold toLowerCase.
  induction s as [|c r IH]; simpl; [reflexivity|].
  now rewrite lower_lower_ascii, IH.
Qed.

Lemma map_string_empty (f : ascii -> ascii) (s : string) :
  String.eqb (map_string f s) "" = String.eqb s "".
Proof. destruct s; reflexivity. Qed.

Lemma toLowerCase_empty (s : string) :
  String.eqb (toLowerCase s) "" = String.eqb s "".
Proof. apply map_string_empty. Qed.

Lemma toUpperCase_empty (s : string) :
  String.eqb (toUpperCase s) "" = String.eqb s "".
Proof. apply map_string_empty. Qed.

Lemma append_cancel (p a b : string) : p ++ a = p ++ b -> a = b.
Proof.
  induction p as [|c r IH]; simpl; intros H; [exact H|].
  injection H as H. auto.
Qed.

Lemma comma_free_not_split (x y r : string) :
  free_of "," x = true -> x = y ++ String "," r -> False.
Proof.
  revert y. induction x as [|c x IH]; intros y F H.
  - destruct y; discriminate.
  - destruct y as [|d y]; simpl in *.
    + injection H as Hc _. subst c. simpl in F. discriminate.
    + injection H as _ H. apply andb_prop in F as [_ F]. eauto.
Qed.

Lemma comma_split_unique (x y r1 r2 : string) :
  free_of "," x = true -> free_of "," y = true ->
  x ++ String "," r1 = y ++ String "," r2 -> x = y /\ r1 = r2.
Proof.
  revert y. induction x as [|c x IH]; intros y Fx Fy H.
  - destruct y as [|d y]; simpl in *.
    + injection H as H. auto.
    + injection H as Hd _. subst d. simpl in Fy. discriminate.
  - destruct y as [|d y]; simpl in *.
    + injection H as Hc _. subst c. simpl in Fx. discriminate.
    + injection H as Hc H. subst d.
      apply andb_prop in Fx as [_ Fx]. apply andb_prop in Fy as [_ Fy].
      destruct (IH y Fx Fy H) as [-> ->]. auto.
Qed.

Lemma join_nonempty (x : string) (r : list string) :
  x <> "" -> join "," (x :: r) <> "".
Proof.
  intros Hx H. destruct r; simpl in H; [auto|].
  destruct x; [auto | discriminate].
Qed.

Lemma join_comma_inj (l1 l2 : list string) :
  Forall plain l1 -> Forall plain l2 ->
  join "," l1 = join "," l2 -> l1 = l2.
Proof.
  revert l2. induction l1 as [|x r1 IH]; intros l2 F1 F2 H.
  - destruct l2 as [|y r2]; [reflexivity|].
    inversion F2 as [|? ? [Hy _] _]; subst.
    symmetry in H. now apply join_nonempty in H.
  - destruct l2 as [|y r2].
    + inversion F1 as [|? ? [Hx _] _]; subst. now apply join_nonempty in H.
    + inversion F1 as [|? ? [Hx Cx] F1']; subst.
      inversion F2 as [|? ? [Hy Cy] F2']; subst.
      destruct r1 as [|x2 r1], r2 as [|y2 r2].
      * simpl in H. now subst.
      * exfalso. change (x = y ++ String "," (join "," (y2 :: r2))) in H.
        eapply comma_free_not_split; [exact Cx | exact H].
      * exfalso. change (x ++ String "," (join "," (x2 :: r1)) = y) in H.
        symmetry in H. eapply comma_free_not_split; [exact Cy | exact H].
      * change (x ++ String "," (join "," (x2 :: r1))
                = y ++ String "," (join "," (y2 :: r2))) in H.
        destruct (comma_split_unique _ _ _ _ Cx Cy H) as [-> Hr].
        f_equal. apply IH; assumption.
Qed.

(* ------------------------------------------------------------------ *)
(** ** Chain resolution and address normalisation *)

Lemma resolveChainSlug_absent :
  resolveChainSlug None = SlugStr "ethereum"
  /\ resolveChainSlug (Some "") = SlugStr "ethereum".
Proof. split; reflexivity. Qed.

Lemma resolveChainSlug_alias (c v : string) :
  c <> "" -> assoc (toLowerCase c) CHAIN_MAP = Some v ->
  resolveChainSlug (Some c) = SlugStr v.
Proof.
  intros Hc Hv. unfold resolveChainSlug, chain_map_get.
  apply String.eqb_neq in Hc. now rewrite Hc, Hv.
Qed.

Lemma resolveChainSlug_unknown (c : string) :
  c <> "" -> assoc (toLowerCase c) CHAIN_MAP = None ->
  toLowerCase c <> "constructor" -> toLowerCase c <> "__proto__" ->
  resolveChainSlug (Some c) = SlugStr (toLowerCase c).
Proof.
  intros Hc Hv H1 H2. unfold resolveChainSlug, chain_map_get.
  apply String.eqb_neq in Hc, H1, H2. now rewrite Hc, Hv, H1, H2.
Qed.

Example resolveChainSlug_137 :
  resolveChainSlug (Some "137") = SlugStr "polygon".
Proof. reflexivity. Qed.

Example resolveChainSlug_999999 :
  resolveChainSlug (Some "999999") = SlugStr "999999".
Proof. reflexivity. Qed.

Example resolveChainSlug_mixed_case :
  resolveChainSlug (Some "Polygon") = SlugStr "polygon".
Proof. reflexivity. Qed.

(** C8: at the chain identifiers [constructor] and [__proto__], which are
    not in the alias table, [resolveChainSlug] does not return the input
    lower-cased: [CHAIN_MAP[key]] finds the property inherited from
    [Object.prototype] and that object is returned. *)
Theorem C8_inherited_property_returned :
  assoc "constructor" CHAIN_MAP = None
  /\ resolveChainSlug (Some "constructor") = SlugObjectConstructor
  /\ resolveChainSlug (Some "constructor") <> SlugStr "constructor"
  /\ resolveChainSlug (Some "__PROTO__") = SlugObjectPrototype.
Proof. repeat split; try reflexivity. discriminate. Qed.

(** C9: [normalizeAddress] is total on strings; it returns the checksummed
    form whenever [ethers.getAddress] accepts the string, and the string
    lower-cased whenever [ethers.getAddress] throws. *)
Theorem C9_normalizeAddress (E : env) (addr : string) :
  (forall checksummed, getAddress E addr = Some checksummed ->
     normalizeAddress E addr = checksummed)
  /\ (getAddress E addr = None ->
      normalizeAddress E addr = toLowerCase addr).
Proof.
  unfold normalizeAddress. split.
  - intros c H. now rewrite H.
  - intros H. now rewrite H.
Qed.

(** the statement above at a well-formed and at a malformed address *)
Lemma C9_witness :
  normalizeAddress Sample.down Sample.usdc = Sample.usdc_checksummed
  /\ normalizeAddress Sample.down "Not-An-Address" = "not-an-address".
Proof.
  split.
  - apply (proj1 (C9_normalizeAddress Sample.down Sample.usdc)). reflexivity.
  - apply (proj2 (C9_normalizeAddress Sample.down "Not-An-Address")).
    reflexivity.
Defined.

(* ------------------------------------------------------------------ *)
(** ** The bulk cache key *)

(** the same two addresses in two orders get two different keys *)
Lemma C4_counterexample :
  Permutation [Sample.usdc; Sample.dai] [Sample.dai; Sample.usdc]
  /\ llama_key (SlugStr "ethereum") [Sample.usdc; Sample.dai]
     <> llama_key (SlugStr "ethereum") [Sample.dai; Sample.usdc].
Proof.
  split; [apply perm_swap|].
  apply String.eqb_neq. reflexivity.
Qed.

Lemma handleBatch_calls_llama (E : env) (addresses : list string)
  (chainInput : option string) (w : world) :
  exists out w' evs,
    handleBatch E addresses chainInput w
    = (out, w',
       CallLlama (resolveChainSlug chainInput) (map toLowerCase addresses)
       :: evs).
Proof.
  unfold handleBatch, bind, try_catch, fetchFromDefiLlama.
  destruct (from_cache w _) as [[v w']|].
  - destruct (resolve_all _ _ _ _ _ _) as [[out w2] ev2]. simpl. eauto.
  - destruct (fetch E _ _) as [|[|] [j|]];
      destruct (resolve_all _ _ _ _ _ _) as [[out w2] ev2]; simpl; eauto.
Qed.

(** C4 (amended): the bulk cache key is [llama:], the chain slug, a colon
    and the lower-cased addresses joined by commas in the order of the
    batch; nothing is sorted.  For addresses that are not empty and hold
    no comma, two batches on one chain get the same key exactly when they
    list the same addresses in the same order. *)
Theorem C4_llama_key_in_batch_order (E : env) (chainSlug : slug)
  (l1 l2 : list string) :
  llama_key chainSlug l1 = "llama:" ++ slug_text chainSlug ++ ":" ++ join "," l1
  /\ (forall addresses chainInput w, exists out w' evs,
        handleBatch E addresses chainInput w
        = (out, w',
           CallLlama (resolveChainSlug chainInput)
                     (map toLowerCase addresses) :: evs))
  /\ (Forall plain l1 -> Forall plain l2 ->
      (llama_key chainSlug l1 = llama_key chainSlug l2 <-> l1 = l2)).
Proof.
  split; [reflexivity|]. split; [apply handleBatch_calls_llama|].
  intros F1 F2. split; [|now intros ->].
  unfold llama_key. intros H.
  apply append_cancel in H. apply append_cancel in H.
  apply append_cancel in H. now apply join_comma_inj.
Qed.

(** the statement above at two orders of the same two addresses *)
Lemma C4_witness :
  llama_key (SlugStr "ethereum") [Sample.usdc; Sample.dai]
  = llama_key (SlugStr "ethereum") [Sample.dai; Sample.usdc]
  <-> [Sample.usdc; Sample.dai] = [Sample.dai; Sample.usdc].
Proof.
  apply (C4_llama_key_in_batch_order Sample.down (SlugStr "ethereum")
           [Sample.usdc; Sample.dai] [Sample.dai; Sample.usdc]);
    repeat constructor; discriminate.
Defined.

(* ------------------------------------------------------------------ *)
(** ** The formatter *)


Lemma formatTokenOutput_id (E : env) (name symbol : option string)
  (imageUrl : jsval) (address : string) :
  exists r,
    formatTokenOutput E (of_opt name) (of_opt symbol) imageUrl address = Ret r
    /\ id r = derived_id name symbol address.
Proof.
  unfold formatTokenOutput, derived_id, present, text_of, or_else, of_opt,
    str, null.
  destruct name as [n|], symbol as [s|]; simpl;
    try destruct (String.eqb n "") eqn:Hn;
    try destruct (String.eqb s "") eqn:Hs; simpl;
    repeat (rewrite ?toLowerCase_empty, ?toUpperCase_empty, ?Hn, ?Hs; simpl);
    eauto.
Qed.





(* ------------------------------------------------------------------ *)
(** ** The cache *)

Lemma find_key (k : string) (c : Lru.store) (e : Lru.entry) :
  Lru.find k c = Some e -> Lru.ekey e = k.
Proof.
  induction c as [|x c IH]; simpl; [discriminate|].
  destruct (String.eqb (Lru.ekey x) k) eqn:Hk.
  - intros [= <-]. now apply String.eqb_eq.
  - exact IH.
Qed.

Lemma find_in (k : string) (c : Lru.store) (e : Lru.entry) :
  Lru.find k c = Some e -> In e c.
Proof.
  induction c as [|x c IH]; simpl; [discriminate|].
  destruct (String.eqb (Lru.ekey x) k).
  - intros [= <-]. now left.
  - intros H. right. auto.
Qed.

Lemma remove_absent (k : string) (c : Lru.store) :
  Lru.find k c = None -> Lru.remove k c = c.
Proof.
  induction c as [|x c IH]; simpl; [reflexivity|].
  destruct (String.eqb (Lru.ekey x) k); simpl; [discriminate|].
  intros H. now rewrite IH.
Qed.

Lemma find_remove_same (k : string) (c : Lru.store) :
  Lru.find k (Lru.remove k c) = None.
Proof.
  induction c as [|x c IH]; simpl; [reflexivity|].
  destruct (String.eqb (Lru.ekey x) k) eqn:Hk; simpl; [exact IH|].
  now rewrite Hk.
Qed.

Lemma find_remove_other (k k' : string) (c : Lru.store) :
  k' <> k -> Lru.find k' (Lru.remove k c) = Lru.find k' c.
Proof.
  intros Hne. induction c as [|x c IH]; simpl; [reflexivity|].
  destruct (String.eqb (Lru.ekey x) k) eqn:Hk; simpl.
  - apply String.eqb_eq in Hk.
    destruct (String.eqb (Lru.ekey x) k') eqn:Hk'; [|exact IH].
    apply String.eqb_eq in Hk'. congruence.
  - now rewrite IH.
Qed.

Lemma length_remove (k : string) (c : Lru.store) :
  length (Lru.remove k c) <= length c.
Proof. apply filter_length_le. Qed.

(** moving an entry to the front changes no lookup *)
Lemma find_touch (k k' : string) (c : Lru.store) (e : Lru.entry) :
  Lru.find k c = Some e ->
  Lru.find k' (e :: Lru.remove k c) = Lru.find k' c.
Proof.
  intros H. pose proof (find_key _ _ _ H) as Hk. simpl. rewrite Hk.
  destruct (String.eqb k k') eqn:Hkk.
  - apply String.eqb_eq in Hkk. now subst k'.
  - apply String.eqb_neq in Hkk. apply find_remove_other. congruence.
Qed.

Lemma from_cache_some (w w' : world) (k : string) (v : jsval) :
  from_cache w k = Some (v, w') ->
  exists e, Lru.find k (cache w) = Some e
            /\ Lru.is_stale (now w) e = false
            /\ v = Some (Lru.evalue e)
            /\ w' = with_cache w (e :: Lru.remove k (cache w)).
Proof.
  unfold from_cache, Lru.has, Lru.get.
  destruct (Lru.find k (cache w)) as [e|]; [|discriminate].
  destruct (Lru.is_stale (now w) e) eqn:S; simpl; [discriminate|].
  intros [= <- <-]. exists e. auto.
Qed.

Lemma from_cache_hit (w : world) (k : string) (e : Lru.entry) :
  Lru.find k (cache w) = Some e -> Lru.is_stale (now w) e = false ->
  from_cache w k
  = Some (Some (Lru.evalue e), with_cache w (e :: Lru.remove k (cache w))).
Proof.
  intros H S. unfold from_cache, Lru.has, Lru.get. now rewrite H, S.
Qed.

Lemma from_cache_absent (w : world) (k : string) :
  Lru.find k (cache w) = None -> from_cache w k = None.
Proof. intros H. unfold from_cache, Lru.has. now rewrite H. Qed.

Lemma find_set_same (t : N) (k : string) (v : json) (c : Lru.store) :
  Lru.find k (Lru.set t k v c) = Some (Lru.mkEntry k v t).
Proof. unfold Lru.set. simpl. now rewrite String.eqb_refl. Qed.

(* ------------------------------------------------------------------ *)
(** ** The source adapters *)

(** the bulk adapter throws when the request rejects *)
Lemma C1_counterexample :
  exists w' evs,
    fetchFromDefiLlama Sample.down (SlugStr "ethereum") [Sample.usdc]
                       Sample.start
    = (Throw FetchError, w', evs).
Proof. do 2 eexists. reflexivity. Qed.

Lemma fetchOnChainNameSymbol_returns (E : env) (address : string) (w : world) :
  exists v w' evs,
    fetchOnChainNameSymbol E address w = (Ret v, w', evs).
Proof.
  unfold fetchOnChainNameSymbol.
  destruct (from_cache w _) as [[v w']|]; [eauto|].
  destruct (contract E _ _); eauto.
Qed.

Lemma fetchFromCoinGeckoBySymbol_returns (E : env) (symbol : jsval)
  (w : world) :
  exists v w' evs,
    fetchFromCoinGeckoBySymbol E symbol w = (Ret v, w', evs).
Proof.
  unfold fetchFromCoinGeckoBySymbol.
  destruct symbol as [[| | |sym| |]|]; eauto.
  destruct (from_cache w _) as [[v w']|]; [eauto|].
  destruct (fetch E _ _) as [|[|] [data|]]; eauto.
  destruct (coingecko_result sym data) as [[r|]|]; eauto.
Qed.

(** C1 (amended): the on-chain adapter and the symbol-search adapter never
    throw, whatever the network does: a miss gives the record of the two
    reads, [null] for each read that failed, respectively [null] when the
    request rejects, the status is not a success or the body does not
    parse.  The bulk adapter has no handler of its own: on a miss it
    returns the empty mapping for a non-success status, and throws when the
    request rejects or the body does not parse; [handleBatch] catches that
    and goes on with the empty mapping. *)
Theorem C1_failures_absorbed (E : env) (w : world) :
  (forall address, exists v w' evs,
      fetchOnChainNameSymbol E address w = (Ret v, w', evs)
      /\ (from_cache w (onchain_key address) = None ->
          v = Some (match contract E (calls w) address with
                    | Unavailable => onchain_record None None
                    | Reads n s => onchain_record n s
                    end)))
  /\ (forall symbol, exists v w' evs,
        fetchFromCoinGeckoBySymbol E symbol w = (Ret v, w', evs)
        /\ (forall sym, symbol = str sym ->
              from_cache w (coingecko_key sym) = None ->
              failed_response (fetch E (calls w) (coingecko_url sym)) = true ->
              v = null))
  /\ (forall chainSlug addresses,
        from_cache w (llama_key chainSlug addresses) = None ->
        match fetch E (calls w) (llama_url chainSlug addresses) with
        | Response false _ =>
            exists w' evs, fetchFromDefiLlama E chainSlug addresses w
                           = (Ret (Some empty_coins), w', evs)
        | Response true (Some json) =>
            exists w' evs, fetchFromDefiLlama E chainSlug addresses w
                           = (Ret (Some json), w', evs)
        | _ =>
            exists e w' evs, fetchFromDefiLlama E chainSlug addresses w
                             = (Throw e, w', evs)
        end)
  /\ (forall addresses chainInput e w1 ev1,
        fetchFromDefiLlama E (resolveChainSlug chainInput)
                           (map toLowerCase addresses) w
        = (Throw e, w1, ev1) ->
        handleBatch E addresses chainInput w
        = match resolve_all E (resolveChainSlug chainInput)
                  (Some empty_coins) (map toLowerCase addresses) [] w1 with
          | (out, w2, ev2) => (out, w2, (ev1 ++ ev2)%list)
          end).
Proof.
  repeat split.
  - intros address. unfold fetchOnChainNameSymbol.
    destruct (from_cache w _) as [[v w']|].
    + do 3 eexists. split; [reflexivity|discriminate].
    + destruct (contract E _ _); do 3 eexists; split; reflexivity || auto.
  - intros symbol. unfold fetchFromCoinGeckoBySymbol.
    destruct symbol as [[| | |sym| |]|];
      try (do 3 eexists; split; [reflexivity|discriminate]).
    destruct (from_cache w _) as [[v w']|] eqn:Hc.
    + do 3 eexists. split; [reflexivity|].
      intros sym' [= <-] H. congruence.
    + destruct (fetch E _ _) as [|[|] [data|]] eqn:Hf;
        try (do 3 eexists; split; [reflexivity|reflexivity]).
      destruct (coingecko_result sym data) as [[r|]|];
        do 3 eexists; (split; [reflexivity|]);
        intros sym' [= <-] _ F; try reflexivity.
      rewrite Hf in F. discriminate.
  - intros chainSlug addresses Hc. unfold fetchFromDefiLlama. rewrite Hc.
    destruct (fetch E _ _) as [|[|] [json|]]; eauto.
  - intros addresses chainInput e w1 ev1 H.
    unfold handleBatch, bind, try_catch. now rewrite H.
Qed.

(** the statement above at upstreams that answer with a non-success status,
    and at upstreams that are down *)
Lemma C1_witness :
  (exists v w' evs,
      fetchFromCoinGeckoBySymbol Sample.unavailable (str "USDC") Sample.start
      = (Ret v, w', evs) /\ v = null)
  /\ (exists w' evs,
        fetchFromDefiLlama Sample.unavailable (SlugStr "ethereum")
                           [Sample.usdc] Sample.start
        = (Ret (Some empty_coins), w', evs))
  /\ (exists out w' evs,
        handleBatch Sample.down [Sample.usdc] None Sample.start
        = (Ret out, w', evs) /\ length out = 1).
Proof.
  split; [|split].
  - destruct (C1_failures_absorbed Sample.unavailable Sample.start)
      as (_ & H & _).
    destruct (H (str "USDC")) as (v & w' & evs & Hr & Hv).
    exists v, w', evs. split; [exact Hr|].
    apply (Hv "USDC"); reflexivity.
  - destruct (C1_failures_absorbed Sample.unavailable Sample.start)
      as (_ & _ & H & _).
    apply (H (SlugStr "ethereum") [Sample.usdc]). reflexivity.
  - destruct (C1_failures_absorbed Sample.down Sample.start)
      as (_ & _ & _ & H).
    rewrite (H [Sample.usdc] None FetchError
               (tick Sample.down Sample.start)
               [CallLlama (SlugStr "ethereum") [Sample.usdc];
                Fetched Llama (llama_key (SlugStr "ethereum") [Sample.usdc])
                        false]); [|reflexivity].
    do 3 eexists. split; reflexivity.
Defined.

(* ------------------------------------------------------------------ *)
(** ** The on-chain step of the orchestrator *)





Lemma prefix_append (p s : string) : String.prefix p (p ++ s) = true.
Proof.
  induction p as [|c p IH]; simpl; [now destruct s|].
  destruct (ascii_dec c c); [exact IH|congruence].
Qed.

Lemma fetchOnChainNameSymbol_record (E : env) (address : string) (w : world) :
  onchain_entries_ok (cache w) ->
  exists n s w' evs,
    fetchOnChainNameSymbol E address w
    = (Ret (Some (onchain_record n s)), w', CallOnChain address :: evs)
    /\ Forall (fun e => exists k b, e = Fetched OnChain k b) evs.
Proof.
  intros OK. unfold fetchOnChainNameSymbol.
  destruct (from_cache w _) as [[v w']|] eqn:Hc.
  - apply from_cache_some in Hc as (e & Hf & _ & -> & _).
    destruct (OK e) as (n & s & Hv).
    + eapply find_in; eauto.
    + rewrite (find_key _ _ _ Hf). apply prefix_append.
    + rewrite Hv. exists n, s. eauto.
  - destruct (contract E _ _) as [|n s].
    + exists None, None. do 2 eexists. split; [reflexivity|].
      repeat constructor. eauto.
    + exists n, s. do 2 eexists. split; [reflexivity|].
      repeat constructor. eauto.
Qed.

Lemma fill_onchain_name (current : jsval) (n s : option string) :
  fill current (Some (onchain_record n s)) "name"
  = Ret (if truthy current then current
         else if present n then of_opt n else current).
Proof.
  unfold fill. destruct (truthy current); [reflexivity|].
  destruct n as [n|]; simpl; [|reflexivity].
  now destruct (String.eqb n "").
Qed.

Lemma fill_onchain_symbol (current : jsval) (n s : option string) :
  fill current (Some (onchain_record n s)) "symbol"
  = Ret (if truthy current then current
         else if present s then of_opt s else current).
Proof.
  unfold fill. destruct (truthy current); [reflexivity|].
  destruct s as [s|]; simpl; [|reflexivity].
  now destruct (String.eqb s "").
Qed.

Lemma fetchFromCoinGeckoBySymbol_events (E : env) (symbol : jsval)
  (w w' : world) (r : outcome jsval) (evs : list event) :
  fetchFromCoinGeckoBySymbol E symbol w = (r, w', evs) ->
  exists rest, evs = CallCoinGecko symbol :: rest
               /\ Forall (fun e => exists k b, e = Fetched CoinGecko k b) rest.
Proof.
  unfold fetchFromCoinGeckoBySymbol.
  destruct symbol as [[| | |sym| |]|];
    try (intros [= <- <- <-]; eexists; split; [reflexivity|constructor]).
  destruct (from_cache w _) as [[v w1]|].
  - intros [= <- <- <-]. eexists; split; [reflexivity|constructor].
  - destruct (fetch E _ _) as [|[|] [data|]];
      try (intros [= <- <- <-]; eexists; split;
           [reflexivity|repeat constructor; eauto]).
    destruct (coingecko_result sym data) as [[res|]|];
      intros [= <- <- <-]; eexists; split;
      try reflexivity; repeat constructor; eauto.
Qed.

Lemma coingecko_step_no_onchain_call (E : env) (name symbol image : jsval)
  (w w' : world) (r : outcome (jsval * jsval)) (evs : list event)
  (addr : string) :
  coingecko_step E name symbol image w = (r, w', evs) ->
  ~ In (CallOnChain addr) evs.
Proof.
  unfold coingecko_step.
  destruct (negb (truthy image) && truthy symbol).
  - unfold bind.
    destruct (fetchFromCoinGeckoBySymbol E symbol w) as [[r1 w1] ev1] eqn:Hf.
    apply fetchFromCoinGeckoBySymbol_events in Hf as (rest & -> & Hrest).
    assert (Hno : ~ In (CallOnChain addr) (CallCoinGecko symbol :: rest)).
    { intros [H|H]; [discriminate|].
      rewrite Forall_forall in Hrest.
      destruct (Hrest _ H) as (k & b & Hk). discriminate. }
    destruct r1 as [cgData|e].
    + unfold lift, ret.
      destruct (if truthy cgData then _ else _) as [image'|e];
        intros [= <- <- <-]; rewrite ?app_nil_r; exact Hno.
    + intros [= <- <- <-]. exact Hno.
  - intros [= <- <- <-]. auto.
Qed.


(* ------------------------------------------------------------------ *)
(** ** Replaying a run from the cache *)

Lemma extends_refl (c : Lru.store) : extends c c.
Proof. intros k e H. exact H. Qed.

Lemma extends_trans (a b c : Lru.store) :
  extends a b -> extends b c -> extends a c.
Proof. intros H1 H2 k e H. auto. Qed.

Lemma extends_touch (k : string) (c : Lru.store) (e : Lru.entry) :
  Lru.find k c = Some e -> extends c (e :: Lru.remove k c).
Proof. intros H k' e' H'. now rewrite (find_touch k k' c e H). Qed.

Lemma extends_cons (c : Lru.store) (e : Lru.entry) :
  Lru.find (Lru.ekey e) c = None -> extends c (e :: c).
Proof.
  intros H k x Hx. simpl.
  destruct (String.eqb (Lru.ekey e) k) eqn:Hk; [|exact Hx].
  apply String.eqb_eq in Hk. congruence.
Qed.

Lemma not_stale (D t : N) (e : Lru.entry) :
  (D - Lru.estart e <= Lru.TTL)%N -> (t <= D)%N -> Lru.is_stale t e = false.
Proof. intros H1 H2. unfold Lru.is_stale. apply N.ltb_ge. lia. Qed.

Lemma from_cache_none_fresh (D : N) (w : world) (k : string) :
  fresh_until D (cache w) -> (now w <= D)%N ->
  from_cache w k = None -> Lru.find k (cache w) = None.
Proof.
  intros F Hn. unfold from_cache, Lru.has, Lru.get.
  destruct (Lru.find k (cache w)) as [e|] eqn:Hf; [|reflexivity].
  rewrite (not_stale D (now w) e); [discriminate| |exact Hn].
  apply F. eapply find_in; eauto.
Qed.

Lemma remove_shrinks (k : string) (c : Lru.store) (e : Lru.entry) :
  Lru.find k c = Some e -> S (length (Lru.remove k c)) <= length c.
Proof.
  induction c as [|x c IH]; simpl; [discriminate|].
  destruct (String.eqb (Lru.ekey x) k) eqn:Hk; simpl.
  - intros _. pose proof (length_remove k c). lia.
  - intros H. apply IH in H. lia.
Qed.

Lemma fresh_until_touch (D : N) (k : string) (c : Lru.store) (e : Lru.entry) :
  fresh_until D c -> Lru.find k c = Some e ->
  fresh_until D (e :: Lru.remove k c).
Proof.
  intros F Hf x [<-|Hx].
  - apply F. eapply find_in; eauto.
  - apply F. unfold Lru.remove in Hx. apply filter_In in Hx. tauto.
Qed.

Lemma fetched_keys_app (a b : list event) :
  fetched_keys (a ++ b) = (fetched_keys a ++ fetched_keys b)%list.
Proof. apply flat_map_app. Qed.

Lemma replayable_ext {A} (m m' : M A) :
  (forall w, m w = m' w) -> replayable m' -> replayable m.
Proof.
  intros Heq Hm w r w' evs H. rewrite Heq in H.
  destruct (Hm w r w' evs H) as [H1 H2]. split; [exact H1|].
  intros D S F T N L.
  destruct (H2 D S F T N L) as (P1 & P2 & P3 & P4 & P5 & P6).
  repeat (split; [assumption|]).
  intros wb Hb Hx. rewrite Heq. auto.
Qed.

Lemma replayable_lift {A} (o : outcome A) : replayable (lift o).
Proof.
  intros w r w' evs [= <- <- <-]. split; [lia|].
  intros D _ F _ _ _. simpl.
  repeat split; auto using extends_refl; try lia; try constructor;
    try contradiction.
  intros wb Hb Hx. exists wb. repeat split; auto using extends_refl.
Qed.

Lemma replayable_ret {A} (a : A) : replayable (ret a).
Proof. apply (replayable_lift (Ret a)). Qed.

Lemma replayable_bind {A B} (m : M A) (k : A -> M B) :
  replayable m -> (forall a, replayable (k a)) -> replayable (bind m k).
Proof.
  intros Hm Hk w r w' evs. unfold bind.
  destruct (m w) as [[r1 w1] ev1] eqn:Em.
  destruct (Hm w r1 w1 ev1 Em) as [M1 M2].
  destruct r1 as [a|e].
  - destruct (k a w1) as [[r2 w2] ev2] eqn:Ek.
    intros [= <- <- <-].
    destruct (Hk a w1 r2 w2 ev2 Ek) as [K1 K2].
    split; [lia|].
    intros D S F T N L.
    apply Forall_app in S as [S1 S2].
    rewrite fetched_keys_app, length_app in L.
    destruct (M2 D S1 F T ltac:(lia) ltac:(lia))
      as (P1 & P2 & P3 & P4 & P5 & P6).
    destruct (K2 D S2 P1 ltac:(lia) N ltac:(lia))
      as (Q1 & Q2 & Q3 & Q4 & Q5 & Q6).
    rewrite fetched_keys_app, length_app.
    split; [exact Q1|].
    split; [eauto using extends_trans|].
    split; [lia|].
    split.
    { apply NoDup_app; [assumption|assumption|].
      intros key H1 H2.
      destruct (P5 key H1) as [_ X]. destruct (Q5 key H2) as [Y _].
      contradiction. }
    split.
    { intros key Hin. apply in_app_or in Hin as [Hin|Hin].
      - destruct (P5 key Hin) as [X Y]. split; [exact X|].
        destruct (Lru.find key (cache w1)) as [e|] eqn:He; [|congruence].
        rewrite (Q2 key e He). discriminate.
      - destruct (Q5 key Hin) as [X Y]. split; [|exact Y].
        destruct (Lru.find key (cache w)) as [e|] eqn:He; [|reflexivity].
        rewrite (P2 key e He) in X. discriminate. }
    intros wb Hb Hx.
    destruct (P6 wb Hb (extends_trans _ _ _ Q2 Hx))
      as (wb1 & R1 & R2 & R3 & R4).
    destruct (Q6 wb1 R2 (extends_trans _ _ _ Hx R4))
      as (wb2 & T1 & T2 & T3 & T4).
    exists wb2. rewrite R1, T1, filter_app.
    repeat split; [assumption|congruence|eauto using extends_trans].
  - intros [= <- <- <-]. split; [exact M1|].
    intros D S F T N L.
    destruct (M2 D S F T N L) as (P1 & P2 & P3 & P4 & P5 & P6).
    repeat (split; [assumption|]).
    intros wb Hb Hx. destruct (P6 wb Hb Hx) as (wb1 & R1 & R2 & R3 & R4).
    exists wb1. rewrite R1. auto.
Qed.

Lemma replayable_try_catch {A} (m : M A) (otherwise : exn -> A) :
  replayable m -> replayable (try_catch m otherwise).
Proof.
  intros Hm w r w' evs. unfold try_catch.
  destruct (m w) as [[r1 w1] ev1] eqn:Em.
  destruct (Hm w r1 w1 ev1 Em) as [M1 M2].
  destruct r1 as [a|e]; intros [= <- <- <-]; (split; [exact M1|]);
    intros D S F T N L;
    destruct (M2 D S F T N L) as (P1 & P2 & P3 & P4 & P5 & P6);
    (repeat (split; [assumption|]));
    intros wb Hb Hx; destruct (P6 wb Hb Hx) as (wb1 & R1 & R2 & R3 & R4);
    exists wb1; rewrite R1; auto.
Qed.

Lemma set_new (t : N) (k : string) (v : json) (c : Lru.store) :
  Lru.find k c = None -> S (length c) <= Lru.MAX ->
  Lru.set t k v c = Lru.mkEntry k v t :: c.
Proof.
  intros Hf Hl. unfold Lru.set. rewrite (remove_absent k c Hf).
  apply firstn_all2. simpl. lia.
Qed.

Lemma replayable_through_cache (E : env) (key : string) (call : event)
  (s : source) (upstream : nat -> outcome jsval + json) :
  is_call call = true ->
  replayable (through_cache E key call s upstream).
Proof.
  intros Hcall w r w' evs. unfold through_cache.
  destruct (from_cache w key) as [[v wh]|] eqn:Hc.
  - (* served from the cache *)
    apply from_cache_some in Hc as (e & Hf & Hs & -> & ->).
    intros [= <- <- <-]. simpl. split; [lia|].
    intros D _ F T N L.
    split; [now apply fresh_until_touch|].
    split; [now apply extends_touch|].
    split; [pose proof (remove_shrinks key (cache w) e Hf); simpl; lia|].
    split; [destruct call; simpl; try discriminate; constructor|].
    split; [destruct call; simpl; try discriminate; contradiction|].
    intros wb Hb Hx.
    assert (Hfb : Lru.find key (cache wb) = Some e).
    { apply Hx. rewrite (find_touch key key (cache w) e Hf). exact Hf. }
    assert (Hsb : Lru.is_stale (now wb) e = false).
    { apply (not_stale D); [|lia]. apply F. eapply find_in; eauto. }
    rewrite (from_cache_hit wb key e Hfb Hsb). simpl. rewrite Hcall.
    eexists. split; [reflexivity|]. simpl.
    repeat split; auto using extends_touch.
  - destruct (upstream (calls w)) as [r0|j]; intros [= <- <- <-];
      (split; [simpl; lia|]); intros D S F T N L.
    + (* not stored *)
      inversion S as [|? ? _ S']; subst. inversion S' as [|? ? X _]; subst.
      discriminate X.
    + (* stored *)
      cbn [tick cache_set with_cache now] in N.
      assert (Hf : Lru.find key (cache w) = None).
      { apply (from_cache_none_fresh D); [exact F|lia|exact Hc]. }
      assert (Hk : fetched_keys [call; Fetched s key true] = [key]).
      { destruct call; simpl; try discriminate; reflexivity. }
      rewrite Hk in *. simpl in L, N.
      unfold cache_set, with_cache, tick. cbn [cache now calls].
      rewrite (set_new _ key j (cache w) Hf) by lia.
      split.
      { intros x [<-|Hx]; [simpl; lia|auto]. }
      split; [now apply extends_cons|].
      split; [simpl; lia|].
      split; [repeat constructor; intros []|].
      split.
      { intros k [<-|[]]. split; [exact Hf|].
        simpl. rewrite String.eqb_refl. discriminate. }
      intros wb Hb Hx.
      set (e := Lru.mkEntry key j (now w + latency E (calls w))).
      assert (Hfb : Lru.find key (cache wb) = Some e).
      { apply Hx. simpl. now rewrite String.eqb_refl. }
      assert (Hsb : Lru.is_stale (now wb) e = false).
      { apply (not_stale D); [simpl; lia|lia]. }
      rewrite (from_cache_hit wb key e Hfb Hsb). simpl. rewrite Hcall.
      eexists. split; [reflexivity|]. simpl.
      repeat split; auto using extends_touch.
Qed.

Lemma fetchOnChainNameSymbol_through_cache (E : env) (address : string)
  (w : world) :
  fetchOnChainNameSymbol E address w
  = through_cache E (onchain_key address) (CallOnChain address) OnChain
      (fun i => match contract E i address with
                | Unavailable => inl (Ret (Some (onchain_record None None)))
                | Reads n s => inr (onchain_record n s)
                end) w.
Proof.
  unfold fetchOnChainNameSymbol, through_cache.
  destruct (from_cache w _) as [[v w']|]; [reflexivity|].
  now destruct (contract E _ _).
Qed.

Lemma fetchFromDefiLlama_through_cache (E : env) (chainSlug : slug)
  (addresses : list string) (w : world) :
  fetchFromDefiLlama E chainSlug addresses w
  = through_cache E (llama_key chainSlug addresses)
      (CallLlama chainSlug addresses) Llama
      (fun i => match fetch E i (llama_url chainSlug addresses) with
                | Rejects => inl (Throw FetchError)
                | Response false _ => inl (Ret (Some empty_coins))
                | Response true None => inl (Throw SyntaxError)
                | Response true (Some json) => inr json
                end) w.
Proof.
  unfold fetchFromDefiLlama, through_cache.
  destruct (from_cache w _) as [[v w']|]; [reflexivity|].
  now destruct (fetch E _ _) as [|[|] [j|]].
Qed.

Lemma fetchFromCoinGeckoBySymbol_through_cache (E : env) (sym : string)
  (w : world) :
  fetchFromCoinGeckoBySymbol E (str sym) w
  = through_cache E (coingecko_key sym) (CallCoinGecko (str sym)) CoinGecko
      (fun i => match fetch E i (coingecko_url sym) with
                | Response true (Some data) =>
                    match coingecko_result sym data with
                    | Ret (Some result) => inr result
                    | _ => inl (Ret null)
                    end
                | _ => inl (Ret null)
                end) w.
Proof.
  unfold fetchFromCoinGeckoBySymbol, through_cache, str.
  destruct (from_cache w _) as [[v w']|]; [reflexivity|].
  destruct (fetch E _ _) as [|[|] [data|]]; try reflexivity.
  now destruct (coingecko_result sym data) as [[res|]|].
Qed.

Lemma replayable_fetchOnChainNameSymbol (E : env) (address : string) :
  replayable (fetchOnChainNameSymbol E address).
Proof.
  eapply replayable_ext; [apply fetchOnChainNameSymbol_through_cache|].
  now apply replayable_through_cache.
Qed.

Lemma replayable_fetchFromDefiLlama (E : env) (chainSlug : slug)
  (addresses : list string) :
  replayable (fetchFromDefiLlama E chainSlug addresses).
Proof.
  eapply replayable_ext; [apply fetchFromDefiLlama_through_cache|].
  now apply replayable_through_cache.
Qed.

Lemma replayable_event {A} (a : A) (call : event) :
  is_call call = true ->
  replayable (fun w => (Ret a, w, [call])).
Proof.
  intros Hcall w r w' evs [= <- <- <-]. split; [lia|].
  assert (Hk : fetched_keys [call] = []).
  { destruct call; simpl; try discriminate; reflexivity. }
  intros D _ F _ _ _. rewrite Hk. simpl. rewrite Hcall.
  repeat split; auto using extends_refl; try lia; try constructor;
    try contradiction.
  intros wb Hb Hx. exists wb. repeat split; auto using extends_refl.
Qed.

Lemma replayable_fetchFromCoinGeckoBySymbol (E : env) (symbol : jsval) :
  replayable (fetchFromCoinGeckoBySymbol E symbol).
Proof.
  destruct symbol as [[| | |sym| |]|];
    try (apply (replayable_event null); reflexivity).
  eapply replayable_ext; [apply fetchFromCoinGeckoBySymbol_through_cache|].
  now apply replayable_through_cache.
Qed.

Lemma replayable_onchain_step (E : env) (addr : string) (name symbol : jsval) :
  replayable (onchain_step E addr name symbol).
Proof.
  unfold onchain_step.
  destruct (negb (truthy name) || negb (truthy symbol)).
  - apply replayable_bind; [apply replayable_fetchOnChainNameSymbol|].
    intros onchain. apply replayable_bind; [apply replayable_lift|].
    intros name'. apply replayable_bind; [apply replayable_lift|].
    intros symbol'. apply replayable_ret.
  - apply replayable_ret.
Qed.

Lemma replayable_coingecko_step (E : env) (name symbol image : jsval) :
  replayable (coingecko_step E name symbol image).
Proof.
  unfold coingecko_step.
  destruct (negb (truthy image) && truthy symbol).
  - apply replayable_bind; [apply replayable_fetchFromCoinGeckoBySymbol|].
    intros cgData. apply replayable_bind; [apply replayable_lift|].
    intros image'. apply replayable_ret.
  - apply replayable_ret.
Qed.

Lemma replayable_resolve_address (E : env) (chainSlug : slug)
  (llamaData : jsval) (addr : string) :
  replayable (resolve_address E chainSlug llamaData addr).
Proof.
  unfold resolve_address.
  apply replayable_bind; [apply replayable_lift|].
  intros [[name0 symbol0] image0].
  apply replayable_bind; [apply replayable_onchain_step|].
  intros [name1 symbol1].
  apply replayable_bind; [apply replayable_coingecko_step|].
  intros [name2 image2]. apply replayable_lift.
Qed.

Lemma replayable_resolve_all (E : env) (chainSlug : slug) (llamaData : jsval)
  (addrs : list string) (results : list TokenRecord) :
  replayable (resolve_all E chainSlug llamaData addrs results).
Proof.
  revert results. induction addrs as [|addr rest IH]; intros results; simpl.
  - apply replayable_ret.
  - apply replayable_bind; [apply replayable_resolve_address|].
    intros r. apply IH.
Qed.

Lemma replayable_handleBatch (E : env) (addresses : list string)
  (chainInput : option string) :
  replayable (handleBatch E addresses chainInput).
Proof.
  unfold handleBatch.
  apply replayable_bind.
  - apply replayable_try_catch, replayable_fetchFromDefiLlama.
  - intros llamaData. apply replayable_resolve_all.
Qed.


(* ------------------------------------------------------------------ *)
(** ** Failed on-chain reads in the cache *)

Lemma fetchOnChainNameSymbol_hit (E : env) (address : string) (w : world)
  (e : Lru.entry) :
  Lru.find (onchain_key address) (cache w) = Some e ->
  (now w - Lru.estart e <= Lru.TTL)%N ->
  fetchOnChainNameSymbol E address w
  = (Ret (Some (Lru.evalue e)),
     with_cache w (e :: Lru.remove (onchain_key address) (cache w)),
     [CallOnChain address]).
Proof.
  intros Hf Ht. unfold fetchOnChainNameSymbol.
  rewrite (from_cache_hit w _ e Hf); [reflexivity|].
  apply (not_stale (now w)); [exact Ht|lia].
Qed.

(** C10 (amended): when both on-chain reads fail on a cache miss, the
    adapter still stores the all-null record under
    [onchain:<lower-cased address>]; a later lookup of that address made
    while the cache still holds that entry, no older than the time to
    live, returns the all-null record without going upstream, and so does
    the lookup that follows immediately, at most the time to live later.
    (The cache holds 5000 entries; once that many newer ones have pushed
    the entry out, the address is looked up on chain again.) *)
Theorem C10_failed_reads_are_cached (E : env) (address : string) (w : world) :
  from_cache w (onchain_key address) = None ->
  contract E (calls w) address = Reads None None ->
  exists w1,
    fetchOnChainNameSymbol E address w
    = (Ret (Some (onchain_record None None)), w1,
       [CallOnChain address; Fetched OnChain (onchain_key address) true])
    /\ Lru.find (onchain_key address) (cache w1)
       = Some (Lru.mkEntry (onchain_key address) (onchain_record None None)
                           (now w1))
    /\ (forall E' w2 e,
          Lru.find (onchain_key address) (cache w2) = Some e ->
          Lru.evalue e = onchain_record None None ->
          (now w2 - Lru.estart e <= Lru.TTL)%N ->
          exists w3,
            fetchOnChainNameSymbol E' address w2
            = (Ret (Some (onchain_record None None)), w3,
               [CallOnChain address]))
    /\ (forall gap, (gap <= Lru.TTL)%N ->
          exists w3,
            fetchOnChainNameSymbol E address (later w1 gap)
            = (Ret (Some (onchain_record None None)), w3,
               [CallOnChain address])).
Proof.
  intros Hc Hr. unfold fetchOnChainNameSymbol at 1. rewrite Hc, Hr.
  eexists. split; [reflexivity|].
  assert (Hhit : forall E' w2 e,
    Lru.find (onchain_key address) (cache w2) = Some e ->
    Lru.evalue e = onchain_record None None ->
    (now w2 - Lru.estart e <= Lru.TTL)%N ->
    exists w3,
      fetchOnChainNameSymbol E' address w2
      = (Ret (Some (onchain_record None None)), w3, [CallOnChain address])).
  { intros E' w2 e Hf Hv Ht.
    rewrite (fetchOnChainNameSymbol_hit E' address w2 e Hf Ht), Hv. eauto. }
  split; [apply find_set_same|]. split; [exact Hhit|].
  intros gap Hg. eapply Hhit.
  - cbn [later cache cache_set with_cache]. apply find_set_same.
  - reflexivity.
  - cbn [later now cache_set with_cache tick Lru.estart]. lia.
Qed.

(** the statement above with the second lookup one minute later *)
Lemma C10_witness :
  exists w1 w3,
    fetchOnChainNameSymbol Sample.down Sample.usdc Sample.start
    = (Ret (Some (onchain_record None None)), w1,
       [CallOnChain Sample.usdc;
        Fetched OnChain (onchain_key Sample.usdc) true])
    /\ fetchOnChainNameSymbol Sample.down Sample.usdc (later w1 60000)
       = (Ret (Some (onchain_record None None)), w3,
          [CallOnChain Sample.usdc]).
Proof.
  destruct (C10_failed_reads_are_cached Sample.down Sample.usdc Sample.start)
    as (w1 & H1 & _ & _ & H3); [reflexivity|reflexivity|].
  destruct (H3 60000%N) as (w3 & H4); [vm_compute; discriminate|].
  exists w1, w3. split; assumption.
Defined.

(** *** Eviction by capacity *)

Lemma find_firstn_none (k : string) (n : nat) (c : Lru.store) :
  Lru.find k c = None -> Lru.find k (firstn n c) = None.
Proof.
  revert n. induction c as [|x c IH]; intros [|n]; simpl; auto.
  destruct (String.eqb (Lru.ekey x) k); [discriminate|auto].
Qed.

Lemma find_none_keys (k : string) (c : Lru.store) :
  ~ In k (map Lru.ekey c) -> Lru.find k c = None.
Proof.
  induction c as [|x c IH]; simpl; [reflexivity|].
  intros H. destruct (String.eqb (Lru.ekey x) k) eqn:Hk.
  - apply String.eqb_eq in Hk. tauto.
  - apply IH. tauto.
Qed.

Lemma firstn_app_firstn {A} (n : nat) (a b : list A) :
  firstn n (a ++ firstn n b) = firstn n (a ++ b).
Proof.
  rewrite !firstn_app, firstn_firstn. f_equal. f_equal. lia.
Qed.

(** the entry a failed lookup of [a] leaves at time [t] *)
Lemma lookup_each_misses (E : env) :
  (forall i a, contract E i a = Reads None None) ->
  (forall i, latency E i = 0%N) ->
  forall l w,
    NoDup (map onchain_key l) ->
    (forall a, In a l -> Lru.find (onchain_key a) (cache w) = None) ->
    length (cache w) <= Lru.MAX ->
    exists w' evs,
      lookup_each E l w = (Ret tt, w', evs)
      /\ now w' = now w
      /\ cache w'
         = firstn Lru.MAX
             (rev (map (fun a => Lru.mkEntry (onchain_key a)
                                   (onchain_record None None) (now w)) l)
              ++ cache w).
Proof.
  intros Hreads Hlat. induction l as [|a l IH]; intros w ND Habs Hlen.
  - exists w, []. split; [reflexivity|]. split; [reflexivity|].
    cbn [map rev app]. symmetry. now apply firstn_all2.
  - cbn [lookup_each]. unfold bind, fetchOnChainNameSymbol.
    rewrite (from_cache_absent w _ (Habs a (or_introl eq_refl))), Hreads.
    set (w1 := cache_set (tick E w) (onchain_key a)
                 (onchain_record None None)).
    assert (Hnow : now w1 = now w).
    { unfold w1. simpl. rewrite Hlat. lia. }
    assert (Hcache : cache w1
                     = firstn Lru.MAX
                         (Lru.mkEntry (onchain_key a)
                            (onchain_record None None) (now w) :: cache w)).
    { unfold w1, cache_set, with_cache, tick, Lru.set. cbn [cache now].
      rewrite Hlat, N.add_0_r.
      now rewrite (remove_absent _ _ (Habs a (or_introl eq_refl))). }
    inversion ND as [|? ? Hnotin ND']; subst.
    destruct (IH w1 ND') as (w' & evs & Hrun & Hn & Hc).
    + intros b Hb. rewrite Hcache. apply find_firstn_none.
      cbn [Lru.find Lru.ekey].
      destruct (String.eqb (onchain_key a) (onchain_key b)) eqn:Hk.
      * apply String.eqb_eq in Hk. exfalso. apply Hnotin. rewrite Hk.
        now apply in_map.
      * apply Habs. now right.
    + rewrite Hcache. apply firstn_le_length.
    + rewrite Hrun. do 2 eexists.
      split; [reflexivity|]. split; [congruence|].
      rewrite Hc, Hcache, Hnow, firstn_app_firstn. cbn [map rev].
      now rewrite <- app_assoc.
Qed.

Lemma toLowerCase_ones (n : nat) :
  toLowerCase (Sample.ones n) = Sample.ones n.
Proof.
  unfold toLowerCase. induction n as [|n IH]; [reflexivity|].
  cbn [Sample.ones map_string]. now rewrite IH.
Qed.

Lemma ones_inj (n m : nat) : Sample.ones n = Sample.ones m -> n = m.
Proof.
  revert m. induction n as [|n IH]; intros [|m]; simpl; try discriminate.
  - reflexivity.
  - intros [= H]. f_equal. auto.
Qed.

Lemma crowd_key (n : nat) :
  onchain_key ("0x" ++ Sample.ones n) = "onchain:0x" ++ Sample.ones n.
Proof.
  unfold onchain_key.
  change (toLowerCase ("0x" ++ Sample.ones n))
    with ("0x" ++ toLowerCase (Sample.ones n)).
  now rewrite toLowerCase_ones.
Qed.

Lemma crowd_keys :
  map onchain_key Sample.crowd
  = map (fun n => "onchain:0x" ++ Sample.ones n) (seq 1 Lru.MAX).
Proof.
  unfold Sample.crowd. rewrite map_map. apply map_ext. intros n.
  apply crowd_key.
Qed.

Lemma crowd_keys_NoDup : NoDup (map onchain_key Sample.crowd).
Proof.
  rewrite crowd_keys. apply Injective_map_NoDup; [|apply seq_NoDup].
  intros n m H. apply append_cancel in H. now apply ones_inj.
Qed.

Lemma usdc_not_in_crowd :
  ~ In (onchain_key Sample.usdc) (map onchain_key Sample.crowd).
Proof.
  rewrite crowd_keys, in_map_iff. intros (n & H & Hin).
  apply in_seq in Hin. destruct n as [|n]; [lia|].
  cbv in H. discriminate H.
Qed.

Lemma crowd_fills_the_cache {A} (f : string -> A) :
  length (rev (map f Sample.crowd)) = Lru.MAX.
Proof.
  unfold Sample.crowd. now rewrite length_rev, !length_map, length_seq.
Qed.

(** after as many lookups of other addresses as the cache has room for,
    all at the same instant, the all-null record of the first address is
    gone and the address is read on chain again *)
Lemma C10_counterexample :
  exists w1 w2 ev2 w3,
    fetchOnChainNameSymbol Sample.down Sample.usdc Sample.start
    = (Ret (Some (onchain_record None None)), w1,
       [CallOnChain Sample.usdc;
        Fetched OnChain (onchain_key Sample.usdc) true])
    /\ lookup_each Sample.down Sample.crowd w1 = (Ret tt, w2, ev2)
    /\ now w2 = now w1
    /\ fetchOnChainNameSymbol Sample.down Sample.usdc w2
       = (Ret (Some (onchain_record None None)), w3,
          [CallOnChain Sample.usdc;
           Fetched OnChain (onchain_key Sample.usdc) true]).
Proof.
  eexists. 
  destruct (lookup_each_misses Sample.down (fun _ _ => eq_refl)
              (fun _ => eq_refl) Sample.crowd
              (cache_set (tick Sample.down Sample.start)
                 (onchain_key Sample.usdc) (onchain_record None None)))
    as (w2 & ev2 & Hrun & Hnow & Hcache).
  - apply crowd_keys_NoDup.
  - intros a Ha. apply find_none_keys. simpl.
    intros [H|[]]. apply usdc_not_in_crowd. rewrite H. now apply in_map.
  - simpl. unfold Lru.MAX. lia.
  - exists w2, ev2. eexists.
    split; [reflexivity|]. split; [exact Hrun|]. split; [exact Hnow|].
    unfold fetchOnChainNameSymbol.
    rewrite from_cache_absent; [reflexivity|].
    rewrite Hcache, firstn_app, crowd_fills_the_cache, Nat.sub_diag.
    rewrite firstn_O, app_nil_r.
    apply find_firstn_none, find_none_keys.
    rewrite map_rev, map_map. cbn [Lru.ekey]. rewrite <- in_rev.
    apply usdc_not_in_crowd.
Qed.

(* ------------------------------------------------------------------ *)
(** ** The batch *)

Lemma formatTokenOutput_address (E : env) (rawName rawSymbol imageUrl : jsval)
  (address : string) (r : TokenRecord) :
  formatTokenOutput E rawName rawSymbol imageUrl address = Ret r ->
  contractAddress r = normalizeAddress E address.
Proof.
  unfold formatTokenOutput, obind.
  destruct (if truthy rawSymbol then _ else _) as [sym|]; [|discriminate].
  destruct (if truthy (or_else rawName _) then _ else _) as [i|];
    [|discriminate].
  now intros [= <-].
Qed.

Lemma resolve_address_address (E : env) (chainSlug : slug) (llamaData : jsval)
  (addr : string) (w w' : world) (r : TokenRecord) (evs : list event) :
  resolve_address E chainSlug llamaData addr w = (Ret r, w', evs) ->
  contractAddress r = normalizeAddress E addr.
Proof.
  unfold resolve_address, bind, lift.
  destruct (seed chainSlug llamaData addr) as [[[n0 s0] i0]|]; [|discriminate].
  destruct (onchain_step E addr n0 s0 w) as [[[[n1 s1]|] w1] ev1];
    [|discriminate].
  destruct (coingecko_step E n1 s1 i0 w1) as [[[[n2 i2]|] w2] ev2];
    [|discriminate].
  destruct (formatTokenOutput E n2 s1 i2 addr) as [t|] eqn:Hf; [|discriminate].
  intros [= <- _ _]. eapply formatTokenOutput_address; eauto.
Qed.

Lemma resolve_all_addresses (E : env) (chainSlug : slug) (llamaData : jsval)
  (addrs : list string) :
  forall results w rs w' evs,
    resolve_all E chainSlug llamaData addrs results w = (Ret rs, w', evs) ->
    map contractAddress rs
    = (map contractAddress results ++ map (normalizeAddress E) addrs)%list.
Proof.
  induction addrs as [|addr rest IH]; intros results w rs w' evs; simpl.
  - intros [= <- _ _]. now rewrite app_nil_r.
  - unfold bind.
    destruct (resolve_address E chainSlug llamaData addr w)
      as [[[r|] w1] ev1] eqn:Hr; [|discriminate].
    destruct (resolve_all E chainSlug llamaData rest (results ++ [r]) w1)
      as [[out w2] ev2] eqn:Hrest.
    intros [= -> _ _]. rewrite (IH _ _ _ _ _ Hrest), map_app. simpl.
    rewrite (resolve_address_address _ _ _ _ _ _ _ _ Hr).
    now rewrite <- app_assoc.
Qed.

(** whenever [handleBatch] returns, it returns one record per input
    address, in the order of the input *)
Lemma handleBatch_one_record_per_address (E : env) (addresses : list string)
  (chainInput : option string) (w w' : world) (rs : list TokenRecord)
  (evs : list event) :
  handleBatch E addresses chainInput w = (Ret rs, w', evs) ->
  length rs = length addresses
  /\ map contractAddress rs
     = map (fun a => normalizeAddress E (toLowerCase a)) addresses.
Proof.
  unfold handleBatch, bind.
  destruct (try_catch _ _ w) as [[[ld|] w1] ev1]; [|discriminate].
  destruct (resolve_all _ _ _ _ _ w1) as [[out w2] ev2] eqn:Hr.
  intros [= -> _ _]. apply resolve_all_addresses in Hr.
  rewrite map_map in Hr. simpl in Hr. split; [|exact Hr].
  apply (f_equal (@length string)) in Hr. now rewrite !length_map in Hr.
Qed.

(** C5: with a bulk response [200] whose body is [null], [handleBatch]
    returns no array at all: [llamaData.coins] is read outside every [try]
    and throws a TypeError that leaves [handleBatch]. *)
Theorem C5_null_body_aborts_the_batch :
  exists w evs,
    handleBatch Sample.null_body [Sample.usdc; Sample.dai] (Some "ethereum")
                Sample.start
    = (Throw TypeError, w, evs).
Proof. do 2 eexists. reflexivity. Qed.

(** the record of an address no source knows anything about *)
Lemma no_data_record (E : env) (chainSlug : slug) (llamaData : jsval)
  (addr : string) (w w1 : world) (n s : option string) (ev : list event) :
  seed chainSlug llamaData addr = Ret (null, null, null) ->
  fetchOnChainNameSymbol E addr w
  = (Ret (Some (onchain_record n s)), w1, ev) ->
  present n = false -> present s = false ->
  resolve_address E chainSlug llamaData addr w
  = (Ret (mkToken (toLowerCase addr) null null null
                  (normalizeAddress E addr)), w1, ev).
Proof.
  intros Hseed Hf Hn Hs.
  unfold resolve_address, bind, lift. rewrite Hseed.
  unfold onchain_step, bind, lift, ret. simpl. rewrite Hf.
  rewrite fill_onchain_name, fill_onchain_symbol, Hn, Hs. simpl.
  now rewrite !app_nil_r.
Qed.

Example env_ok_healthy : env_ok Sample.healthy.
Proof.
  split.
  - intros i c l body [= <-]. split; [reflexivity|].
    intros key. split; intros H; discriminate H.
  - intros i sym body [= <-]. intros c [<-|[]] _. now exists "USDC".
Qed.

Example no_data_batch :
  exists w evs,
    handleBatch Sample.down [Sample.usdc_checksummed] (Some "1") Sample.start
    = (Ret [mkToken Sample.usdc null null null Sample.usdc_checksummed],
       w, evs).
Proof. do 2 eexists. reflexivity. Qed.

(** C6: the record of an address without data is as claimed
    ([no_data_record]), but resolution does not always return a record:
    with a bulk response [200] whose body is [null], resolving one address
    throws a TypeError instead. *)
Theorem C6_null_body_gives_no_record :
  exists w evs,
    handleBatch Sample.null_body [Sample.usdc] None Sample.start
    = (Throw TypeError, w, evs).
Proof. do 2 eexists. reflexivity. Qed.

(* ------------------------------------------------------------------ *)
(** ** Shapes of the cached values *)

Lemma preserves_lift (P : Lru.store -> Prop) {A} (o : outcome A) :
  preserves P (lift o).
Proof. now intros w r w' evs [= _ <- _]. Qed.

Lemma preserves_ret (P : Lru.store -> Prop) {A} (a : A) :
  preserves P (ret a).
Proof. now intros w r w' evs [= _ <- _]. Qed.

Lemma preserves_bind (P : Lru.store -> Prop) {A B} (m : M A) (k : A -> M B) :
  preserves P m -> (forall a, preserves P (k a)) -> preserves P (bind m k).
Proof.
  intros Hm Hk w r w' evs. unfold bind.
  destruct (m w) as [[[a|e] w1] ev1] eqn:Em.
  - destruct (k a w1) as [[r2 w2] ev2] eqn:Ek. intros [= _ <- _] HP.
    eapply Hk; eauto.
  - intros [= _ <- _] HP. eapply Hm; eauto.
Qed.

Lemma preserves_try_catch (P : Lru.store -> Prop) {A} (m : M A)
  (otherwise : exn -> A) :
  preserves P m -> preserves P (try_catch m otherwise).
Proof.
  intros Hm w r w' evs. unfold try_catch.
  destruct (m w) as [[[a|e] w1] ev1] eqn:Em; intros [= _ <- _] HP;
    eapply Hm; eauto.
Qed.

Lemma preserves_ext (P : Lru.store -> Prop) {A} (m m' : M A) :
  (forall w, m w = m' w) -> preserves P m' -> preserves P m.
Proof. intros Heq Hm w r w' evs H. rewrite Heq in H. eauto. Qed.

Lemma all_entries_incl (Q : Lru.entry -> Prop) (c c' : Lru.store) :
  incl c' c -> all_entries Q c -> all_entries Q c'.
Proof. intros Hi H e He. apply H. auto. Qed.

Lemma incl_remove (k : string) (c : Lru.store) : incl (Lru.remove k c) c.
Proof. intros e He. unfold Lru.remove in He. apply filter_In in He. tauto. Qed.

Lemma in_firstn {A} (n : nat) (l : list A) (x : A) :
  In x (firstn n l) -> In x l.
Proof.
  revert n. induction l as [|y l IH]; intros [|n]; simpl; try tauto.
  intros [H|H]; eauto.
Qed.

Lemma all_entries_touch (Q : Lru.entry -> Prop) (k : string) (c : Lru.store)
  (e : Lru.entry) :
  Lru.find k c = Some e -> all_entries Q c ->
  all_entries Q (e :: Lru.remove k c).
Proof.
  intros Hf. apply all_entries_incl.
  intros x [<-|Hx]; [eapply find_in; eauto|now apply (incl_remove k)].
Qed.

Lemma all_entries_set (Q : Lru.entry -> Prop) (t : N) (k : string) (v : json)
  (c : Lru.store) :
  Q (Lru.mkEntry k v t) -> all_entries Q c -> all_entries Q (Lru.set t k v c).
Proof.
  intros Hv H e He. unfold Lru.set in He.
  apply in_firstn in He. destruct He as [<-|He].
  - exact Hv.
  - apply H. now apply (incl_remove k).
Qed.

Lemma preserves_through_cache (Q : Lru.entry -> Prop) (E : env)
  (key : string) (call : event) (s : source)
  (upstream : nat -> outcome jsval + json) :
  (forall i j t, upstream i = inr j -> Q (Lru.mkEntry key j t)) ->
  preserves (all_entries Q) (through_cache E key call s upstream).
Proof.
  intros Hup w r w' evs. unfold through_cache.
  destruct (from_cache w key) as [[v wh]|] eqn:Hc.
  - apply from_cache_some in Hc as (e & Hf & _ & _ & ->).
    intros [= _ <- _] HP. now apply all_entries_touch.
  - destruct (upstream (calls w)) as [r0|j] eqn:Hu; intros [= _ <- _] HP.
    + exact HP.
    + apply all_entries_set; eauto.
Qed.

Lemma preserves_onchain_step (P : Lru.store -> Prop) (E : env) (addr : string)
  (name symbol : jsval) :
  preserves P (fetchOnChainNameSymbol E addr) ->
  preserves P (onchain_step E addr name symbol).
Proof.
  intros H. unfold onchain_step.
  destruct (negb (truthy name) || negb (truthy symbol));
    [|apply preserves_ret].
  apply preserves_bind; [exact H|]. intros v.
  apply preserves_bind; [apply preserves_lift|]. intros n1.
  apply preserves_bind; [apply preserves_lift|]. intros s1.
  apply preserves_ret.
Qed.

Lemma preserves_coingecko_step (P : Lru.store -> Prop) (E : env)
  (name symbol image : jsval) :
  preserves P (fetchFromCoinGeckoBySymbol E symbol) ->
  preserves P (coingecko_step E name symbol image).
Proof.
  intros H. unfold coingecko_step.
  destruct (negb (truthy image) && truthy symbol); [|apply preserves_ret].
  apply preserves_bind; [exact H|]. intros v.
  apply preserves_bind; [apply preserves_lift|]. intros i1.
  apply preserves_ret.
Qed.

Lemma preserves_resolve_all (P : Lru.store -> Prop) (E : env) :
  (forall a, preserves P (fetchOnChainNameSymbol E a)) ->
  (forall sym, preserves P (fetchFromCoinGeckoBySymbol E sym)) ->
  forall chainSlug llamaData addrs results,
    preserves P (resolve_all E chainSlug llamaData addrs results).
Proof.
  intros Hon Hcg chainSlug llamaData addrs.
  induction addrs as [|a rest IH]; intros results; simpl.
  - apply preserves_ret.
  - apply preserves_bind; [|intros r; apply IH].
    unfold resolve_address.
    apply preserves_bind; [apply preserves_lift|]. intros [[n0 s0] i0].
    apply preserves_bind; [now apply preserves_onchain_step|].
    intros [n1 s1].
    apply preserves_bind; [now apply preserves_coingecko_step|].
    intros [n2 i2]. apply preserves_lift.
Qed.

(** a property of the cache that the three adapters keep is kept by
    [handleBatch] *)
Lemma preserves_handleBatch (P : Lru.store -> Prop) (E : env) :
  (forall a, preserves P (fetchOnChainNameSymbol E a)) ->
  (forall sym, preserves P (fetchFromCoinGeckoBySymbol E sym)) ->
  (forall c l, preserves P (fetchFromDefiLlama E c l)) ->
  forall addresses chainInput,
    preserves P (handleBatch E addresses chainInput).
Proof.
  intros Hon Hcg Hll addresses chainInput.
  unfold handleBatch. apply preserves_bind.
  - apply preserves_try_catch, Hll.
  - intros ld. now apply preserves_resolve_all.
Qed.

Lemma preserves_onchain_fetchOnChainNameSymbol (E : env) (a : string) :
  preserves onchain_entries_ok (fetchOnChainNameSymbol E a).
Proof.
  eapply preserves_ext; [apply fetchOnChainNameSymbol_through_cache|].
  apply (preserves_through_cache onchain_entry_ok). intros i j t Hj _.
  destruct (contract E i a) as [|n s]; [discriminate|].
  injection Hj as <-. exists n, s. reflexivity.
Qed.

Lemma preserves_onchain_fetchFromCoinGeckoBySymbol (E : env) (sym : jsval) :
  preserves onchain_entries_ok (fetchFromCoinGeckoBySymbol E sym).
Proof.
  destruct sym as [[| | |sym| |]|]; try (now intros w r w' evs [= _ <- _]).
  eapply preserves_ext; [apply fetchFromCoinGeckoBySymbol_through_cache|].
  apply (preserves_through_cache onchain_entry_ok).
  intros i j t _ Hp. discriminate Hp.
Qed.

Lemma preserves_onchain_fetchFromDefiLlama (E : env) (c : slug)
  (l : list string) :
  preserves onchain_entries_ok (fetchFromDefiLlama E c l).
Proof.
  eapply preserves_ext; [apply fetchFromDefiLlama_through_cache|].
  apply (preserves_through_cache onchain_entry_ok).
  intros i j t _ Hp. discriminate Hp.
Qed.

(** the caches [handleBatch] builds hold on-chain records under the
    on-chain keys: the empty cache does, and [handleBatch] keeps it so *)
Lemma onchain_entries_ok_handleBatch (E : env) (addresses : list string)
  (chainInput : option string) :
  onchain_entries_ok []
  /\ preserves onchain_entries_ok (handleBatch E addresses chainInput).
Proof.
  split; [intros e []|].
  apply preserves_handleBatch;
    auto using preserves_onchain_fetchOnChainNameSymbol,
               preserves_onchain_fetchFromCoinGeckoBySymbol,
               preserves_onchain_fetchFromDefiLlama.
Qed.

(* ------------------------------------------------------------------ *)
(** ** Payloads of the expected shape: the batch always returns *)

Lemma truthy_not_nullish (v : jsval) : truthy v = true -> nullish v = false.
Proof. destruct v as [[]|]; simpl; intros H; try reflexivity; discriminate. Qed.

Lemma get_prop_defined (v : jsval) (p : string) :
  nullish v = false -> get_prop v p = Ret (get_prop_opt v p).
Proof. destruct v as [[]|]; simpl; intros H; try reflexivity; discriminate. Qed.

Lemma textual_of_opt (v : jsval) : textual v <-> exists o, v = of_opt o.
Proof.
  split.
  - intros [->|[s ->]]; [now exists None|now exists (Some s)].
  - intros [[s|] ->]; [right; now exists s|now left].
Qed.

Lemma textual_or_else (a b : jsval) :
  stringy a -> textual b -> textual (or_else a b).
Proof.
  intros Ha Hb. unfold or_else. destruct (truthy a) eqn:T; [|exact Hb].
  right. auto.
Qed.

Lemma textual_null : textual null.
Proof. now left. Qed.

Lemma cache_ok_onchain (c : Lru.store) : cache_ok c -> onchain_entries_ok c.
Proof. intros H e He. now apply H. Qed.

Lemma seed_textual (chainSlug : slug) (llamaData : jsval) (addr : string) :
  llama_ok llamaData ->
  exists name0 symbol0 image0,
    seed chainSlug llamaData addr = Ret (name0, symbol0, image0)
    /\ textual name0 /\ textual symbol0.
Proof.
  intros [Hn Hk]. unfold seed.
  rewrite (get_prop_defined llamaData "coins" Hn). cbn [obind]. cbv zeta.
  set (key := slug_text chainSlug ++ ":" ++ addr).
  destruct (Hk key) as [Hname Hsym].
  set (coins := get_prop_opt llamaData "coins") in *.
  set (tokenInfo := or_else (get_prop_opt coins key) (Some (JObj []))).
  assert (Ht : nullish tokenInfo = false
               /\ stringy (get_prop_opt tokenInfo "name")
               /\ stringy (get_prop_opt tokenInfo "symbol")).
  { unfold tokenInfo, or_else.
    destruct (truthy (get_prop_opt coins key)) eqn:T.
    - auto using truthy_not_nullish.
    - repeat split; intros H; discriminate H. }
  destruct Ht as (Hnn & Hname' & Hsym').
  rewrite !(get_prop_defined tokenInfo) by exact Hnn. cbn [obind].
  do 3 eexists. split; [reflexivity|].
  auto using textual_or_else, textual_null.
Qed.

Lemma total_ret {A} (a : A) (post : A -> Prop) : post a -> total (ret a) post.
Proof. intros H w OK. exists a, w, []. auto. Qed.

Lemma total_lift {A} (o : outcome A) (a : A) (post : A -> Prop) :
  o = Ret a -> post a -> total (lift o) post.
Proof. intros -> H w OK. exists a, w, []. auto. Qed.

Lemma total_bind {A B} (m : M A) (k : A -> M B) (P : A -> Prop)
  (Q : B -> Prop) :
  total m P -> (forall a, P a -> total (k a) Q) -> total (bind m k) Q.
Proof.
  intros Hm Hk w OK. unfold bind.
  destruct (Hm w OK) as (a & w1 & ev1 & -> & OK1 & Pa).
  destruct (Hk a Pa w1 OK1) as (b & w2 & ev2 & -> & OK2 & Qb).
  eauto 7.
Qed.

Lemma total_weaken {A} (m : M A) (P Q : A -> Prop) :
  (forall a, P a -> Q a) -> total m P -> total m Q.
Proof.
  intros H Hm w OK. destruct (Hm w OK) as (a & w1 & ev1 & E1 & OK1 & Pa).
  eauto 7.
Qed.

Lemma preserves_cache_ok_fetchOnChainNameSymbol (E : env) (a : string) :
  preserves cache_ok (fetchOnChainNameSymbol E a).
Proof.
  eapply preserves_ext; [apply fetchOnChainNameSymbol_through_cache|].
  apply (preserves_through_cache entry_ok). intros i j t Hj.
  destruct (contract E i a) as [|n s]; [discriminate|]. injection Hj as <-.
  split; [|split]; intros H; try discriminate H. exists n, s. reflexivity.
Qed.

Lemma total_fetchOnChainNameSymbol (E : env) (a : string) :
  total (fetchOnChainNameSymbol E a)
        (fun v => exists n s, v = Some (onchain_record n s)).
Proof.
  intros w OK.
  destruct (fetchOnChainNameSymbol_record E a w (cache_ok_onchain _ OK))
    as (n & s & w' & evs & Hf & _).
  do 3 eexists. split; [exact Hf|]. split; [|eauto].
  eapply preserves_cache_ok_fetchOnChainNameSymbol; eauto.
Qed.

Lemma llama_ok_empty_coins : llama_ok (Some empty_coins).
Proof. split; [reflexivity|]. intros key. split; intros H; discriminate H. Qed.

Lemma total_llama (E : env) (c : slug) (l : list string) :
  env_ok E ->
  total (try_catch (fetchFromDefiLlama E c l) (fun _ => Some empty_coins))
        llama_ok.
Proof.
  intros [Henv _] w OK. unfold try_catch, fetchFromDefiLlama.
  destruct (from_cache w _) as [[v wh]|] eqn:Hc.
  - apply from_cache_some in Hc as (e & Hf & _ & -> & ->).
    do 3 eexists. split; [reflexivity|]. split.
    + now apply all_entries_touch.
    + apply (OK e); [eapply find_in; eauto|].
      rewrite (find_key _ _ _ Hf). apply prefix_append.
  - destruct (fetch E _ _) as [|[|] [body|]] eqn:Hf;
      try (do 3 eexists; split; [reflexivity|]; split;
           [exact OK|apply llama_ok_empty_coins]).
    do 3 eexists. split; [reflexivity|].
    pose proof (Henv _ _ _ _ Hf) as Hb. split; [|exact Hb].
    apply all_entries_set; [|exact OK].
    split; [|split]; intros H; try discriminate H. exact Hb.
Qed.

Lemma array_find_in (p : json -> outcome bool) (l : list json) (c : json) :
  array_find p l = Ret (Some c) -> In c l.
Proof.
  induction l as [|x l IH]; simpl; [discriminate|].
  destruct (p x) as [[|]|]; try discriminate.
  - intros [= ->]. now left.
  - intros H. right. auto.
Qed.

Lemma coingecko_result_ok (sym : string) (data result : json) :
  search_body_ok data ->
  coingecko_result sym data = Ret (Some result) ->
  search_hit_ok (Some result).
Proof.
  unfold search_body_ok, coingecko_result.
  destruct (get_prop (Some data) "coins") as [coins|] eqn:Hcoins;
    [|discriminate].
  assert (Hc : get_prop_opt (Some data) "coins" = coins).
  { destruct data; simpl in *; congruence. }
  rewrite Hc. cbn [obind].
  destruct coins as [[| | | |[|first rest]|]|]; try discriminate.
  intros Hall.
  destruct (array_find (symbol_matches sym) (first :: rest)) as [found|] eqn:Hfind;
    [|discriminate].
  cbn [obind].
  set (m := or_else found (Some first)).
  assert (Hm : stringy (get_prop_opt m "name")).
  { unfold m, or_else. destruct (truthy found) eqn:T.
    - destruct found as [c|]; [|discriminate].
      apply Hall. eapply array_find_in; eauto.
    - apply Hall. now left. }
  destruct (get_prop m "id") as [id|] eqn:Hid; [|discriminate].
  assert (Hnn : nullish m = false).
  { destruct m as [[]|]; simpl in *; congruence. }
  rewrite !(get_prop_defined m) by exact Hnn. cbn [obind].
  destruct (opt_toLowerCase (get_prop_opt m "symbol")) as [lsym|];
    [|discriminate].
  cbn [obind]. intros [= <-]. unfold search_hit_ok.
  destruct id as [id|], lsym as [lsym|],
    (get_prop_opt m "name") as [nm|],
    (or_else (get_prop_opt m "large") (or_else (get_prop_opt m "thumb") null))
      as [img|];
    simpl; try exact Hm; intros H; discriminate H.
Qed.

Lemma search_hit_ok_null : search_hit_ok null.
Proof. intros H. discriminate H. Qed.

Lemma total_fetchFromCoinGeckoBySymbol (E : env) (symbol : jsval) :
  env_ok E -> total (fetchFromCoinGeckoBySymbol E symbol) search_hit_ok.
Proof.
  intros [_ Henv] w OK. unfold fetchFromCoinGeckoBySymbol.
  destruct symbol as [[| | |sym| |]|];
    try (do 3 eexists; split; [reflexivity|]; split;
         [exact OK|apply search_hit_ok_null]).
  destruct (from_cache w _) as [[v wh]|] eqn:Hc.
  - apply from_cache_some in Hc as (e & Hf & _ & -> & ->).
    do 3 eexists. split; [reflexivity|]. split.
    + now apply all_entries_touch.
    + apply (OK e); [eapply find_in; eauto|].
      rewrite (find_key _ _ _ Hf). apply prefix_append.
  - destruct (fetch E _ _) as [|[|] [data|]] eqn:Hf;
      try (do 3 eexists; split; [reflexivity|]; split;
           [exact OK|apply search_hit_ok_null]).
    destruct (coingecko_result sym data) as [[result|]|] eqn:Hr;
      try (do 3 eexists; split; [reflexivity|]; split;
           [exact OK|apply search_hit_ok_null]).
    pose proof (coingecko_result_ok sym data result (Henv _ _ _ Hf) Hr) as Hb.
    do 3 eexists. split; [reflexivity|]. split; [|exact Hb].
    apply all_entries_set; [|exact OK].
    split; [|split]; intros H; try discriminate H. exact Hb.
Qed.

Lemma textual_fill (current : jsval) (o : option string) :
  textual current ->
  textual (if truthy current then current
           else if present o then of_opt o else current).
Proof.
  intros H. destruct (truthy current); [exact H|].
  destruct (present o); [|exact H]. apply textual_of_opt. eauto.
Qed.

Lemma total_onchain_step (E : env) (addr : string) (name symbol : jsval) :
  textual name -> textual symbol ->
  total (onchain_step E addr name symbol)
        (fun p => textual (fst p) /\ textual (snd p)).
Proof.
  intros Hn Hs. unfold onchain_step.
  destruct (negb (truthy name) || negb (truthy symbol));
    [|now apply total_ret].
  eapply total_bind; [apply total_fetchOnChainNameSymbol|].
  intros v (n & s & ->).
  eapply total_bind.
  { eapply total_lift; [apply fill_onchain_name|].
    apply (textual_fill name n Hn). }
  intros name' Hn'. cbv beta in Hn'.
  eapply total_bind.
  { eapply total_lift; [apply fill_onchain_symbol|].
    apply (textual_fill symbol s Hs). }
  intros symbol' Hs'. cbv beta in Hs'.
  apply total_ret. now split.
Qed.

Lemma total_coingecko_step (E : env) (name symbol image : jsval) :
  env_ok E -> textual name ->
  total (coingecko_step E name symbol image) (fun p => textual (fst p)).
Proof.
  intros Henv Hn. unfold coingecko_step.
  destruct (negb (truthy image) && truthy symbol); [|now apply total_ret].
  eapply total_bind; [now apply total_fetchFromCoinGeckoBySymbol|].
  intros cgData Hcg. cbv beta in Hcg.
  eapply total_bind with (P := fun _ => True).
  { destruct (truthy cgData) eqn:T.
    - rewrite (get_prop_defined cgData "image")
        by now apply truthy_not_nullish.
      eapply total_lift; [reflexivity|exact I].
    - eapply total_lift; [reflexivity|exact I]. }
  intros image' _. apply total_ret. cbn [fst].
  destruct (negb (truthy name) && truthy (get_prop_opt cgData "name")) eqn:T;
    [|exact Hn].
  apply andb_prop in T as [_ T]. right. now apply Hcg.
Qed.

Lemma formatTokenOutput_returns (E : env) (name symbol imageUrl : jsval)
  (address : string) :
  textual name -> textual symbol ->
  exists r, formatTokenOutput E name symbol imageUrl address = Ret r.
Proof.
  intros Hn Hs.
  apply textual_of_opt in Hn as [n ->]. apply textual_of_opt in Hs as [s ->].
  destruct (formatTokenOutput_id E n s imageUrl address) as (r & Hr & _).
  eauto.
Qed.

Lemma total_resolve_address (E : env) (chainSlug : slug) (llamaData : jsval)
  (addr : string) :
  env_ok E -> llama_ok llamaData ->
  total (resolve_address E chainSlug llamaData addr) (fun _ => True).
Proof.
  intros Henv Hll. unfold resolve_address.
  destruct (seed_textual chainSlug llamaData addr Hll)
    as (name0 & symbol0 & image0 & Hseed & Hn0 & Hs0).
  eapply total_bind.
  { eapply total_lift with (post := fun p => p = (name0, symbol0, image0));
      [exact Hseed|reflexivity]. }
  intros seeded ->.
  eapply total_bind; [now apply total_onchain_step|].
  intros [name1 symbol1] [Hn1 Hs1]. cbn [fst snd] in Hn1, Hs1.
  eapply total_bind; [now apply total_coingecko_step|].
  intros [name2 image2] Hn2. cbn [fst] in Hn2.
  destruct (formatTokenOutput_returns E name2 symbol1 image2 addr Hn2 Hs1)
    as (r & Hr).
  eapply total_lift; [exact Hr|exact I].
Qed.

Lemma total_resolve_all (E : env) (chainSlug : slug) (llamaData : jsval)
  (addrs : list string) :
  env_ok E -> llama_ok llamaData ->
  forall results,
    total (resolve_all E chainSlug llamaData addrs results)
          (fun rs => length rs = length results + length addrs).
Proof.
  intros Henv Hll. induction addrs as [|addr rest IH]; intros results; simpl.
  - apply total_ret. lia.
  - eapply total_bind; [now apply total_resolve_address|].
    intros r _. eapply total_weaken; [|apply IH].
    intros rs Hrs. cbv beta in Hrs. rewrite Hrs, length_app. simpl. lia.
Qed.

(** When the payloads of the upstreams and the values in the cache have
    the expected shapes, [handleBatch] returns, whatever else the network
    does (rejected requests, non-success statuses, unparseable bodies,
    failed reads): one record per address, in the order of the input. *)
Lemma handleBatch_returns (E : env) (addresses : list string)
  (chainInput : option string) (w : world) :
  env_ok E -> cache_ok (cache w) ->
  exists rs w' evs,
    handleBatch E addresses chainInput w = (Ret rs, w', evs)
    /\ cache_ok (cache w')
    /\ length rs = length addresses
    /\ map contractAddress rs
       = map (fun a => normalizeAddress E (toLowerCase a)) addresses.
Proof.
  intros Henv OK.
  assert (Ht : total (handleBatch E addresses chainInput) (fun _ => True)).
  { unfold handleBatch. eapply total_bind; [now apply total_llama|].
    intros ld Hld. eapply total_weaken; [|now apply total_resolve_all].
    auto. }
  destruct (Ht w OK) as (rs & w' & evs & Hrun & OK' & _).
  exists rs, w', evs. split; [exact Hrun|]. split; [exact OK'|].
  eapply handleBatch_one_record_per_address; eauto.
Qed.

Example healthy_batch_returns :
  exists rs w' evs,
    handleBatch Sample.healthy [Sample.usdc; Sample.dai] None Sample.start
    = (Ret rs, w', evs)
    /\ length rs = 2.
Proof.
  destruct (handleBatch_returns Sample.healthy [Sample.usdc; Sample.dai] None
              Sample.start env_ok_healthy)
    as (rs & w' & evs & Hrun & _ & Hlen & _); [intros e []|].
  exists rs, w', evs. auto.
Qed.

(* ------------------------------------------------------------------ *)
(** ** The on-chain step, for every address of a batch *)









(* ------------------------------------------------------------------ *)
(** ** Running a batch twice *)

Lemma fetched_keys_calls (evs : list event) :
  fetched_keys (filter is_call evs) = [].
Proof.
  induction evs as [|e evs IH]; simpl; [reflexivity|].
  destruct e; simpl; assumption.
Qed.

(** a second run after a run whose lookups were all stored *)
Lemma second_run_replay (E : env) (addresses : list string)
  (chainInput : option string) (w w1 : world) (gap : N)
  (r : outcome (list TokenRecord)) (ev1 : list event) :
  handleBatch E addresses chainInput w = (r, w1, ev1) ->
  Forall (fun e => is_stored e = true) ev1 ->
  fresh_until (now w1 + gap) (cache w) ->
  (now w1 + gap - now w <= Lru.TTL)%N ->
  length (cache w) + length (fetched_keys ev1) <= Lru.MAX ->
  exists w2 ev2,
    handleBatch E addresses chainInput (later w1 gap) = (r, w2, ev2)
    /\ ev2 = filter is_call ev1
    /\ fetched_keys ev2 = []
    /\ NoDup (fetched_keys ev1 ++ fetched_keys ev2).
Proof.
  intros Hrun S F T L.
  destruct (replayable_handleBatch E addresses chainInput w r w1 ev1 Hrun)
    as [_ H].
  destruct (H (now w1 + gap)%N S F T ltac:(lia) L)
    as (_ & _ & _ & ND & _ & R).
  destruct (R (later w1 gap) eq_refl (extends_refl _)) as (w2 & R1 & _).
  exists w2, (filter is_call ev1).
  rewrite fetched_keys_calls, app_nil_r. auto.
Qed.

Lemma absent_through_cache (E : env) (k key : string) (call : event)
  (s : source) (upstream : nat -> outcome jsval + json) :
  key <> k ->
  preserves (fun c => Lru.find k c = None)
            (through_cache E key call s upstream).
Proof.
  intros Hne w r w' evs. unfold through_cache.
  destruct (from_cache w key) as [[v wh]|] eqn:Hc.
  - apply from_cache_some in Hc as (e & Hf & _ & _ & ->).
    intros [= _ <- _] HP. cbn [cache with_cache].
    now rewrite (find_touch key k (cache w) e Hf).
  - destruct (upstream (calls w)) as [r0|j]; intros [= _ <- _] HP.
    + exact HP.
    + cbn [cache cache_set with_cache tick]. unfold Lru.set.
      apply find_firstn_none. cbn [Lru.find Lru.ekey].
      apply String.eqb_neq in Hne. rewrite Hne.
      rewrite find_remove_other; [exact HP|].
      intros ->. now rewrite String.eqb_refl in Hne.
Qed.

Lemma llama_key_absent_resolve_all (E : env) (c : slug) (l : list string) :
  forall chainSlug llamaData addrs results,
    preserves (fun s => Lru.find (llama_key c l) s = None)
              (resolve_all E chainSlug llamaData addrs results).
Proof.
  apply preserves_resolve_all.
  - intros a.
    eapply preserves_ext; [apply fetchOnChainNameSymbol_through_cache|].
    apply absent_through_cache. discriminate.
  - intros [[| | |sym| |]|]; try (now intros w r w' evs [= _ <- _]).
    eapply preserves_ext; [apply fetchFromCoinGeckoBySymbol_through_cache|].
    apply absent_through_cache. discriminate.
Qed.

(** a bulk lookup that failed is made again by the next run *)
Lemma bulk_failure_refetched (E : env) (addresses : list string)
  (chainInput : option string) (w w1 : world) (gap : N)
  (r : outcome (list TokenRecord)) (ev1 : list event) :
  handleBatch E addresses chainInput w = (r, w1, ev1) ->
  Lru.find (llama_key (resolveChainSlug chainInput)
                      (map toLowerCase addresses)) (cache w) = None ->
  failed_response
    (fetch E (calls w)
       (llama_url (resolveChainSlug chainInput) (map toLowerCase addresses)))
  = true ->
  In (Fetched Llama (llama_key (resolveChainSlug chainInput)
                               (map toLowerCase addresses)) false) ev1
  /\ exists r2 w2 ev2 stored,
       handleBatch E addresses chainInput (later w1 gap) = (r2, w2, ev2)
       /\ In (Fetched Llama (llama_key (resolveChainSlug chainInput)
                                       (map toLowerCase addresses)) stored)
             ev2.
Proof.
  set (c := resolveChainSlug chainInput).
  set (l := map toLowerCase addresses).
  intros Hrun Habs Hfail.
  unfold handleBatch, bind, try_catch, fetchFromDefiLlama in Hrun.
  fold c l in Hrun. rewrite (from_cache_absent w _ Habs) in Hrun.
  assert (Hgone : Lru.find (llama_key c l) (cache w1) = None
                  /\ In (Fetched Llama (llama_key c l) false) ev1).
  { destruct (fetch E (calls w) (llama_url c l)) as [|[|] [body|]];
      try discriminate Hfail;
      destruct (resolve_all E c _ l [] (tick E w)) as [[r' w'] ev'] eqn:Hr;
      injection Hrun as <- <- <-;
      (split; [|simpl; auto]);
      apply (llama_key_absent_resolve_all E c l _ _ _ _ _ _ _ _ Hr);
      exact Habs. }
  destruct Hgone as [Hgone Hin]. split; [exact Hin|].
  unfold handleBatch, bind, try_catch, fetchFromDefiLlama. fold c l.
  rewrite (from_cache_absent (later w1 gap) _ Hgone).
  clear Hrun Hfail.
  destruct (fetch E (calls (later w1 gap)) (llama_url c l))
    as [|[|] [body|]];
    match goal with
    | |- context [resolve_all ?a ?b ?d ?e ?f ?g] =>
        destruct (resolve_all a b d e f g) as [[r' w'] ev']
    end;
    do 4 eexists; (split; [reflexivity|]); simpl; auto.
Qed.

(** with a bulk upstream that answers a non-success status, the same bulk
    key is fetched by the first run and again by the second *)
Lemma C3_counterexample :
  exists r1 w1 ev1 r2 w2 ev2,
    handleBatch Sample.unavailable [Sample.usdc] None Sample.start
    = (r1, w1, ev1)
    /\ handleBatch Sample.unavailable [Sample.usdc] None w1 = (r2, w2, ev2)
    /\ In (Fetched Llama (llama_key (SlugStr "ethereum") [Sample.usdc]) false)
          ev1
    /\ In (Fetched Llama (llama_key (SlugStr "ethereum") [Sample.usdc]) false)
          ev2.
Proof.
  do 6 eexists. split; [reflexivity|]. split; [reflexivity|].
  split; simpl; auto.
Qed.

(** C3 (amended): when every upstream lookup of a run of [handleBatch]
    ended with its result written to the cache, and the identical batch is
    run again [gap] milliseconds later while no cache entry is older than
    the time to live and the capacity of the cache was not exceeded, then
    the second run goes upstream for nothing and has the outcome of the
    first; over the two runs no source key is fetched twice.  The result
    of a failed lookup is not stored: a bulk lookup that missed the cache
    and failed (rejected request, non-success status, unparseable body) is
    made again by the second run. *)
Theorem C3_second_run_served_from_cache (E : env) (addresses : list string)
  (chainInput : option string) (w w1 : world) (gap : N)
  (r : outcome (list TokenRecord)) (ev1 : list event) :
  handleBatch E addresses chainInput w = (r, w1, ev1) ->
  (Forall (fun e => is_stored e = true) ev1 ->
   fresh_until (now w1 + gap) (cache w) ->
   (now w1 + gap - now w <= Lru.TTL)%N ->
   length (cache w) + length (fetched_keys ev1) <= Lru.MAX ->
   exists w2 ev2,
     handleBatch E addresses chainInput (later w1 gap) = (r, w2, ev2)
     /\ ev2 = filter is_call ev1
     /\ fetched_keys ev2 = []
     /\ NoDup (fetched_keys ev1 ++ fetched_keys ev2))
  /\ (Lru.find (llama_key (resolveChainSlug chainInput)
                          (map toLowerCase addresses)) (cache w) = None ->
      failed_response
        (fetch E (calls w)
           (llama_url (resolveChainSlug chainInput)
                      (map toLowerCase addresses))) = true ->
      In (Fetched Llama (llama_key (resolveChainSlug chainInput)
                                   (map toLowerCase addresses)) false) ev1
      /\ exists r2 w2 ev2 stored,
           handleBatch E addresses chainInput (later w1 gap) = (r2, w2, ev2)
           /\ In (Fetched Llama (llama_key (resolveChainSlug chainInput)
                                           (map toLowerCase addresses))
                          stored) ev2).
Proof.
  intros Hrun. split.
  - exact (second_run_replay E addresses chainInput w w1 gap r ev1 Hrun).
  - exact (bulk_failure_refetched E addresses chainInput w w1 gap r ev1 Hrun).
Qed.

(** the statement above at upstreams that all answer, one second later, and
    at upstreams that answer with a non-success status *)
Lemma C3_witness :
  (exists r w1 ev1 w2,
      handleBatch Sample.healthy [Sample.usdc] None Sample.start = (r, w1, ev1)
      /\ handleBatch Sample.healthy [Sample.usdc] None (later w1 1000)
         = (r, w2, filter is_call ev1))
  /\ (exists r w1 ev1 r2 w2 ev2 stored,
        handleBatch Sample.unavailable [Sample.usdc] None Sample.start
        = (r, w1, ev1)
        /\ handleBatch Sample.unavailable [Sample.usdc] None (later w1 1000)
           = (r2, w2, ev2)
        /\ In (Fetched Llama (llama_key (SlugStr "ethereum") [Sample.usdc])
                       stored) ev2).
Proof.
  split.
  - destruct (handleBatch Sample.healthy [Sample.usdc] None Sample.start)
      as [[r w1] ev1] eqn:Hrun.
    destruct (C3_second_run_served_from_cache Sample.healthy [Sample.usdc]
                None Sample.start w1 1000 r ev1 Hrun) as [H _].
    vm_compute in Hrun. injection Hrun as <- <- <-.
    destruct H as (w2 & ev2 & H2 & -> & _).
    + repeat constructor.
    + intros e [].
    + vm_compute. discriminate.
    + vm_compute. lia.
    + do 3 eexists. exists w2. split; [reflexivity|exact H2].
  - destruct (handleBatch Sample.unavailable [Sample.usdc] None Sample.start)
      as [[r w1] ev1] eqn:Hrun.
    destruct (C3_second_run_served_from_cache Sample.unavailable
                [Sample.usdc] None Sample.start w1 1000 r ev1 Hrun)
      as [_ H].
    destruct H as (_ & r2 & w2 & ev2 & stored & H2 & Hin);
      [reflexivity|reflexivity|].
    exists r, w1, ev1, r2, w2, ev2, stored.
    split; [reflexivity|]. split; [exact H2|exact Hin].
Defined.

(* ================================================================== *)
(** * Further properties *)

(** ** The address list of the batch route *)

Lemma split_commas_nonempty (s : string) : split_commas s <> [].
Proof.
  destruct s as [|c r]; simpl; [discriminate|].
  destruct (split_commas r); [discriminate|].
  destruct (Ascii.eqb c ","); discriminate.
Qed.

Lemma split_commas_free (s : string) :
  Forall (fun p => free_of "," p = true) (split_commas s).
Proof.
  induction s as [|c r IH]; simpl; [repeat constructor|].
  destruct (split_commas r) as [|piece pieces] eqn:Hs.
  - now apply split_commas_nonempty in Hs.
  - inversion IH; subst. destruct (Ascii.eqb c ",") eqn:H.
    + repeat constructor; assumption.
    + constructor; [|assumption]. cbn [free_of].
      rewrite Ascii.eqb_sym, H. simpl. assumption.
Qed.

Lemma split_commas_single (x : string) :
  free_of "," x = true -> split_commas x = [x].
Proof.
  induction x as [|c r IH]; cbn [free_of split_commas]; [reflexivity|].
  intros H. apply andb_prop in H as [Hc Hr]. rewrite (IH Hr).
  rewrite Ascii.eqb_sym. apply negb_true_iff in Hc. now rewrite Hc.
Qed.

Lemma split_commas_cons (x rest : string) :
  free_of "," x = true ->
  split_commas (x ++ String "," rest) = x :: split_commas rest.
Proof.
  induction x as [|c r IH]; cbn [free_of split_commas append].
  - intros _. rewrite Ascii.eqb_refl.
    destruct (split_commas rest) eqn:Hs; [|reflexivity].
    now apply split_commas_nonempty in Hs.
  - intros H. apply andb_prop in H as [Hc Hr]. rewrite (IH Hr).
    rewrite Ascii.eqb_sym. apply negb_true_iff in Hc. now rewrite Hc.
Qed.

Lemma split_commas_join (l : list string) :
  l <> [] -> Forall (fun p => free_of "," p = true) l ->
  split_commas (join "," l) = l.
Proof.
  induction l as [|x r IH]; [congruence|].
  intros _ F. inversion F as [|? ? Hx Hr]; subst.
  destruct r as [|y r].
  - now apply split_commas_single.
  - change (join "," (x :: y :: r)) with (x ++ String "," (join "," (y :: r))).
    rewrite (split_commas_cons _ _ Hx), IH; [reflexivity|discriminate|exact Hr].
Qed.

Lemma trim_start_clean (s : string) : starts_clean (trim_start s) = true.
Proof.
  induction s as [|c r IH]; simpl; [reflexivity|].
  destruct (is_space c) eqn:H; [exact IH|]. simpl. now rewrite H.
Qed.

Lemma trim_start_fixed (s : string) :
  starts_clean s = true -> trim_start s = s.
Proof.
  destruct s as [|c r]; simpl; [reflexivity|].
  intros H. apply negb_true_iff in H. now rewrite H.
Qed.

Lemma trim_end_clean (s : string) :
  starts_clean s = true -> starts_clean (trim_end s) = true.
Proof.
  destruct s as [|c r]; simpl; [reflexivity|].
  intros H. apply negb_true_iff in H. rewrite H. simpl. now rewrite H.
Qed.

Lemma trim_end_idem (s : string) : trim_end (trim_end s) = trim_end s.
Proof.
  induction s as [|c r IH]; simpl; [reflexivity|].
  destruct (is_space c && String.eqb (trim_end r) "") eqn:H; [reflexivity|].
  simpl. now rewrite IH, H.
Qed.

Lemma trim_idem (s : string) : trim (trim s) = trim s.
Proof.
  unfold trim.
  rewrite (trim_start_fixed (trim_end (trim_start s))).
  - apply trim_end_idem.
  - apply trim_end_clean, trim_start_clean.
Qed.

Lemma trim_start_free (c : ascii) (s : string) :
  free_of c s = true -> free_of c (trim_start s) = true.
Proof.
  induction s as [|d r IH]; cbn [free_of trim_start]; [reflexivity|].
  intros H. destruct (is_space d); [|exact H].
  apply andb_prop in H as [_ H]. auto.
Qed.

Lemma trim_end_free (c : ascii) (s : string) :
  free_of c s = true -> free_of c (trim_end s) = true.
Proof.
  induction s as [|d r IH]; cbn [free_of trim_end]; [reflexivity|].
  intros H. apply andb_prop in H as [Hd Hr]. cbv zeta.
  destruct (is_space d && String.eqb (trim_end r) ""); [reflexivity|].
  cbn [free_of]. rewrite Hd. auto.
Qed.

Lemma trim_free (c : ascii) (s : string) :
  free_of c s = true -> free_of c (trim s) = true.
Proof. intros H. now apply trim_end_free, trim_start_free. Qed.

Lemma parse_addresses_entries (s : string) :
  Forall (fun a => plain a /\ trimmed a) (parse_addresses s).
Proof.
  unfold parse_addresses. apply Forall_forall. intros a Ha.
  apply filter_In in Ha as [Ha Hne]. apply in_map_iff in Ha as (p & <- & Hp).
  pose proof (split_commas_free s) as F. rewrite Forall_forall in F.
  split; [split|].
  - apply negb_true_iff in Hne. now apply String.eqb_neq.
  - apply trim_free. auto.
  - apply trim_idem.
Qed.

Lemma parse_addresses_join (l : list string) :
  Forall (fun a => plain a /\ trimmed a) l ->
  parse_addresses (join "," l) = l.
Proof.
  intros F. unfold parse_addresses. destruct l as [|x r]; [reflexivity|].
  rewrite split_commas_join; [|discriminate|].
  - assert (Hm : map trim (x :: r) = x :: r).
    { rewrite <- (map_id (x :: r)) at 2. apply map_ext_in.
      intros a Ha. rewrite Forall_forall in F. now apply F. }
    rewrite Hm. apply forallb_filter_id. apply forallb_forall.
    intros a Ha. rewrite Forall_forall in F.
    destruct (F a Ha) as [[Hne _] _].
    apply negb_true_iff. now apply String.eqb_neq.
  - eapply Forall_impl; [|exact F]. now intros a [[_ H] _].
Qed.

(** X1: the batch route's address list.  Whatever the [addresses]
    parameter holds, every address handed to [handleBatch] is non-empty,
    holds no comma and has no white space at either end; and a list of such
    addresses joined by commas is parsed back to itself, in order
    (duplicates included). *)
Theorem X1_parse_addresses (s : string) (l : list string) :
  Forall (fun a => plain a /\ trimmed a) (parse_addresses s)
  /\ (Forall (fun a => plain a /\ trimmed a) l ->
      parse_addresses (join "," l) = l).
Proof.
  split; [apply parse_addresses_entries|apply parse_addresses_join].
Qed.

Lemma X1_witness :
  parse_addresses (join "," [Sample.usdc; Sample.dai; Sample.usdc])
  = [Sample.usdc; Sample.dai; Sample.usdc].
Proof.
  apply (proj2 (X1_parse_addresses "" [Sample.usdc; Sample.dai; Sample.usdc])).
  repeat constructor; discriminate.
Defined.

Example parse_addresses_blanks :
  parse_addresses " 0xAb , ,0xCd,," = ["0xAb"; "0xCd"].
Proof. reflexivity. Qed.

(* ------------------------------------------------------------------ *)
(** ** The routes *)

Lemma chain_or_default_slug (chain : option string) :
  resolveChainSlug (chain_or_default chain) = resolveChainSlug chain.
Proof. now destruct chain. Qed.

Lemma tokeninfo_batch_parsed (E : env) (chain : option string) (s : string)
  (w : world) :
  s <> "" ->
  tokeninfo_batch E chain (Some s) w
  = respond (handleBatch E (parse_addresses s) (chain_or_default chain))
            (fun out => out) w.
Proof.
  intros H. unfold tokeninfo_batch. apply String.eqb_neq in H. now rewrite H.
Qed.

(** X2: the batch route with upstream payloads and cached values of the
    expected shapes.  A missing or empty [addresses] parameter is answered
    with 400 and nothing is looked up.  Otherwise the answer is 200, never
    500, whatever else the network does: one record per non-blank entry of
    the comma-separated list, in the order of the list, each with the
    normalised form of its lower-cased address; and the cache keeps its
    shape for the next request. *)
Theorem X2_batch_route (E : env) (chain : option string) (s : string)
  (w : world) :
  tokeninfo_batch E chain None w = (BadRequest "Missing addresses", w, [])
  /\ tokeninfo_batch E chain (Some "") w
     = (BadRequest "Missing addresses", w, [])
  /\ (env_ok E -> cache_ok (cache w) -> s <> "" ->
      exists rs w' evs,
        tokeninfo_batch E chain (Some s) w = (Ok rs, w', evs)
        /\ cache_ok (cache w')
        /\ length rs = length (parse_addresses s)
        /\ map contractAddress rs
           = map (fun a => normalizeAddress E (toLowerCase a))
                 (parse_addresses s)).
Proof.
  split; [reflexivity|]. split; [reflexivity|].
  intros Henv OK Hs. rewrite (tokeninfo_batch_parsed E chain s w Hs).
  destruct (handleBatch_returns E (parse_addresses s) (chain_or_default chain)
              w Henv OK) as (rs & w' & evs & Hrun & OK' & Hlen & Haddr).
  exists rs, w', evs. unfold respond. rewrite Hrun. auto.
Qed.

Lemma X2_witness :
  exists rs w' evs,
    tokeninfo_batch Sample.healthy (Some "1")
                    (Some " 0xA0b86991c6218b36c1d19D4a2e9Eb0cE3606eB48 ,, 0x6B175474E89094C44Da98b954EedeAC495271d0F")
                    Sample.start
    = (Ok rs, w', evs)
    /\ length rs = 2.
Proof.
  destruct (X2_batch_route Sample.healthy (Some "1")
              " 0xA0b86991c6218b36c1d19D4a2e9Eb0cE3606eB48 ,, 0x6B175474E89094C44Da98b954EedeAC495271d0F"
              Sample.start) as (_ & _ & H).
  destruct H as (rs & w' & evs & Hrun & _ & Hlen & _).
  - exact env_ok_healthy.
  - intros e [].
  - discriminate.
  - exists rs, w', evs. split; [exact Hrun|exact Hlen].
Defined.

Lemma handleBatch_single (E : env) (a : string) (chain : option string)
  (w w' : world) (out : list TokenRecord) (evs : list event) :
  handleBatch E [a] chain w = (Ret out, w', evs) ->
  exists r, out = [r]
            /\ contractAddress r = normalizeAddress E (toLowerCase a).
Proof.
  intros H. apply handleBatch_one_record_per_address in H as [Hlen Haddr].
  destruct out as [|r [|r' out]]; try discriminate Hlen.
  exists r. split; [reflexivity|]. now injection Haddr.
Qed.

(** X3: the single-address route.  A missing or empty [address] is
    answered with 400 and nothing is looked up.  An [address] given more
    than once or written with brackets (an array or an object) is answered
    with 500, for a TypeError, whatever the upstreams do, and nothing is
    looked up either.  A 200 answer never has an undefined body: [out[0]]
    is always there.  For an [address] given once, with upstream payloads
    and cached values of the expected shapes, the answer is 200, never
    500: the record of the address, with the normalised form of the
    lower-cased address. *)
Theorem X3_single_route (E : env) (chain : option string) (a : string)
  (items : list query_value) (members : list (string * query_value))
  (w : world) :
  tokeninfo E chain None w = (BadRequest "Missing address", w, [])
  /\ tokeninfo E chain (Some (QString "")) w
     = (BadRequest "Missing address", w, [])
  /\ tokeninfo E chain (Some (QArray items)) w = (ServerError TypeError, w, [])
  /\ tokeninfo E chain (Some (QObject members)) w
     = (ServerError TypeError, w, [])
  /\ (forall address w' evs,
        tokeninfo E chain address w <> (Ok None, w', evs))
  /\ (env_ok E -> cache_ok (cache w) -> a <> "" ->
      exists r w' evs,
        tokeninfo E chain (Some (QString a)) w = (Ok (Some r), w', evs)
        /\ cache_ok (cache w')
        /\ contractAddress r = normalizeAddress E (toLowerCase a)).
Proof.
  split; [reflexivity|]. split; [reflexivity|].
  split; [reflexivity|]. split; [reflexivity|]. split.
  - intros [[b|l|m]|] w' evs; try discriminate. unfold tokeninfo.
    destruct (String.eqb b ""); [discriminate|]. unfold respond.
    destruct (handleBatch E [b] (chain_or_default chain) w)
      as [[[out|e] w1] ev1] eqn:Hrun; [|discriminate].
    apply handleBatch_single in Hrun as (r & -> & _). discriminate.
  - intros Henv OK Ha. unfold tokeninfo. apply String.eqb_neq in Ha.
    rewrite Ha. unfold respond.
    destruct (handleBatch_returns E [a] (chain_or_default chain) w Henv OK)
      as (rs & w' & evs & Hrun & OK' & _). rewrite Hrun.
    apply handleBatch_single in Hrun as (r & -> & Hr).
    exists r, w', evs. auto.
Qed.

Lemma X3_witness :
  exists r w' evs,
    tokeninfo Sample.healthy None (Some (QString Sample.usdc_checksummed))
              Sample.start
    = (Ok (Some r), w', evs)
    /\ contractAddress r = Sample.usdc_checksummed.
Proof.
  destruct (X3_single_route Sample.healthy None Sample.usdc_checksummed
              [] [] Sample.start) as (_ & _ & _ & _ & _ & H).
  destruct H as (r & w' & evs & Hrun & _ & Hr).
  - exact env_ok_healthy.
  - intros e [].
  - discriminate.
  - exists r, w', evs. split; [exact Hrun|exact Hr].
Defined.

(** X4: the two routes agree.  For an address that is not empty, holds no
    comma and has no white space at either end, the single-address route
    does the same lookups, leaves the same state and answers with the
    first element of what the batch route answers for that address alone
    (and with the same error when [handleBatch] throws). *)
Theorem X4_routes_agree (E : env) (chain : option string) (a : string)
  (w : world) :
  plain a -> trimmed a ->
  tokeninfo E chain (Some (QString a)) w
  = match tokeninfo_batch E chain (Some a) w with
    | (Ok out, w', evs) => (Ok (nth_error out 0), w', evs)
    | (BadRequest _, w', evs) => (BadRequest "Missing address", w', evs)
    | (ServerError err, w', evs) => (ServerError err, w', evs)
    end.
Proof.
  intros Hp Ht.
  assert (Hparse : parse_addresses a = [a]).
  { apply (parse_addresses_join [a]). constructor; [now split|constructor]. }
  destruct Hp as [Hne _]. apply String.eqb_neq in Hne.
  unfold tokeninfo, tokeninfo_batch. rewrite Hne, Hparse. unfold respond.
  now destruct (handleBatch E [a] (chain_or_default chain) w)
    as [[[out|e] w1] ev1].
Qed.

Lemma X4_witness :
  tokeninfo Sample.down (Some "polygon") (Some (QString Sample.usdc))
            Sample.start
  = match tokeninfo_batch Sample.down (Some "polygon") (Some Sample.usdc)
                          Sample.start with
    | (Ok out, w', evs) => (Ok (nth_error out 0), w', evs)
    | (BadRequest _, w', evs) => (BadRequest "Missing address", w', evs)
    | (ServerError err, w', evs) => (ServerError err, w', evs)
    end.
Proof.
  apply (X4_routes_agree Sample.down (Some "polygon") Sample.usdc
           Sample.start).
  - split; [discriminate|reflexivity].
  - reflexivity.
Defined.

Lemma handleBatch_empty (E : env) (chain : option string) (w : world) :
  exists w' evs,
    handleBatch E [] chain w
    = (Ret [], w', CallLlama (resolveChainSlug chain) [] :: evs)
    /\ count is_onchain_call evs = 0
    /\ count is_search_call evs = 0.
Proof.
  unfold handleBatch, bind, try_catch, fetchFromDefiLlama. cbn [map].
  destruct (from_cache w _) as [[v w']|].
  - do 2 eexists. split; reflexivity || auto.
  - destruct (fetch E _ _) as [|[|] [j|]];
      do 2 eexists; (split; [reflexivity|]); auto.
Qed.

(** X5: an address list of blank entries only.  The batch route answers
    200 with the empty array, for every behaviour of the upstreams and
    every cache (nothing can make it fail); the bulk adapter is still
    called, with no address, and neither of the other adapters is. *)
Theorem X5_blank_list (E : env) (chain : option string) (s : string)
  (w : world) :
  s <> "" -> parse_addresses s = [] ->
  exists w' evs,
    tokeninfo_batch E chain (Some s) w
    = (Ok [], w', CallLlama (resolveChainSlug chain) [] :: evs)
    /\ count is_onchain_call evs = 0
    /\ count is_search_call evs = 0.
Proof.
  intros Hs Hp. rewrite (tokeninfo_batch_parsed E chain s w Hs), Hp.
  destruct (handleBatch_empty E (chain_or_default chain) w)
    as (w' & evs & Hrun & H1 & H2).
  unfold respond. rewrite Hrun, chain_or_default_slug. eauto.
Qed.

Lemma X5_witness :
  exists w' evs,
    tokeninfo_batch Sample.null_body None (Some " , ,") Sample.start
    = (Ok [], w', CallLlama (SlugStr "ethereum") [] :: evs).
Proof.
  destruct (X5_blank_list Sample.null_body None " , ," Sample.start)
    as (w' & evs & Hrun & _); [discriminate|reflexivity|].
  exists w', evs. exact Hrun.
Defined.

(* ------------------------------------------------------------------ *)
(** ** The formatter *)

Lemma upper_lower_ascii (c : ascii) :
  ascii_char c = true -> upper_ascii (lower_ascii c) = upper_ascii c.
Proof.
  destruct c as [[] [] [] [] [] [] [] []]; intros H;
    try discriminate H; reflexivity.
Qed.

(** upper-casing undoes lower-casing, on ASCII strings *)
Lemma toUpperCase_toLowerCase (s : string) :
  ascii_only s = true -> toUpperCase (toLowerCase s) = toUpperCase s.
Proof.
  unfold toLowerCase, toUpperCase.
  induction s as [|c r IH]; cbn [ascii_only map_string]; [reflexivity|].
  intros H. apply andb_prop in H as [Hc Hr].
  now rewrite (upper_lower_ascii c Hc), (IH Hr).
Qed.

Lemma toUpperCase_nonempty (s : string) : s <> "" -> toUpperCase s <> "".
Proof. destruct s; [congruence|discriminate]. Qed.

Lemma is_space_lower (c : ascii) : is_space (lower_ascii c) = is_space c.
Proof. destruct c as [[] [] [] [] [] [] [] []]; reflexivity. Qed.

Lemma toLowerCase_hyphenate (b : bool) (s : string) :
  toLowerCase (hyphenate b s) = hyphenate b (toLowerCase s).
Proof.
  unfold toLowerCase. revert b.
  induction s as [|c r IH]; intros b; cbn [hyphenate map_string];
    [reflexivity|].
  rewrite is_space_lower.
  destruct (is_space c); [destruct b|]; cbn [map_string]; now rewrite IH.
Qed.

Lemma spaceless_hyphenate (b : bool) (s : string) :
  spaceless (hyphenate b s) = true.
Proof.
  revert b. induction s as [|c r IH]; intros b; cbn [hyphenate];
    [reflexivity|].
  destruct (is_space c) eqn:Hc; [destruct b|]; cbn [spaceless]; rewrite ?Hc;
    simpl; apply IH.
Qed.

Lemma hyphenate_nonempty (s : string) : s <> "" -> replace_spaces s <> "".
Proof.
  destruct s as [|c r]; [congruence|]. intros _. unfold replace_spaces.
  cbn [hyphenate]. destruct (is_space c); discriminate.
Qed.

Lemma toLowerCase_nonempty (s : string) : s <> "" -> toLowerCase s <> "".
Proof. destruct s; [congruence|discriminate]. Qed.

Lemma present_text (o : option string) : present o = true -> text_of o <> "".
Proof.
  destruct o as [s|]; simpl; [|discriminate].
  intros H. apply negb_true_iff in H. now apply String.eqb_neq.
Qed.

Lemma derived_id_lower (name symbol : option string) (address : string) :
  toLowerCase (derived_id name symbol address) = derived_id name symbol address.
Proof.
  unfold derived_id, replace_spaces.
  destruct (present name); [|destruct (present symbol)];
    rewrite ?toLowerCase_hyphenate; now rewrite toLowerCase_idem.
Qed.

(** the record [formatTokenOutput] builds from strings and [null]s *)
Lemma formatTokenOutput_record (E : env) (name symbol : option string)
  (imageUrl : jsval) (address : string) :
  formatTokenOutput E (of_opt name) (of_opt symbol) imageUrl address
  = Ret (mkToken
           (derived_id name symbol address)
           (if present symbol then str (toLowerCase (text_of symbol))
            else null)
           (if present name then str (text_of name)
            else if present symbol
                 then str (toUpperCase (toLowerCase (text_of symbol)))
                 else null)
           (if truthy imageUrl then imageUrl else null)
           (normalizeAddress E address)).
Proof.
  unfold formatTokenOutput, derived_id, present, text_of, or_else, of_opt,
    str, null.
  destruct name as [n|], symbol as [s|]; simpl;
    try destruct (String.eqb n "") eqn:Hn;
    try destruct (String.eqb s "") eqn:Hs; simpl;
    repeat (rewrite ?toLowerCase_empty, ?toUpperCase_empty, ?Hn, ?Hs; simpl);
    reflexivity.
Qed.

(** X6: what [formatTokenOutput] emits for a name and a symbol that are
    strings or [null].  The symbol is emitted lower-cased, or [null] when
    it is missing or empty; the name is the given name, and when that is
    missing or empty the upper case of the lower-cased symbol, which for a
    symbol of ASCII characters is the symbol upper-cased, and [null] when
    both are missing; the image is the given value when it is truthy and
    [null] otherwise; the address goes through [normalizeAddress]. *)
Theorem X6_emitted_fields (E : env) (n s : option string)
  (imageUrl : jsval) (address : string) :
  exists r,
    formatTokenOutput E (of_opt n) (of_opt s) imageUrl address = Ret r
    /\ symbol r = (if present s then str (toLowerCase (text_of s)) else null)
    /\ name r = (if present n then str (text_of n)
                 else if present s
                      then str (toUpperCase (toLowerCase (text_of s)))
                      else null)
    /\ (present n = false -> present s = true ->
        ascii_only (text_of s) = true ->
        name r = str (toUpperCase (text_of s)))
    /\ image r = (if truthy imageUrl then imageUrl else null)
    /\ contractAddress r = normalizeAddress E address.
Proof.
  eexists. split; [apply formatTokenOutput_record|]. cbn [symbol name image
    contractAddress]. repeat split.
  intros Hn Hs Ha. rewrite Hn, Hs. now rewrite toUpperCase_toLowerCase.
Qed.

(** the symbol [weth] without a name is emitted with the name [WETH] *)
Lemma X6_witness :
  exists r,
    formatTokenOutput Sample.down (of_opt None) (of_opt (Some "weth")) null
                      Sample.dai = Ret r
    /\ name r = str "WETH".
Proof.
  destruct (X6_emitted_fields Sample.down None (Some "weth") null Sample.dai)
    as (r & Hr & _ & _ & H & _).
  exists r. split; [exact Hr|]. exact (H eq_refl eq_refl eq_refl).
Defined.

(** X7: the shape of the id, for a name and a symbol that are strings or
    [null].  The id is always lower case; when a name or a symbol is
    present it holds no white space and is not empty; and it is not empty
    whenever the address is not. *)
Theorem X7_id_shape (E : env) (n s : option string) (imageUrl : jsval)
  (address : string) :
  exists r,
    formatTokenOutput E (of_opt n) (of_opt s) imageUrl address = Ret r
    /\ toLowerCase (id r) = id r
    /\ (present n || present s = true ->
        spaceless (id r) = true /\ id r <> "")
    /\ (address <> "" -> id r <> "").
Proof.
  eexists. split; [apply formatTokenOutput_record|]. cbn [id].
  split; [apply derived_id_lower|]. unfold derived_id, replace_spaces.
  split.
  - intros H. destruct (present n) eqn:Hn.
    + split; [apply spaceless_hyphenate|].
      now apply hyphenate_nonempty, toLowerCase_nonempty, present_text.
    + simpl in H. rewrite H. split; [apply spaceless_hyphenate|].
      now apply hyphenate_nonempty, toLowerCase_nonempty,
        toUpperCase_nonempty, toLowerCase_nonempty, present_text.
  - intros Ha. destruct (present n) eqn:Hn; [|destruct (present s) eqn:Hs].
    + now apply hyphenate_nonempty, toLowerCase_nonempty, present_text.
    + now apply hyphenate_nonempty, toLowerCase_nonempty,
        toUpperCase_nonempty, toLowerCase_nonempty, present_text.
    + now apply toLowerCase_nonempty.
Qed.

Lemma X7_witness :
  exists r,
    formatTokenOutput Sample.down (of_opt (Some "Wrapped  Ether"))
                      (of_opt (Some "WETH")) null Sample.dai = Ret r
    /\ spaceless (id r) = true /\ id r <> "".
Proof.
  destruct (X7_id_shape Sample.down (Some "Wrapped  Ether") (Some "WETH")
              null Sample.dai) as (r & Hr & _ & H & _).
  exists r. split; [exact Hr|]. apply H. reflexivity.
Defined.

(** X8: when [formatTokenOutput] fails.  It throws, and then a TypeError,
    exactly when the name or the symbol it is given is truthy without being
    a string; an image of any kind never makes it fail. *)
Theorem X8_formatter_failure (E : env) (rawName rawSymbol imageUrl : jsval)
  (address : string) :
  match formatTokenOutput E rawName rawSymbol imageUrl address with
  | Ret _ => unusable rawName = false /\ unusable rawSymbol = false
  | Throw err =>
      err = TypeError /\ (unusable rawName = true \/ unusable rawSymbol = true)
  end.
Proof.
  unfold formatTokenOutput, unusable, or_else.
  destruct rawSymbol as [[|[|]|z|x|l|l]|]; simpl;
    try destruct (Z.eqb z 0) eqn:Hz; try destruct (String.eqb x "") eqn:Hx;
    simpl; auto;
    rewrite ?toLowerCase_empty, ?Hx; simpl;
    destruct rawName as [[|[|]|z'|y|l'|l']|]; simpl;
    try destruct (Z.eqb z' 0) eqn:Hz'; try destruct (String.eqb y "") eqn:Hy;
    simpl;
    repeat (rewrite ?toUpperCase_empty, ?toLowerCase_empty, ?Hx, ?Hy, ?Hz';
            simpl);
    auto.
Qed.

(* ------------------------------------------------------------------ *)
(** ** Chain resolution *)

Lemma resolveChainSlug_lower (c : string) :
  resolveChainSlug (Some (toLowerCase c)) = resolveChainSlug (Some c).
Proof.
  unfold resolveChainSlug. now rewrite toLowerCase_empty, toLowerCase_idem.
Qed.

Lemma resolveChainSlug_upper (c : string) :
  ascii_only c = true ->
  resolveChainSlug (Some (toUpperCase c)) = resolveChainSlug (Some c).
Proof.
  intros H. unfold resolveChainSlug.
  now rewrite toUpperCase_empty, (toLowerCase_toUpperCase c H).
Qed.

Lemma assoc_CHAIN_MAP_values (k v : string) :
  assoc k CHAIN_MAP = Some v ->
  In v ["ethereum"; "polygon"; "bsc"; "arbitrum"; "optimism"; "avalanche";
        "base"; "fantom"].
Proof.
  unfold CHAIN_MAP. cbn [assoc].
  repeat (destruct (String.eqb k _); [intros [= <-]; simpl; tauto|]).
  discriminate.
Qed.

Lemma resolveChainSlug_stable (chainInput : option string) (s : string) :
  resolveChainSlug chainInput = SlugStr s ->
  s <> "" /\ toLowerCase s = s /\ resolveChainSlug (Some s) = SlugStr s.
Proof.
  assert (Heth : "ethereum" <> "" /\ toLowerCase "ethereum" = "ethereum"
                 /\ resolveChainSlug (Some "ethereum") = SlugStr "ethereum").
  { repeat split. discriminate. }
  unfold resolveChainSlug at 1. destruct chainInput as [c|].
  - destruct (String.eqb c "") eqn:Hc; [now intros [= <-]|].
    unfold chain_map_get.
    destruct (assoc (toLowerCase c) CHAIN_MAP) as [v|] eqn:Hv.
    + intros [= <-]. apply assoc_CHAIN_MAP_values in Hv.
      simpl in Hv.
      repeat (destruct Hv as [<-|Hv];
              [repeat split; discriminate || reflexivity|]).
      contradiction.
    + destruct (String.eqb (toLowerCase c) "constructor") eqn:H1;
        [discriminate|].
      destruct (String.eqb (toLowerCase c) "__proto__") eqn:H2;
        [discriminate|].
      intros [= <-]. split; [|split].
      * apply toLowerCase_nonempty. now apply String.eqb_neq.
      * apply toLowerCase_idem.
      * unfold resolveChainSlug, chain_map_get.
        now rewrite toLowerCase_empty, Hc, toLowerCase_idem, Hv, H1, H2.
  - now intros [= <-].
Qed.

(** X9: the chain slug is canonical.  Lower-casing the input of the
    resolution changes nothing, and for an input of ASCII characters
    neither does upper-casing it; a slug it returns as a string is never
    empty, is lower case, and resolves to itself, so resolving twice
    changes nothing. *)
Theorem X9_chain_slug_canonical (c : string) (chainInput : option string)
  (s : string) :
  (ascii_only c = true ->
   resolveChainSlug (Some (toUpperCase c)) = resolveChainSlug (Some c))
  /\ resolveChainSlug (Some (toLowerCase c)) = resolveChainSlug (Some c)
  /\ (resolveChainSlug chainInput = SlugStr s ->
      s <> "" /\ toLowerCase s = s /\ resolveChainSlug (Some s) = SlugStr s).
Proof.
  split; [apply resolveChainSlug_upper|].
  split; [apply resolveChainSlug_lower|apply resolveChainSlug_stable].
Qed.

Lemma X9_witness :
  resolveChainSlug (Some (toUpperCase "Polygon"))
  = resolveChainSlug (Some "Polygon")
  /\ "avalanche" <> "" /\ toLowerCase "avalanche" = "avalanche"
  /\ resolveChainSlug (Some "avalanche") = SlugStr "avalanche".
Proof.
  destruct (X9_chain_slug_canonical "Polygon" (Some "AVAX") "avalanche")
    as (H1 & _ & H3).
  split; [exact (H1 eq_refl)|exact (H3 eq_refl)].
Defined.

(* ------------------------------------------------------------------ *)
(** ** Letter case of the input of a batch *)

(** X10: [handleBatch] ignores the letter case of its input: two batches
    whose addresses and chain identifiers are equal up to letter case do
    the same lookups under the same cache keys and return the same
    records. *)
Theorem X10_case_insensitive (E : env) (l1 l2 : list string) (c1 c2 : string)
  (w : world) :
  map toLowerCase l1 = map toLowerCase l2 ->
  toLowerCase c1 = toLowerCase c2 ->
  handleBatch E l1 (Some c1) w = handleBatch E l2 (Some c2) w.
Proof.
  intros Hl Hc. unfold handleBatch.
  rewrite <- (resolveChainSlug_lower c1), <- (resolveChainSlug_lower c2).
  now rewrite Hl, Hc.
Qed.

Lemma X10_witness :
  handleBatch Sample.healthy [Sample.usdc_checksummed] (Some "Polygon")
              Sample.start
  = handleBatch Sample.healthy [Sample.usdc] (Some "POLYGON") Sample.start.
Proof.
  apply (X10_case_insensitive Sample.healthy [Sample.usdc_checksummed]
           [Sample.usdc] "Polygon" "POLYGON" Sample.start); reflexivity.
Defined.

(* ------------------------------------------------------------------ *)
(** ** How much a batch asks of the upstreams *)















(* ------------------------------------------------------------------ *)
(** ** The cache as the batch leaves it *)

(** what holds of the cache after a hit and after a store holds after an
    adapter call *)
Lemma preserves_through_cache_steps (P : Lru.store -> Prop) (E : env)
  (key : string) (call : event) (s : source)
  (upstream : nat -> outcome jsval + json) :
  (forall c e, P c -> Lru.find key c = Some e -> P (e :: Lru.remove key c)) ->
  (forall t v c, P c -> P (Lru.set t key v c)) ->
  preserves P (through_cache E key call s upstream).
Proof.
  intros Htouch Hset w r w' evs. unfold through_cache.
  destruct (from_cache w key) as [[v wh]|] eqn:Hc.
  - apply from_cache_some in Hc as (e & Hf & _ & _ & ->).
    intros [= _ <- _] HP. now apply Htouch.
  - destruct (upstream (calls w)) as [r0|j]; intros [= _ <- _] HP.
    + exact HP.
    + now apply Hset.
Qed.

Lemma known_prefix_llama (c : slug) (l : list string) :
  known_prefix (llama_key c l) = true.
Proof.
  unfold known_prefix, llama_key. now rewrite (prefix_append "llama:").
Qed.

Lemma known_prefix_onchain (a : string) : known_prefix (onchain_key a) = true.
Proof.
  unfold known_prefix, onchain_key. rewrite (prefix_append "onchain:").
  now rewrite orb_true_r.
Qed.

Lemma known_prefix_coingecko (sym : string) :
  known_prefix (coingecko_key sym) = true.
Proof.
  unfold known_prefix, coingecko_key. rewrite (prefix_append "cg:").
  now rewrite orb_true_r.
Qed.

Lemma preserves_adapters (P : Lru.store -> Prop) (E : env) :
  (forall k c e, P c -> Lru.find k c = Some e -> P (e :: Lru.remove k c)) ->
  (forall t k v c, known_prefix k = true -> P c -> P (Lru.set t k v c)) ->
  forall addresses chainInput,
    preserves P (handleBatch E addresses chainInput).
Proof.
  intros Htouch Hset. apply preserves_handleBatch.
  - intros a. eapply preserves_ext;
      [apply fetchOnChainNameSymbol_through_cache|].
    apply preserves_through_cache_steps; [apply Htouch|].
    intros t v c. apply Hset;
      auto using known_prefix_onchain, known_prefix_coingecko.
  - intros [[| | |sym| |]|]; try (now intros w r w' evs [= _ <- _]).
    eapply preserves_ext; [apply fetchFromCoinGeckoBySymbol_through_cache|].
    apply preserves_through_cache_steps; [apply Htouch|].
    intros t v c. apply Hset;
      auto using known_prefix_onchain, known_prefix_coingecko.
  - intros c l. eapply preserves_ext;
      [apply fetchFromDefiLlama_through_cache|].
    apply preserves_through_cache_steps; [apply Htouch|].
    intros t v c0. apply Hset. apply known_prefix_llama.
Qed.

Lemma remove_keys (k : string) (c : Lru.store) :
  ~ In k (map Lru.ekey (Lru.remove k c)).
Proof.
  intros H. apply in_map_iff in H as (e & He & Hin).
  unfold Lru.remove in Hin. apply filter_In in Hin as [_ Hin].
  apply negb_true_iff, String.eqb_neq in Hin. contradiction.
Qed.

Lemma NoDup_remove (k : string) (c : Lru.store) :
  NoDup (map Lru.ekey c) -> NoDup (map Lru.ekey (Lru.remove k c)).
Proof.
  induction c as [|x c IH]; simpl; [auto|].
  intros H. inversion H as [|? ? Hx Hc]; subst.
  destruct (negb (String.eqb (Lru.ekey x) k)); simpl; [|auto].
  constructor; [|auto].
  intros Hin. apply Hx. apply in_map_iff in Hin as (e & He & Hin).
  apply in_map_iff. exists e. split; [exact He|].
  now apply (incl_remove k).
Qed.

Lemma NoDup_firstn {A} (n : nat) (l : list A) : NoDup l -> NoDup (firstn n l).
Proof.
  revert n. induction l as [|x l IH]; intros [|n] H; simpl;
    try constructor; inversion H; subst; auto.
  intros Hin. apply in_firstn in Hin. contradiction.
Qed.

Lemma cache_wf_touch (k : string) (c : Lru.store) (e : Lru.entry) :
  cache_wf c -> Lru.find k c = Some e -> cache_wf (e :: Lru.remove k c).
Proof.
  intros [Hnd Hlen] Hf. split.
  - simpl. constructor.
    + rewrite (find_key _ _ _ Hf). apply remove_keys.
    + now apply NoDup_remove.
  - pose proof (remove_shrinks _ _ _ Hf). simpl. lia.
Qed.

Lemma cache_wf_set (t : N) (k : string) (v : json) (c : Lru.store) :
  cache_wf c -> cache_wf (Lru.set t k v c).
Proof.
  intros [Hnd Hlen]. unfold Lru.set. split.
  - rewrite <- firstn_map. apply NoDup_firstn.
    cbn [map Lru.ekey]. constructor; [apply remove_keys|].
    now apply NoDup_remove.
  - apply firstn_le_length.
Qed.

(** X12: the cache stays as the service built it.  From a cache with one
    entry per key, at most 5000 entries, and only keys of the three
    adapters ([llama:], [onchain:], [cg:]) (the empty cache the service
    starts with is one), a batch leaves such a cache, however it ends. *)
Theorem X12_cache_invariant (E : env) (addresses : list string)
  (chainInput : option string) (w w' : world)
  (r : outcome (list TokenRecord)) (evs : list event) :
  cache_wf (cache w) -> namespaced (cache w) ->
  handleBatch E addresses chainInput w = (r, w', evs) ->
  cache_wf (cache w') /\ namespaced (cache w').
Proof.
  intros Hwf Hns Hrun. split.
  - refine (preserves_adapters cache_wf E _ _ addresses chainInput
              w r w' evs Hrun Hwf).
    + intros k c e. apply cache_wf_touch.
    + intros t k v c _. apply cache_wf_set.
  - refine (preserves_adapters namespaced E _ _ addresses chainInput
              w r w' evs Hrun Hns).
    + intros k c e H Hf. now apply all_entries_touch.
    + intros t k v c Hk H. now apply all_entries_set.
Qed.

Lemma X12_witness :
  exists r w' evs,
    handleBatch Sample.healthy [Sample.usdc; Sample.dai] None Sample.start
    = (r, w', evs)
    /\ cache_wf (cache w') /\ namespaced (cache w').
Proof.
  destruct (handleBatch Sample.healthy [Sample.usdc; Sample.dai] None
              Sample.start) as [[r w'] evs] eqn:Hrun.
  exists r, w', evs. split; [reflexivity|].
  apply (X12_cache_invariant Sample.healthy [Sample.usdc; Sample.dai] None
           Sample.start w' r evs).
  - split; [constructor|apply Nat.le_0_l].
  - intros e [].
  - exact Hrun.
Defined.

(* ------------------------------------------------------------------ *)
(** ** The entries a batch may write *)

Lemma writes_only_lift (own : string -> Prop) {A} (o : outcome A) :
  writes_only own (lift o).
Proof. intros w r w' evs [= _ <- _] k e H. now left. Qed.

Lemma writes_only_ret (own : string -> Prop) {A} (a : A) :
  writes_only own (ret a).
Proof. apply (writes_only_lift own (Ret a)). Qed.

Lemma writes_only_bind (own : string -> Prop) {A B} (m : M A)
  (k : A -> M B) :
  writes_only own m -> (forall a, writes_only own (k a)) ->
  writes_only own (bind m k).
Proof.
  intros Hm Hk w r w' evs. unfold bind.
  destruct (m w) as [[[a|e] w1] ev1] eqn:Em.
  - destruct (k a w1) as [[r2 w2] ev2] eqn:Ek. intros [= _ <- _] key x Hx.
    destruct (Hk a _ _ _ _ Ek key x Hx) as [H1|H1]; [|now right].
    exact (Hm _ _ _ _ Em key x H1).
  - intros [= _ <- _]. exact (Hm _ _ _ _ Em).
Qed.

Lemma writes_only_try_catch (own : string -> Prop) {A} (m : M A)
  (otherwise : exn -> A) :
  writes_only own m -> writes_only own (try_catch m otherwise).
Proof.
  intros Hm w r w' evs. unfold try_catch.
  destruct (m w) as [[[a|e] w1] ev1] eqn:Em; intros [= _ <- _];
    exact (Hm _ _ _ _ Em).
Qed.

Lemma writes_only_weaken (own own' : string -> Prop) {A} (m : M A) :
  (forall k, own k -> own' k) -> writes_only own m -> writes_only own' m.
Proof.
  intros Hsub Hm w r w' evs Hrun k e Hf.
  destruct (Hm _ _ _ _ Hrun k e Hf); auto.
Qed.

Lemma writes_only_ext (own : string -> Prop) {A} (m m' : M A) :
  (forall w, m w = m' w) -> writes_only own m' -> writes_only own m.
Proof. intros Heq Hm w r w' evs H. rewrite Heq in H. eauto. Qed.

Lemma find_firstn_some (k : string) (n : nat) (c : Lru.store)
  (e : Lru.entry) :
  Lru.find k (firstn n c) = Some e -> Lru.find k c = Some e.
Proof.
  revert n. induction c as [|x c IH]; intros [|n]; simpl; try discriminate.
  destruct (String.eqb (Lru.ekey x) k); [auto|apply IH].
Qed.

Lemma writes_only_through_cache (E : env) (key : string) (call : event)
  (s : source) (upstream : nat -> outcome jsval + json) :
  writes_only (eq key) (through_cache E key call s upstream).
Proof.
  intros w r w' evs. unfold through_cache.
  destruct (from_cache w key) as [[v wh]|] eqn:Hc.
  - apply from_cache_some in Hc as (e & Hf & _ & _ & ->).
    intros [= _ <- _] k x Hx. left.
    cbn [cache with_cache] in Hx. now rewrite (find_touch _ k _ _ Hf) in Hx.
  - destruct (upstream (calls w)) as [r0|j]; intros [= _ <- _] k x Hx.
    + now left.
    + cbn [cache cache_set with_cache tick] in Hx.
      unfold Lru.set in Hx. apply find_firstn_some in Hx.
      destruct (String.eqb key k) eqn:Hk.
      * right. now apply String.eqb_eq.
      * left. cbn [Lru.find Lru.ekey] in Hx. rewrite Hk in Hx.
        apply String.eqb_neq in Hk.
        rewrite find_remove_other in Hx; [exact Hx|congruence].
Qed.

(** the keys a batch for [addresses] on [chainSlug] may write *)
Lemma writes_only_resolve_all (E : env) (own : string -> Prop)
  (chainSlug : slug) (llamaData : jsval) :
  (forall sym, own (coingecko_key sym)) ->
  forall addrs results,
    (forall a, In a addrs -> own (onchain_key a)) ->
    writes_only own (resolve_all E chainSlug llamaData addrs results).
Proof.
  intros Hcg addrs.
  induction addrs as [|a rest IH]; intros results Hon;
    cbn [resolve_all].
  - apply writes_only_ret.
  - apply writes_only_bind; [|intros r; apply IH; intros b Hb; apply Hon;
                               now right].
    unfold resolve_address.
    apply writes_only_bind; [apply writes_only_lift|]. intros [[n0 s0] i0].
    apply writes_only_bind.
    { unfold onchain_step.
      destruct (negb (truthy n0) || negb (truthy s0));
        [|apply writes_only_ret].
      apply writes_only_bind.
      - eapply writes_only_ext;
          [apply fetchOnChainNameSymbol_through_cache|].
        eapply writes_only_weaken; [|apply writes_only_through_cache].
        intros k <-. apply Hon. now left.
      - intros v. apply writes_only_bind; [apply writes_only_lift|].
        intros n1. apply writes_only_bind; [apply writes_only_lift|].
        intros s1. apply writes_only_ret. }
    intros [n1 s1].
    apply writes_only_bind.
    { unfold coingecko_step.
      destruct (negb (truthy i0) && truthy s1); [|apply writes_only_ret].
      apply writes_only_bind.
      - destruct s1 as [[| | |sym| |]|];
          try (intros w r w' evs [= _ <- _] k e H; now left).
        eapply writes_only_ext;
          [apply fetchFromCoinGeckoBySymbol_through_cache|].
        eapply writes_only_weaken; [|apply writes_only_through_cache].
        intros k <-. apply Hcg.
      - intros v. apply writes_only_bind; [apply writes_only_lift|].
        intros i1. apply writes_only_ret. }
    intros [n2 i2]. apply writes_only_lift.
Qed.

Lemma onchain_key_lower (a : string) :
  onchain_key (toLowerCase a) = onchain_key a.
Proof. unfold onchain_key. now rewrite toLowerCase_idem. Qed.

(** X13: the entries a batch may write.  Whatever the cache finds under a
    key after a batch, it found before the batch, unless the key is the
    bulk key of this batch, the on-chain key of one of its addresses, or a
    search key.  So a batch neither creates nor changes the bulk entry of
    another batch or the on-chain entry of an address it was not asked
    for. *)
Theorem X13_entries_written (E : env) (addresses : list string)
  (chainInput : option string) (w w' : world)
  (r : outcome (list TokenRecord)) (evs : list event)
  (k : string) (e : Lru.entry) :
  handleBatch E addresses chainInput w = (r, w', evs) ->
  Lru.find k (cache w') = Some e ->
  Lru.find k (cache w) = Some e
  \/ k = llama_key (resolveChainSlug chainInput) (map toLowerCase addresses)
  \/ (exists a, In a addresses /\ k = onchain_key a)
  \/ (exists sym, k = coingecko_key sym).
Proof.
  intros Hrun Hf.
  set (own := fun k =>
    k = llama_key (resolveChainSlug chainInput) (map toLowerCase addresses)
    \/ (exists a, In a addresses /\ k = onchain_key a)
    \/ (exists sym, k = coingecko_key sym)).
  assert (H : writes_only own (handleBatch E addresses chainInput)).
  { unfold handleBatch. apply writes_only_bind.
    - apply writes_only_try_catch.
      eapply writes_only_ext; [apply fetchFromDefiLlama_through_cache|].
      eapply writes_only_weaken; [|apply writes_only_through_cache].
      intros key <-. now left.
    - intros ld. apply writes_only_resolve_all.
      + intros sym. right. right. now exists sym.
      + intros a Ha. apply in_map_iff in Ha as (b & <- & Hb).
        right. left. exists b. split; [exact Hb|apply onchain_key_lower]. }
  exact (H w r w' evs Hrun k e Hf).
Qed.

Lemma X13_witness :
  exists e,
    Lru.find (onchain_key Sample.usdc)
      (cache (snd (fst (handleBatch Sample.healthy [Sample.usdc] None
                          Sample.start)))) = Some e
    /\ (Lru.find (onchain_key Sample.usdc) (cache Sample.start) = Some e
        \/ onchain_key Sample.usdc
           = llama_key (resolveChainSlug None) (map toLowerCase [Sample.usdc])
        \/ (exists a, In a [Sample.usdc]
                      /\ onchain_key Sample.usdc = onchain_key a)
        \/ (exists sym, onchain_key Sample.usdc = coingecko_key sym)).
Proof.
  eexists. split; [vm_compute; reflexivity|].
  apply (X13_entries_written Sample.healthy [Sample.usdc] None Sample.start
           (snd (fst (handleBatch Sample.healthy [Sample.usdc] None
                        Sample.start)))
           (fst (fst (handleBatch Sample.healthy [Sample.usdc] None
                        Sample.start)))
           (snd (handleBatch Sample.healthy [Sample.usdc] None
                   Sample.start))).
  - now destruct (handleBatch Sample.healthy [Sample.usdc] None Sample.start)
      as [[r w'] evs].
  - vm_compute. reflexivity.
Defined.

(* ------------------------------------------------------------------ *)
(** ** Entries older than the time to live *)

Lemma stale_later (t t' : N) (e : Lru.entry) :
  (t <= t')%N -> Lru.is_stale t e = true -> Lru.is_stale t' e = true.
Proof.
  unfold Lru.is_stale. intros H S.
  apply N.ltb_lt in S. apply N.ltb_lt. lia.
Qed.

Lemma expired_later (t t' : N) (s : Lru.store) :
  (t <= t')%N -> expired t s -> expired t' s.
Proof. intros H Hs e He. eapply stale_later; eauto. Qed.

Lemma expired_remove (t : N) (k : string) (s : Lru.store) :
  expired t s -> expired t (Lru.remove k s).
Proof. intros Hs e He. apply Hs. now apply (incl_remove k). Qed.

Lemma find_app (k : string) (a b : Lru.store) :
  Lru.find k (a ++ b)%list
  = match Lru.find k a with
    | Some e => Some e
    | None => Lru.find k b
    end.
Proof.
  induction a as [|x a IH]; cbn [Lru.find app]; [reflexivity|].
  now destruct (String.eqb (Lru.ekey x) k).
Qed.

Lemma remove_app (k : string) (a b : Lru.store) :
  Lru.remove k (a ++ b)%list = (Lru.remove k a ++ Lru.remove k b)%list.
Proof. apply filter_app. Qed.

Lemma firstn_firstn_app {A} (n : nat) (a b : list A) :
  firstn n (firstn n a ++ b)%list = firstn n (a ++ b)%list.
Proof.
  destruct (le_lt_dec n (length a)) as [H|H].
  - rewrite !firstn_app, firstn_firstn, Nat.min_id, length_firstn.
    replace (n - Nat.min n (length a)) with 0 by lia.
    replace (n - length a) with 0 by lia. reflexivity.
  - rewrite (firstn_all2 a); [reflexivity|lia].
Qed.

Lemma has_expired (t : N) (k : string) (c s : Lru.store) :
  expired t s -> Lru.has t k (c ++ s)%list = Lru.has t k c.
Proof.
  intros Hs. unfold Lru.has. rewrite find_app.
  destruct (Lru.find k c) as [e|]; [reflexivity|].
  destruct (Lru.find k s) as [e|] eqn:Hf; [|reflexivity].
  rewrite (Hs e); [reflexivity|]. eapply find_in; eauto.
Qed.

Lemma from_cache_none (w : world) (k : string) :
  from_cache w k = None <-> Lru.has (now w) k (cache w) = false.
Proof.
  unfold from_cache. destruct (Lru.has (now w) k (cache w)).
  - destruct (Lru.get (now w) k (cache w)). split; discriminate.
  - tauto.
Qed.

(** the cache of the shadow: the entries of the original, then expired
    ones, within the capacity *)
Lemma shadows_cache (w w' : world) :
  shadows w w' ->
  exists s, expired (now w) s
            /\ cache w' = (cache w ++ s)%list
            /\ length (cache w ++ s)%list <= Lru.MAX.
Proof.
  intros (_ & _ & Hlen & s & Hs & Hc).
  exists (firstn (Lru.MAX - length (cache w)) s). split; [|split].
  - intros e He. apply Hs. eapply in_firstn; eauto.
  - rewrite Hc, firstn_app. f_equal. now apply firstn_all2.
  - rewrite length_app, length_firstn. lia.
Qed.

Lemma shadows_intro (w w' : world) (s : Lru.store) :
  now w' = now w -> calls w' = calls w -> expired (now w) s ->
  cache w' = (cache w ++ s)%list ->
  length (cache w ++ s)%list <= Lru.MAX ->
  shadows w w'.
Proof.
  intros Hn Hk Hs Hc Hlen. split; [exact Hn|]. split; [exact Hk|].
  split; [rewrite length_app in Hlen; lia|].
  exists s. split; [exact Hs|]. rewrite Hc. symmetry. now apply firstn_all2.
Qed.

Lemma oblivious_lift {A} (o : outcome A) : oblivious (lift o).
Proof. intros w1 w2 r w1' evs Hs [= <- <- <-]. now exists w2. Qed.

Lemma oblivious_ret {A} (a : A) : oblivious (ret a).
Proof. apply (oblivious_lift (Ret a)). Qed.

Lemma oblivious_bind {A B} (m : M A) (k : A -> M B) :
  oblivious m -> (forall a, oblivious (k a)) -> oblivious (bind m k).
Proof.
  intros Hm Hk w1 w2 r w1' evs Hs. unfold bind.
  destruct (m w1) as [[[a|e] wa] ev1] eqn:Em.
  - destruct (k a wa) as [[r2 wb] ev2] eqn:Ek. intros [= <- <- <-].
    destruct (Hm _ _ _ _ _ Hs Em) as (wa' & -> & Hsa).
    destruct (Hk a _ _ _ _ _ Hsa Ek) as (wb' & -> & Hsb).
    now exists wb'.
  - intros [= <- <- <-].
    destruct (Hm _ _ _ _ _ Hs Em) as (wa' & -> & Hsa).
    now exists wa'.
Qed.

Lemma oblivious_try_catch {A} (m : M A) (otherwise : exn -> A) :
  oblivious m -> oblivious (try_catch m otherwise).
Proof.
  intros Hm w1 w2 r w1' evs Hs. unfold try_catch.
  destruct (m w1) as [[[a|e] wa] ev1] eqn:Em; intros [= <- <- <-];
    destruct (Hm _ _ _ _ _ Hs Em) as (wa' & -> & Hsa); now exists wa'.
Qed.

Lemma oblivious_ext {A} (m m' : M A) :
  (forall w, m w = m' w) -> oblivious m' -> oblivious m.
Proof.
  intros Heq Hm w1 w2 r w1' evs Hs H. rewrite Heq in H.
  destruct (Hm _ _ _ _ _ Hs H) as (w2' & H2 & Hs2).
  exists w2'. now rewrite Heq.
Qed.

Lemma oblivious_through_cache (E : env) (key : string) (call : event)
  (s : source) (upstream : nat -> outcome jsval + json) :
  oblivious (through_cache E key call s upstream).
Proof.
  intros w1 w2 r w1' evs Hsh.
  destruct (shadows_cache _ _ Hsh) as (old & Hold & Hc2 & Hlen).
  destruct Hsh as (Hn & Hk & Hlen1 & _).
  unfold through_cache.
  destruct (from_cache w1 key) as [[v wh]|] eqn:Hc.
  - apply from_cache_some in Hc as (e & Hf & Hst & -> & ->).
    intros [= <- <- <-].
    assert (Hf2 : Lru.find key (cache w2) = Some e)
      by now rewrite Hc2, find_app, Hf.
    rewrite (from_cache_hit w2 key e Hf2); [|now rewrite Hn].
    eexists. split; [reflexivity|].
    apply (shadows_intro _ _ (Lru.remove key old));
      cbn [now calls cache with_cache]; auto.
    + now apply expired_remove.
    + now rewrite Hc2, remove_app.
    + pose proof (remove_shrinks _ _ _ Hf2) as Hr.
      rewrite Hc2, remove_app in Hr. cbn [length app]. lia.
  - apply from_cache_none in Hc.
    assert (Hc' : from_cache w2 key = None).
    { apply from_cache_none. rewrite Hn, Hc2. now rewrite has_expired. }
    rewrite Hc', Hk.
    assert (Hle : (now w1 <= now w1 + latency E (calls w1))%N) by lia.
    destruct (upstream (calls w1)) as [r0|j]; intros [= <- <- <-];
      (eexists; split; [reflexivity|]).
    + apply (shadows_intro _ _ old); cbn [now calls cache tick];
        try congruence.
      now apply (expired_later (now w1)).
    + split; [cbn [now calls cache tick cache_set with_cache]; congruence|].
      split; [cbn [now calls cache tick cache_set with_cache]; congruence|].
      split.
      { cbn [now calls cache tick cache_set with_cache]. unfold Lru.set.
        apply firstn_le_length. }
      exists (Lru.remove key old). split.
      { cbn [now calls cache tick cache_set with_cache].
        apply expired_remove. now apply (expired_later (now w1)). }
      cbn [now calls cache tick cache_set with_cache].
      rewrite Hn, Hk, Hc2. unfold Lru.set.
      rewrite remove_app, firstn_firstn_app. reflexivity.
Qed.

Lemma oblivious_handleBatch (E : env) (addresses : list string)
  (chainInput : option string) :
  oblivious (handleBatch E addresses chainInput).
Proof.
  unfold handleBatch. apply oblivious_bind.
  { apply oblivious_try_catch.
    eapply oblivious_ext; [apply fetchFromDefiLlama_through_cache|].
    apply oblivious_through_cache. }
  intros ld. generalize (@nil TokenRecord) as results.
  induction (map toLowerCase addresses) as [|a rest IH]; intros results;
    cbn [resolve_all].
  { apply oblivious_ret. }
  apply oblivious_bind; [|intros r; apply IH].
  unfold resolve_address.
  apply oblivious_bind; [apply oblivious_lift|]. intros [[n0 s0] i0].
  apply oblivious_bind.
  { unfold onchain_step.
    destruct (negb (truthy n0) || negb (truthy s0)); [|apply oblivious_ret].
    apply oblivious_bind.
    - eapply oblivious_ext; [apply fetchOnChainNameSymbol_through_cache|].
      apply oblivious_through_cache.
    - intros v. apply oblivious_bind; [apply oblivious_lift|].
      intros n1. apply oblivious_bind; [apply oblivious_lift|].
      intros s1. apply oblivious_ret. }
  intros [n1 s1].
  apply oblivious_bind.
  { unfold coingecko_step.
    destruct (negb (truthy i0) && truthy s1); [|apply oblivious_ret].
    apply oblivious_bind.
    - destruct s1 as [[| | |sym| |]|];
        try (intros w1 w2 r w1' evs Hs [= <- <- <-]; now exists w2).
      eapply oblivious_ext; [apply fetchFromCoinGeckoBySymbol_through_cache|].
      apply oblivious_through_cache.
    - intros v. apply oblivious_bind; [apply oblivious_lift|].
      intros i1. apply oblivious_ret. }
  intros [n2 i2]. apply oblivious_lift.
Qed.

(** X14: an entry older than one hour is as good as absent.  When every
    entry of the cache has outlived the time to live, a batch does what it
    does from the empty cache at the same time: the same outcome, the same
    adapter calls and upstream lookups in the same order; and what the
    cache then holds after the run from the empty cache, it holds after
    the run from the expired one. *)
Theorem X14_expired_entries_ignored (E : env) (addresses : list string)
  (chainInput : option string) (w w0 : world)
  (r : outcome (list TokenRecord)) (evs : list event) :
  expired (now w) (cache w) -> length (cache w) <= Lru.MAX ->
  handleBatch E addresses chainInput (with_cache w []) = (r, w0, evs) ->
  exists w',
    handleBatch E addresses chainInput w = (r, w', evs)
    /\ now w' = now w0 /\ calls w' = calls w0
    /\ extends (cache w0) (cache w').
Proof.
  intros Hexp Hlen Hrun.
  assert (Hsh : shadows (with_cache w []) w).
  { apply (shadows_intro _ _ (cache w)); auto. }
  destruct (oblivious_handleBatch E addresses chainInput _ _ _ _ _ Hsh Hrun)
    as (w' & Hrun' & Hsh').
  exists w'. split; [exact Hrun'|].
  destruct (shadows_cache _ _ Hsh') as (old & _ & Hc & _).
  destruct Hsh' as (Hn & Hk & _).
  repeat split; try assumption.
  intros k e Hf. now rewrite Hc, find_app, Hf.
Qed.

Lemma X14_witness :
  exists w',
    handleBatch Sample.onchain_only [Sample.usdc] None
      (mkWorld [Lru.mkEntry (onchain_key Sample.usdc)
                            (onchain_record None None) 0] 3600001 7)
    = (Ret [mkToken "wrapped-ether" (str "weth") (str "Wrapped Ether") null
                    Sample.usdc_checksummed],
       w',
       [CallLlama (SlugStr "ethereum") [Sample.usdc];
        Fetched Llama (llama_key (SlugStr "ethereum") [Sample.usdc]) false;
        CallOnChain Sample.usdc;
        Fetched OnChain (onchain_key Sample.usdc) true;
        CallCoinGecko (str "WETH");
        Fetched CoinGecko (coingecko_key "WETH") false]).
Proof.
  destruct (X14_expired_entries_ignored Sample.onchain_only [Sample.usdc]
              None
              (mkWorld [Lru.mkEntry (onchain_key Sample.usdc)
                                    (onchain_record None None) 0] 3600001 7)
              (snd (fst (handleBatch Sample.onchain_only [Sample.usdc] None
                           (mkWorld [] 3600001 7))))
              (Ret [mkToken "wrapped-ether" (str "weth")
                            (str "Wrapped Ether") null
                            Sample.usdc_checksummed])
              [CallLlama (SlugStr "ethereum") [Sample.usdc];
               Fetched Llama (llama_key (SlugStr "ethereum") [Sample.usdc])
                       false;
               CallOnChain Sample.usdc;
               Fetched OnChain (onchain_key Sample.usdc) true;
               CallCoinGecko (str "WETH");
               Fetched CoinGecko (coingecko_key "WETH") false])
    as (w' & Hrun & _).
  - intros e [<-|[]]. reflexivity.
  - apply Nat.leb_le. vm_compute. reflexivity.
  - vm_compute. reflexivity.
  - exists w'. exact Hrun.
Defined.

(* ------------------------------------------------------------------ *)
(** ** A batch during an outage *)

Lemma outage_llama (E : env) (c : slug) (l : list string) (w : world) :
  outage E -> holds_nothing (cache w) ->
  exists w' evs,
    try_catch (fetchFromDefiLlama E c l) (fun _ => Some empty_coins) w
    = (Ret (Some empty_coins), w', evs)
    /\ cache w' = cache w.
Proof.
  intros [Hf _] Hc. unfold try_catch, fetchFromDefiLlama.
  destruct (from_cache w _) as [[v wh]|] eqn:Hfc.
  - apply from_cache_some in Hfc as (e & Hfind & _). exfalso.
    destruct (Hc e (find_in _ _ _ Hfind)) as [Hp _].
    rewrite (find_key _ _ _ Hfind) in Hp. discriminate Hp.
  - specialize (Hf (calls w) (llama_url c l)).
    destruct (fetch E _ _) as [|[|] [j|]]; try discriminate Hf;
      do 2 eexists; split; reflexivity.
Qed.

Lemma outage_onchain (E : env) (a : string) (w : world) :
  outage E -> holds_nothing (cache w) ->
  exists n s w' evs,
    fetchOnChainNameSymbol E a w
    = (Ret (Some (onchain_record n s)), w', evs)
    /\ present n = false /\ present s = false
    /\ holds_nothing (cache w').
Proof.
  intros [_ Hr] Hc. unfold fetchOnChainNameSymbol.
  destruct (from_cache w _) as [[v wh]|] eqn:Hfc.
  - apply from_cache_some in Hfc as (e & Hfind & _ & -> & ->).
    destruct (Hc e (find_in _ _ _ Hfind)) as (_ & n & s & Hv & Hn & Hs).
    rewrite Hv. exists n, s. do 2 eexists.
    split; [reflexivity|]. split; [exact Hn|]. split; [exact Hs|].
    now apply all_entries_touch.
  - specialize (Hr (calls w) a). destruct (contract E _ _) as [|n s].
    + exists None, None. do 2 eexists.
      split; [reflexivity|]. split; [reflexivity|]. split; [reflexivity|].
      exact Hc.
    + destruct Hr as [Hn Hs]. exists n, s. do 2 eexists.
      split; [reflexivity|]. split; [exact Hn|]. split; [exact Hs|].
      apply all_entries_set; [|exact Hc].
      split; [apply prefix_append|]. exists n, s. auto.
Qed.

Lemma outage_resolve_all (E : env) (c : slug) :
  outage E ->
  forall addrs results w,
    holds_nothing (cache w) ->
    exists w' evs,
      resolve_all E c (Some empty_coins) addrs results w
      = (Ret (results
              ++ map (fun a => mkToken (toLowerCase a) null null null
                                       (normalizeAddress E a)) addrs)%list,
         w', evs)
      /\ holds_nothing (cache w').
Proof.
  intros Hout addrs.
  induction addrs as [|a rest IH]; intros results w Hc;
    cbn [resolve_all map].
  - do 2 eexists. rewrite app_nil_r. split; [reflexivity|exact Hc].
  - destruct (outage_onchain E a w Hout Hc)
      as (n & s & w1 & ev & Hf & Hn & Hs & Hc1).
    pose proof (no_data_record E c (Some empty_coins) a w w1 n s ev
                  eq_refl Hf Hn Hs) as Hr.
    destruct (IH (results
                  ++ [mkToken (toLowerCase a) null null null
                              (normalizeAddress E a)])%list w1 Hc1)
      as (w' & evs & Hrest & Hc').
    unfold bind. rewrite Hr, Hrest. do 2 eexists.
    split; [|exact Hc']. now rewrite <- app_assoc.
Qed.

(** X15: a batch during an outage.  When no HTTP request gives a body and
    no contract read gives a name or a symbol, and the cache knows no
    better (it is empty, or holds on-chain records without name and
    symbol), a batch still returns: one record per address, in order, with
    the lower-cased address as id, [null] for symbol, name and image, and
    the normalised address; and the cache still knows no better. *)
Theorem X15_outage (E : env) (addresses : list string)
  (chainInput : option string) (w : world) :
  outage E -> holds_nothing (cache w) ->
  exists w' evs,
    handleBatch E addresses chainInput w
    = (Ret (map (unknown_token E) addresses), w', evs)
    /\ holds_nothing (cache w').
Proof.
  intros Hout Hc. unfold handleBatch, bind.
  destruct (outage_llama E (resolveChainSlug chainInput)
              (map toLowerCase addresses) w Hout Hc)
    as (w1 & ev1 & -> & Hc1).
  rewrite <- Hc1 in Hc.
  destruct (outage_resolve_all E (resolveChainSlug chainInput) Hout
              (map toLowerCase addresses) [] w1 Hc)
    as (w' & evs & -> & Hc').
  assert (Hmap : map (fun a => mkToken (toLowerCase a) null null null
                                      (normalizeAddress E a))
                     (map toLowerCase addresses)
                 = map (unknown_token E) addresses).
  { rewrite map_map. apply map_ext. intros a. unfold unknown_token.
    now rewrite toLowerCase_idem. }
  cbn [app]. rewrite Hmap. do 2 eexists. split; [reflexivity|exact Hc'].
Qed.

Lemma X15_witness :
  exists w' evs,
    handleBatch Sample.down [Sample.usdc_checksummed; Sample.dai] None
                Sample.start
    = (Ret [unknown_token Sample.down Sample.usdc_checksummed;
            unknown_token Sample.down Sample.dai], w', evs)
    /\ holds_nothing (cache w').
Proof.
  apply (X15_outage Sample.down [Sample.usdc_checksummed; Sample.dai] None
           Sample.start).
  - split; intros; cbn; auto.
  - intros e [].
Defined.

(* ------------------------------------------------------------------ *)
(** ** The symbol-search step of the orchestrator *)

Lemma truthy_get_prop (v : jsval) (p : string) :
  truthy v = true -> get_prop v p = Ret (get_prop_opt v p).
Proof. now destruct v as [[| | | | |]|]. Qed.

(** X16: the symbol-search step never throws.  It calls the search adapter
    exactly when the image is missing and the symbol is not; it never
    replaces a name or an image that is there, what it fills in is truthy,
    and with an image already there it changes nothing and looks nothing
    up, even when the name is missing. *)
Theorem X16_search_step (E : env) (name symbol image : jsval) (w : world) :
  exists name' image' w' evs,
    coingecko_step E name symbol image w = (Ret (name', image'), w', evs)
    /\ (In (CallCoinGecko symbol) evs
        <-> (truthy image = false /\ truthy symbol = true))
    /\ (truthy name = true -> name' = name)
    /\ (truthy image = true -> image' = image /\ name' = name /\ evs = [])
    /\ (name' = name \/ truthy name' = true)
    /\ (image' = image \/ truthy image' = true).
Proof.
  unfold coingecko_step.
  destruct (truthy image) eqn:Hi; cbn [negb andb].
  { exists name, image, w, []. split; [reflexivity|].
    split; [split; [intros []|intros [H _]; discriminate H]|].
    repeat split; auto. }
  destruct (truthy symbol) eqn:Hs.
  2:{ exists name, image, w, []. split; [reflexivity|].
      split; [split; [intros []|intros [_ H]; discriminate H]|].
      repeat split; auto. }
  destruct (fetchFromCoinGeckoBySymbol_returns E symbol w)
    as (v & w1 & ev & Hf).
  destruct (fetchFromCoinGeckoBySymbol_events _ _ _ _ _ _ Hf)
    as (rest & -> & _).
  unfold bind, lift, ret. rewrite Hf.
  assert (Himg : exists image',
             (if truthy v
              then (x <~ get_prop v "image" ;;
                    Ret (if truthy x then x else image))
              else Ret image) = Ret image'
             /\ (image' = image \/ truthy image' = true)).
  { destruct (truthy v) eqn:Hv; [|eauto].
    rewrite (truthy_get_prop v "image" Hv). cbn [obind].
    destruct (truthy (get_prop_opt v "image")) eqn:Hx; eauto. }
  destruct Himg as (image' & -> & Himage).
  do 4 eexists. split; [reflexivity|].
  split; [split; [auto|intros _; now left]|].
  split.
  { intros Hn. now rewrite Hn. }
  split; [discriminate|].
  split; [|exact Himage].
  destruct (truthy name); cbn [negb andb]; [now left|].
  destruct (truthy (get_prop_opt v "name")) eqn:Hx; auto.
Qed.

(* ------------------------------------------------------------------ *)
(** ** The coin the search adapter picks *)

Lemma array_find_spec (p : json -> outcome bool) (l : list json)
  (found : jsval) :
  array_find p l = Ret found ->
  (exists m before after,
      found = Some m /\ l = (before ++ m :: after)%list
      /\ p m = Ret true
      /\ Forall (fun c => p c = Ret false) before)
  \/ (found = None /\ Forall (fun c => p c = Ret false) l).
Proof.
  induction l as [|c r IH]; cbn [array_find].
  - intros [= <-]. right. split; [reflexivity|constructor].
  - destruct (p c) as [[|]|e] eqn:Hp; [| |discriminate].
    + intros [= <-]. left. exists c, [], r. repeat split; auto.
    + intros H. destruct (IH H) as [(m & before & after & -> & -> & Hm & Hb)
                                   |[-> Hall]].
      * left. exists m, (c :: before), after. repeat split; auto.
      * right. split; [reflexivity|]. now constructor.
Qed.

Lemma symbol_matches_object (sym : string) (m : json) :
  symbol_matches sym m = Ret true ->
  exists s, get_prop_opt (Some m) "symbol" = str s
            /\ toLowerCase s = toLowerCase sym.
Proof.
  unfold symbol_matches.
  destruct m as [| | | | |members];
    cbn [get_prop obind opt_toLowerCase nullish]; try discriminate.
  cbn [get_prop_opt].
  destruct (own_prop members "symbol") as [[| | |s| |]|];
    cbn [opt_toLowerCase nullish call_toLowerCase obind]; try discriminate.
  intros [= H]. apply String.eqb_eq in H. now exists s.
Qed.

Lemma search_record_fields (id lsym name image : jsval) (p : string) :
  get_prop_opt (Some (object [("id", id); ("symbol", lsym); ("name", name);
                              ("image", image)])) p
  = if String.eqb p "id" then id
    else if String.eqb p "symbol" then lsym
    else if String.eqb p "name" then name
    else if String.eqb p "image" then image
    else None.
Proof.
  rewrite !(String.eqb_sym p).
  destruct id, lsym, name, image;
    cbn [get_prop_opt object defined_members own_prop];
    repeat match goal with
           | |- context [String.eqb ?a p] => destruct (String.eqb a p) eqn:?
           end;
    try reflexivity;
    repeat match goal with
           | H : String.eqb _ p = true |- _ => apply String.eqb_eq in H
           end; subst; discriminate.
Qed.

(** X17: the coin the search adapter takes.  When the search result is
    built, it is built from the first coin of the list whose symbol is the
    queried one up to letter case, and from the first coin of the list
    when no coin has that symbol; its id and name are those of the coin,
    its symbol the coin's in lower case, its image the coin's [large],
    else [thumb], else [null]. *)
Theorem X17_search_pick (sym : string) (data result : json) :
  coingecko_result sym data = Ret (Some result) ->
  exists coins m,
    get_prop_opt (Some data) "coins" = Some (JArr coins)
    /\ ((exists before after,
            coins = (before ++ m :: after)%list
            /\ symbol_matches sym m = Ret true
            /\ Forall (fun c => symbol_matches sym c = Ret false) before)
        \/ (nth_error coins 0 = Some m
            /\ Forall (fun c => symbol_matches sym c = Ret false) coins))
    /\ get_prop_opt (Some result) "id" = get_prop_opt (Some m) "id"
    /\ get_prop_opt (Some result) "name" = get_prop_opt (Some m) "name"
    /\ get_prop_opt (Some result) "symbol"
       = match get_prop_opt (Some m) "symbol" with
         | Some (JStr s) => str (toLowerCase s)
         | _ => None
         end
    /\ get_prop_opt (Some result) "image"
       = or_else (get_prop_opt (Some m) "large")
                 (or_else (get_prop_opt (Some m) "thumb") null).
Proof.
  unfold coingecko_result.
  destruct data as [| | | | |members]; cbn [get_prop obind]; try discriminate.
  change (get_prop_opt (Some (JObj members)) "coins")
    with (own_prop members "coins").
  destruct (own_prop members "coins") as [[| | | |[|first rest]|]|];
    try discriminate.
  destruct (array_find (symbol_matches sym) (first :: rest))
    as [found|e] eqn:Hfind; cbn [obind]; [|discriminate].
  assert (Hm : exists m,
    or_else found (Some first) = Some m
    /\ ((exists before after,
            first :: rest = (before ++ m :: after)%list
            /\ symbol_matches sym m = Ret true
            /\ Forall (fun c => symbol_matches sym c = Ret false) before)
        \/ (nth_error (first :: rest) 0 = Some m
            /\ Forall (fun c => symbol_matches sym c = Ret false)
                      (first :: rest)))).
  { destruct (array_find_spec _ _ _ Hfind)
      as [(m & before & after & -> & Hl & Hp & Hb)|[-> Hall]].
    - exists m. split; [|left; eauto].
      destruct (symbol_matches_object _ _ Hp) as (s & Hs & _).
      now destruct m.
    - exists first. split; [reflexivity|right; auto]. }
  destruct Hm as (m & -> & Hpick).
  destruct m as [| | | | |fields]; cbn [get_prop obind]; try discriminate.
  - cbn [opt_toLowerCase nullish obind or_else truthy].
    intros [= <-]. exists (first :: rest), (JBool b).
    split; [reflexivity|]. split; [exact Hpick|]. cbv. auto.
  - cbn [opt_toLowerCase nullish obind or_else truthy].
    intros [= <-]. exists (first :: rest), (JNum n).
    split; [reflexivity|]. split; [exact Hpick|]. cbv. auto.
  - cbn [opt_toLowerCase nullish obind or_else truthy].
    intros [= <-]. exists (first :: rest), (JStr s).
    split; [reflexivity|]. split; [exact Hpick|]. cbv. auto.
  - cbn [opt_toLowerCase nullish obind or_else truthy].
    intros [= <-]. exists (first :: rest), (JArr l).
    split; [reflexivity|]. split; [exact Hpick|]. cbv. auto.
  - destruct (opt_toLowerCase (own_prop fields "symbol")) as [lsym|e] eqn:Hl;
      cbn [obind]; [|discriminate].
    intros [= <-]. exists (first :: rest), (JObj fields).
    split; [reflexivity|]. split; [exact Hpick|].
    rewrite !search_record_fields. cbn [String.eqb Ascii.eqb Bool.eqb].
    cbn [get_prop_opt].
    split; [reflexivity|]. split; [reflexivity|]. split; [|reflexivity].
    unfold opt_toLowerCase in Hl.
    destruct (own_prop fields "symbol") as [[| | |s| |]|];
      cbn [nullish call_toLowerCase] in Hl; try discriminate;
      now injection Hl as <-.
Qed.

Lemma X17_witness :
  exists coins m,
    get_prop_opt
      (Some (JObj [("coins",
               JArr [JObj [("id", JStr "usd-coin-bridged");
                           ("symbol", JStr "USDC.e")];
                     JObj [("id", JStr "usd-coin");
                           ("symbol", JStr "USDC");
                           ("thumb", JStr "t.png")]])])) "coins"
    = Some (JArr coins)
    /\ In m coins
    /\ get_prop_opt (Some m) "id" = str "usd-coin".
Proof.
  destruct (X17_search_pick "usdc"
              (JObj [("coins",
                 JArr [JObj [("id", JStr "usd-coin-bridged");
                             ("symbol", JStr "USDC.e")];
                       JObj [("id", JStr "usd-coin");
                             ("symbol", JStr "USDC");
                             ("thumb", JStr "t.png")]])])
              (JObj [("id", JStr "usd-coin"); ("symbol", JStr "usdc");
                     ("image", JStr "t.png")]))
    as (coins & m & Hc & Hpick & Hid & _).
  - reflexivity.
  - exists coins, m. split; [exact Hc|].
    split; [|now rewrite <- Hid].
    destruct Hpick as [(before & after & -> & _)|[Hn _]].
    + apply in_elt.
    + destruct coins; [discriminate|]. injection Hn as <-. now left.
Defined.

(* ------------------------------------------------------------------ *)
(** ** The exceptions of a batch *)

Lemma type_error_obind {A B} (o : outcome A) (k : A -> outcome B) :
  type_error_only o -> (forall a, type_error_only (k a)) ->
  type_error_only (obind o k).
Proof.
  intros Ho Hk e. destruct o as [a|e0]; cbn [obind].
  - exact (Hk a e).
  - intros [= <-]. now apply Ho.
Qed.

Lemma type_error_Ret {A} (a : A) : type_error_only (Ret a).
Proof. intros e H. discriminate H. Qed.

Lemma type_error_get_prop (v : jsval) (p : string) :
  type_error_only (get_prop v p).
Proof. intros e. destruct v as [[| | | | |]|]; cbn; congruence. Qed.

Lemma type_error_call_toLowerCase (v : jsval) :
  type_error_only (call_toLowerCase v).
Proof. intros e. destruct v as [[| | | | |]|]; cbn; congruence. Qed.

Lemma type_error_seed (c : slug) (ld : jsval) (a : string) :
  type_error_only (seed c ld a).
Proof.
  unfold seed.
  repeat (apply type_error_obind; [apply type_error_get_prop|intros ?]).
  apply type_error_Ret.
Qed.

Lemma type_error_fill (current from : jsval) (p : string) :
  type_error_only (fill current from p).
Proof.
  unfold fill. destruct (truthy current); [apply type_error_Ret|].
  apply type_error_obind; [apply type_error_get_prop|intros ?].
  apply type_error_Ret.
Qed.

Lemma type_error_formatTokenOutput (E : env) (n s i : jsval) (a : string) :
  type_error_only (formatTokenOutput E n s i a).
Proof.
  unfold formatTokenOutput.
  apply type_error_obind.
  { destruct (truthy s); [|apply type_error_Ret].
    apply type_error_obind; [apply type_error_call_toLowerCase|intros ?].
    apply type_error_Ret. }
  intros sym. cbv zeta.
  apply type_error_obind; [|intros ?; apply type_error_Ret].
  destruct (truthy (or_else n _)).
  - apply type_error_obind; [apply type_error_call_toLowerCase|intros ?].
    apply type_error_Ret.
  - apply type_error_call_toLowerCase.
Qed.

Lemma only_type_errors_lift {A} (o : outcome A) :
  type_error_only o -> only_type_errors (lift o).
Proof. intros Ho w e w' evs [= H _ _]. now apply Ho. Qed.

Lemma only_type_errors_ret {A} (a : A) : only_type_errors (ret a).
Proof. intros w e w' evs H. discriminate H. Qed.

Lemma only_type_errors_bind {A B} (m : M A) (k : A -> M B) :
  only_type_errors m -> (forall a, only_type_errors (k a)) ->
  only_type_errors (bind m k).
Proof.
  intros Hm Hk w e w' evs. unfold bind.
  destruct (m w) as [[[a|e0] w1] ev1] eqn:Em.
  - destruct (k a w1) as [[r2 w2] ev2] eqn:Ek. intros [= -> _ _].
    exact (Hk a _ _ _ _ Ek).
  - intros [= -> _ _]. exact (Hm _ _ _ _ Em).
Qed.

Lemma only_type_errors_try_catch {A} (m : M A) (otherwise : exn -> A) :
  only_type_errors (try_catch m otherwise).
Proof.
  intros w e w' evs. unfold try_catch.
  destruct (m w) as [[[a|e0] w1] ev1]; discriminate.
Qed.

Lemma only_type_errors_handleBatch (E : env) (addresses : list string)
  (chainInput : option string) :
  only_type_errors (handleBatch E addresses chainInput).
Proof.
  unfold handleBatch.
  apply only_type_errors_bind; [apply only_type_errors_try_catch|].
  intros ld. generalize (@nil TokenRecord) as results.
  induction (map toLowerCase addresses) as [|a rest IH]; intros results;
    cbn [resolve_all].
  { apply only_type_errors_ret. }
  apply only_type_errors_bind; [|intros r; apply IH].
  unfold resolve_address.
  apply only_type_errors_bind;
    [apply only_type_errors_lift, type_error_seed|].
  intros [[n0 s0] i0].
  apply only_type_errors_bind.
  { unfold onchain_step.
    destruct (negb (truthy n0) || negb (truthy s0));
      [|apply only_type_errors_ret].
    apply only_type_errors_bind.
    - intros w e w' evs H.
      destruct (fetchOnChainNameSymbol_returns E a w) as (v & w1 & ev & Hr).
      congruence.
    - intros v. apply only_type_errors_bind;
        [apply only_type_errors_lift, type_error_fill|].
      intros n1. apply only_type_errors_bind;
        [apply only_type_errors_lift, type_error_fill|].
      intros s1. apply only_type_errors_ret. }
  intros [n1 s1].
  apply only_type_errors_bind.
  { unfold coingecko_step.
    destruct (negb (truthy i0) && truthy s1);
      [|apply only_type_errors_ret].
    apply only_type_errors_bind.
    - intros w e w' evs H.
      destruct (fetchFromCoinGeckoBySymbol_returns E s1 w)
        as (v & w1 & ev & Hr).
      congruence.
    - intros v. apply only_type_errors_bind;
        [|intros ?; apply only_type_errors_ret].
      apply only_type_errors_lift.
      destruct (truthy v); [|apply type_error_Ret].
      apply type_error_obind; [apply type_error_get_prop|intros ?].
      apply type_error_Ret. }
  intros [n2 i2].
  apply only_type_errors_lift, type_error_formatTokenOutput.
Qed.

(** X18: no failure of the network escapes a batch.  The only exception
    [handleBatch] throws is a TypeError (a rejected request, a body that
    does not parse and a failing contract read are all absorbed), so the
    only 500 the two routes answer is for a TypeError. *)
Theorem X18_only_type_errors (E : env) (chain query : option string)
  (address : option query_value) (addresses : list string) (w w' : world)
  (e : exn) (evs : list event) :
  (handleBatch E addresses chain w = (Throw e, w', evs) -> e = TypeError)
  /\ (tokeninfo_batch E chain query w = (ServerError e, w', evs) ->
      e = TypeError)
  /\ (tokeninfo E chain address w = (ServerError e, w', evs) ->
      e = TypeError).
Proof.
  split; [apply only_type_errors_handleBatch|].
  split.
  - unfold tokeninfo_batch.
    destruct query as [q|]; [|discriminate].
    destruct (String.eqb q ""); [discriminate|]. unfold respond.
    destruct (handleBatch E (parse_addresses q) (chain_or_default chain) w)
      as [[[out|e0] w1] ev1] eqn:Hrun; [discriminate|].
    intros [= -> _ _]. exact (only_type_errors_handleBatch _ _ _ _ _ _ _ Hrun).
  - unfold tokeninfo.
    destruct address as [[q|l|m]|]; try discriminate;
      try (now intros [= <- _ _]).
    destruct (String.eqb q ""); [discriminate|]. unfold respond.
    destruct (handleBatch E [q] (chain_or_default chain) w)
      as [[[out|e0] w1] ev1] eqn:Hrun; [discriminate|].
    intros [= -> _ _]. exact (only_type_errors_handleBatch _ _ _ _ _ _ _ Hrun).
Qed.

Lemma X18_witness :
  exists e w' evs,
    handleBatch Sample.null_body [Sample.usdc] None Sample.start
    = (Throw e, w', evs)
    /\ e = TypeError.
Proof.
  destruct (handleBatch Sample.null_body [Sample.usdc] None Sample.start)
    as [[[out|e] w'] evs] eqn:Hrun; [vm_compute in Hrun; discriminate Hrun|].
  exists e, w', evs. split; [reflexivity|].
  exact (proj1 (X18_only_type_errors Sample.null_body None None None
                  [Sample.usdc] Sample.start w' e evs) Hrun).
Defined.
